(** * Kepler: memoised orbital elements and the Kepler-equation solver

    A shallow embedding of [src/kepler.js].  A [Kepler] body is a JavaScript
    object: a finite map from property names to values, whose prototype
    carries the [set_x] derivations, [require], [eccAnom], [TrueAnom] and
    [position].  Numbers and the vector-math library the file calls into
    are interfaces: the program is written once over them (Part I).  Its
    structural properties are proved for every implementation (Parts IV,
    VIII, IX and X).  The numbers of JavaScript are those of Part III,
    IEEE 754 binary64, and the reduction of the mean anomaly is proved over
    them (Part VII).  The convergence and the accuracy of the solver are
    properties of the real functions it iterates: they are proved for the
    exact, real-number implementation of Part II, which leaves rounding out
    (Parts V, VI, XI and XII). *)

From Stdlib Require Import Floats.
From Stdlib Require Import Reals Lra Lia.
From stdpp Require Import gmap strings list.

(** * Part I: the program *)

(** ** Values, errors and the two interfaces *)

(** A defined JavaScript value held by a body: a number or a library
    object (a vector).  [undefined] is the absence of a value: a property
    read yields an [option value]. *)
Inductive value (num obj : Type) : Type :=
  | Num (x : num)
  | Obj (o : obj).
Arguments Num {num obj} x.
Arguments Obj {num obj} o.

(** The two ways the file can raise a [TypeError]. *)
Inductive error : Type :=
  | NotAFunction (name : string)        (* this[name] is not a function *)
  | UndefinedReceiver (member : string) (* member access on undefined *).

Inductive result (A : Type) : Type :=
  | Ok (a : A)
  | Err (e : error).
Arguments Ok {A} a.
Arguments Err {A} e.

#[export] Instance result_ret : MRet result := λ A a, Ok a.
#[export] Instance result_bind : MBind result :=
  λ A B k r, match r with Ok a => k a | Err e => Err e end.

(** JavaScript numbers with the operators and [Math] functions the file
    uses.  [dec m d] is the decimal literal [m * 10^-d]; [π] is the
    global the file reads under that name. *)
Class JSNumber (num : Type) : Type := {
  dec : Z → nat → num;
  NaN : num;
  n_add : num → num → num;
  n_sub : num → num → num;
  n_mul : num → num → num;
  n_div : num → num → num;
  n_neg : num → num;
  n_gt : num → num → bool;
  n_lt : num → num → bool;
  n_floor : num → num;
  n_sin : num → num;
  n_cos : num → num;
  n_acos : num → num;
  n_atan2 : num → num → num;
  π : num
}.

(** The vector-math library: methods called on a defined receiver, with
    arguments that may be [undefined].  The library is taken to be total.
    [field_x], [field_y] read the properties [.x], [.y]; [valueOf] is the
    number an object converts to under an arithmetic operator. *)
Class VectorLib (num obj : Type) : Type := {
  lib_length : value num obj → value num obj;
  lib_cross : value num obj → option (value num obj) → value num obj;
  lib_divide : value num obj → option (value num obj) → value num obj;
  lib_subtract : value num obj → option (value num obj) → value num obj;
  lib_square : value num obj → value num obj;
  lib_cube : value num obj → value num obj;
  lib_sqrt : value num obj → value num obj;
  lib_abs : value num obj → value num obj;
  field_x : value num obj → option (value num obj);
  field_y : value num obj → option (value num obj);
  valueOf : obj → num
}.

(** Operand conversion ([ToNumber]): [undefined] becomes [NaN]. *)
Class ToNumber (num A : Type) : Type := to_number : A → num.
#[global] Hint Mode ToNumber - ! : typeclass_instances.

Declare Scope js_scope.
Delimit Scope js_scope with js.

Section Program.
Context {num obj : Type} `{!JSNumber num} `{!VectorLib num obj}.

#[local] Abbreviation value := (value num obj).
#[local] Abbreviation props := (gmap string value).

#[export] Instance num_to_number : ToNumber num num := λ x, x.
#[export] Instance value_to_number : ToNumber num value :=
  λ v, match v with Num x => x | Obj o => valueOf o end.
#[export] Instance option_to_number : ToNumber num (option value) :=
  λ o, match o with Some v => to_number v | None => NaN end.

Definition js_add {A B} `{!ToNumber num A} `{!ToNumber num B} (a : A) (b : B) : value :=
  Num (n_add (to_number a) (to_number b)).
Definition js_sub {A B} `{!ToNumber num A} `{!ToNumber num B} (a : A) (b : B) : value :=
  Num (n_sub (to_number a) (to_number b)).
Definition js_mul {A B} `{!ToNumber num A} `{!ToNumber num B} (a : A) (b : B) : value :=
  Num (n_mul (to_number a) (to_number b)).
Definition js_div {A B} `{!ToNumber num A} `{!ToNumber num B} (a : A) (b : B) : value :=
  Num (n_div (to_number a) (to_number b)).
Definition js_neg {A} `{!ToNumber num A} (a : A) : value :=
  Num (n_neg (to_number a)).
Definition js_gt {A B} `{!ToNumber num A} `{!ToNumber num B} (a : A) (b : B) : bool :=
  n_gt (to_number a) (to_number b).
Definition js_lt {A B} `{!ToNumber num A} `{!ToNumber num B} (a : A) (b : B) : bool :=
  n_lt (to_number a) (to_number b).

Definition Math_floor {A} `{!ToNumber num A} (a : A) : value := Num (n_floor (to_number a)).
Definition Math_sin {A} `{!ToNumber num A} (a : A) : value := Num (n_sin (to_number a)).
Definition Math_cos {A} `{!ToNumber num A} (a : A) : value := Num (n_cos (to_number a)).
Definition Math_acos {A} `{!ToNumber num A} (a : A) : value := Num (n_acos (to_number a)).
Definition Math_atan2 {A B} `{!ToNumber num A} `{!ToNumber num B} (a : A) (b : B) : value :=
  Num (n_atan2 (to_number a) (to_number b)).

Definition int (z : Z) : num := dec z 0.

(** The receiver of a member access: [undefined] raises. *)
Definition receiver (o : option value) (member : string) : result value :=
  match o with
  | Some v => Ok v
  | None => Err (UndefinedReceiver member)
  end.

(** ** The machine: a body and the record of formula invocations *)

(** [this] is the body's own properties, which are data: its methods are
    those of the prototype.  [invoked] is ghost state: each time the formula
    of a [set_x] is evaluated, [x] is appended together with the properties
    the formula saw. *)
Record machine : Type := Machine {
  this : props;
  invoked : list (string * props)
}.

(** What a call does: return, raise (the body keeps what was stored
    before), or exceed the call depth granted to the model. *)
Inductive outcome : Type :=
  | Done (m : machine)
  | Throw (e : error) (m : machine)
  | Exhausted.

Definition and_then (c : machine → outcome) (k : machine → outcome) : machine → outcome :=
  λ m, match c m with
       | Done m' => k m'
       | o => o
       end.

(** [this.x = f(this)]: evaluate the formula, then store its value. *)
Definition assign (x : string) (f : props → result value) : machine → outcome :=
  λ m, let seen := invoked m ++ [(x, this m)] in
       match f (this m) with
       | Ok v => Done (Machine (<[x := v]> (this m)) seen)
       | Err e => Throw e (Machine (this m) seen)
       end.

(** A prototype method that may call [this.require]. *)
Definition method : Type := (list string → machine → outcome) → machine → outcome.

End Program.

Notation "c ;; k" := (and_then c k) (at level 100, k at level 200, right associativity) : js_scope.
Notation "x ::= f" := (assign x f) (at level 90, no associativity) : js_scope.
Infix "+" := js_add : js_scope.
Infix "-" := js_sub : js_scope.
Infix "*" := js_mul : js_scope.
Infix "/" := js_div : js_scope.
Notation "- x" := (js_neg x) : js_scope.
Infix ">" := js_gt : js_scope.
Infix "<" := js_lt : js_scope.

(** ** The prototype of [Kepler] *)

Section Kepler.
Context {num obj : Type} `{!JSNumber num} `{!VectorLib num obj}.

#[local] Abbreviation value := (value num obj).
#[local] Abbreviation props := (gmap string value).
#[local] Abbreviation machine := (@machine num obj).
#[local] Abbreviation outcome := (@outcome num obj).
#[local] Abbreviation method := (@method num obj).

#[local] Open Scope js_scope.

(** [function Kepler (rvec, vvec, mass)]: a body holds its three primary
    attributes and nothing else; no formula has been invoked on it. *)
Definition Kepler (rvec vvec mass : value) : machine :=
  Machine (<["mass" := mass]> (<["vvec" := vvec]> (<["rvec" := rvec]> ∅))) [].

(** Radius scalar *)
Definition set_r : method := λ require,
  "r" ::= (λ this, rvec ← receiver (this !! "rvec") "length";
                   Ok (lib_length rvec)).

(** Velocity scalar *)
Definition set_v : method := λ require,
  "v" ::= (λ this, vvec ← receiver (this !! "vvec") "length";
                   Ok (lib_length vvec)).

(** Gravitational attraction *)
Definition set_μ : method := λ require,
  "μ" ::= (λ this, Ok (Num (int 398600))).

(** Kinetic energy *)
Definition set_ek : method := λ require,
  require ["v"] ;;
  "ek" ::= (λ this, v ← receiver (this !! "v") "square";
                    Ok (lib_square v / int 2)).

(** Gravitational potential energy *)
Definition set_ep : method := λ require,
  require ["μ"; "r"] ;;
  "ep" ::= (λ this, Ok (- (this !! "μ") / this !! "r")).

(** Specific orbital energy *)
Definition set_ε : method := λ require,
  require ["ek"; "ep"] ;;
  "ε" ::= (λ this, Ok (this !! "ek" + this !! "ep")).

(** Moment of inertia *)
Definition set_I : method := λ require,
  require ["r"] ;;
  "I" ::= (λ this, r ← receiver (this !! "r") "square";
                   Ok (this !! "mass" * lib_square r)).

(** Angular velocity *)
Definition set_Ω : method := λ require,
  require ["r"] ;;
  "Ω" ::= (λ this, rvec ← receiver (this !! "rvec") "cross";
                   r ← receiver (this !! "r") "square";
                   Ok (lib_cross rvec (this !! "vvec") / lib_square r)).

(** Total angular momentum *)
Definition set_L : method := λ require,
  require ["I"; "Ω"] ;;
  "L" ::= (λ this, Ok (this !! "I" * this !! "Ω")).

(** Specific relative angular momentum *)
Definition set_h : method := λ require,
  require ["L"; "μ"] ;;
  "h" ::= (λ this, Ok (this !! "L" / this !! "mass")).

(** Semi-major axis *)
Definition set_a : method := λ require,
  require ["μ"; "ε"] ;;
  "a" ::= (λ this, Ok (- (this !! "μ") / (int 2 * this !! "ε"))).

(** Semi-minor axis *)
Definition set_b : method := λ require,
  require ["a"; "ecc"] ;;
  "b" ::= (λ this, if this !! "ecc" > int 1
                   then ecc ← receiver (this !! "ecc") "square";
                        Ok (this !! "a" * lib_sqrt (lib_square ecc - int 1))
                   else ecc ← receiver (this !! "ecc") "square";
                        Ok (this !! "a" * lib_sqrt (int 1 - lib_square ecc))).

(** Eccentricity vector.  The method reads [h], [μ] and [r] without a call
    to [this.require]. *)
Definition set_eccvec : method := λ require,
  "eccvec" ::= (λ this, vvec ← receiver (this !! "vvec") "cross";
                        rvec ← receiver (this !! "rvec") "divide";
                        Ok (lib_subtract
                              (lib_divide (lib_cross vvec (this !! "h")) (this !! "μ"))
                              (Some (lib_divide rvec (this !! "r"))))).

(** Eccentricity *)
Definition set_ecc : method := λ require,
  require ["ε"; "h"; "μ"] ;;
  "ecc" ::= (λ this, h ← receiver (this !! "h") "square";
                     μ ← receiver (this !! "μ") "square";
                     Ok (lib_sqrt (int 1 + (int 2 * this !! "ε" * lib_square h)
                                           / lib_square μ))).

(** Orbital period *)
Definition set_p : method := λ require,
  require ["a"; "μ"] ;;
  "p" ::= (λ this, a ← receiver (this !! "a") "cube";
                   Ok (int 2 * π * lib_sqrt (lib_cube a / this !! "μ"))).

(** Eccentric anomaly at epoch *)
Definition set_Et : method := λ require,
  require ["a"] ;;
  "Et" ::= (λ this, rvec ← receiver (this !! "rvec") "x";
                    Ok (Math_acos (field_x rvec / this !! "a"))).

Definition set_ap : method := λ require,
  require ["ecc"; "a"] ;;
  "ap" ::= (λ this, Ok ((int 1 + this !! "ecc") * this !! "a")).

Definition set_pe : method := λ require,
  require ["ecc"; "a"] ;;
  "pe" ::= (λ this, Ok ((int 1 - this !! "ecc") * this !! "a")).

(** Argument of periapsis *)
Definition set_ω : method := λ require,
  require ["eccvec"] ;;
  "ω" ::= (λ this, eccvec ← receiver (this !! "eccvec") "y";
                   Ok (Math_atan2 (field_y eccvec) (field_x eccvec))).

(** True anomaly at epoch *)
Definition set_vt : method := λ require,
  "vt" ::= (λ this, rvec ← receiver (this !! "rvec") "y";
                    Ok (Math_atan2 (field_y rvec) (field_x rvec))).

(** *** Property lookup through the prototype chain *)

(** The [set_x] members of [Kepler.prototype], by name. *)
Definition set_methods : list (string * method) :=
  [ ("set_r", set_r); ("set_v", set_v); ("set_μ", set_μ); ("set_ek", set_ek);
    ("set_ep", set_ep); ("set_ε", set_ε); ("set_I", set_I); ("set_Ω", set_Ω);
    ("set_L", set_L); ("set_h", set_h); ("set_a", set_a); ("set_b", set_b);
    ("set_eccvec", set_eccvec); ("set_ecc", set_ecc); ("set_p", set_p);
    ("set_Et", set_Et); ("set_ap", set_ap); ("set_pe", set_pe);
    ("set_ω", set_ω); ("set_vt", set_vt) ].

(** Every member of [Kepler.prototype]. *)
Definition Kepler_prototype : list string :=
  set_methods.*1 ++ ["eccAnom"; "TrueAnom"; "position"; "require"].

(** The members every object inherits from [Object.prototype]. *)
Definition Object_prototype : list string :=
  [ "constructor"; "toString"; "toLocaleString"; "valueOf"; "hasOwnProperty";
    "isPrototypeOf"; "propertyIsEnumerable"; "__proto__"; "__defineGetter__";
    "__defineSetter__"; "__lookupGetter__"; "__lookupSetter__" ].

(** [typeof this[p] == 'undefined']: no own value and no inherited member. *)
Definition typeof_undefined (this : props) (p : string) : bool :=
  match this !! p with
  | Some _ => false
  | None => negb (bool_decide (p ∈ Kepler_prototype ++ Object_prototype))
  end.

Fixpoint member (name : string) (l : list (string * method)) : option method :=
  match l with
  | [] => None
  | (k, f) :: l' => if decide (k = name) then Some f else member name l'
  end.

(** [this['set_' + p]] as a callee: an own value of that name is not a
    function, and neither is a name the prototype does not have. *)
Definition this_set_ (this : props) (p : string) : result method :=
  let name := "set_" +:+ p in
  match this !! name with
  | Some _ => Err (NotAFunction name)
  | None => match member name set_methods with
            | Some f => Ok f
            | None => Err (NotAFunction name)
            end
  end.

(** *** [require] *)

(** The loop visits [properties] in order.  [depth] bounds the nesting of
    [require] calls; [call_depth] below is more than the prototype ever needs
    ([require_depth_irrelevant]). *)
Fixpoint require_at (depth : nat) : list string → machine → outcome :=
  fix loop (properties : list string) (m : machine) : outcome :=
    match properties with
    | [] => Done m
    | p :: rest =>
        if typeof_undefined (this m) p then
          match this_set_ (this m) p with
          | Err e => Throw e m
          | Ok f =>
              match depth with
              | O => Exhausted
              | S d => match f (require_at d) m with
                       | Done m' => loop rest m'
                       | o => o
                       end
              end
          end
        else loop rest m
    end.

Definition call_depth : nat := 8.

Definition require : list string → machine → outcome := require_at call_depth.

(** *** The anomaly pipeline *)

Definition maxIter : nat := 30.

(** The [while] loop of [eccAnom], by the iterations [maxIter - i] left. *)
Fixpoint newton (this : props) (left : nat) (E F : value) (i : nat) : value * value * nat :=
  match left with
  | O => (E, F, i)
  | S left' =>
      if lib_abs F > dec 1 3 then
        let E' := E - F / (dec 10 1 - this !! "ε" * Math_cos E) in
        let F' := E' - this !! "ε" * Math_sin E' - this !! "M" in
        newton this left' E' F' (S i)
      else (E, F, i)
  end.

(** The initial guess and residual of [eccAnom], given the body after the
    two assignments to [this.M], which then holds a number. *)
Definition initial_guess (this : props) : value :=
  if this !! "ε" < dec 8 1 then Num (to_number (this !! "M")) else Num π.

Definition initial_residual (this : props) (E : value) : value :=
  E - this !! "ε" * Math_sin (this !! "M") - this !! "M".

(** [this.M] after the update and the reduction. *)
Definition mean_anomaly (currentTick : option value) (this : props) : props :=
  let this1 := <["M" := this !! "Mt" + (this !! "n" * (currentTick - this !! "epoch"))]> this in
  <["M" := dec 20 1 * π * (this1 !! "M" - Math_floor (this1 !! "M"))]> this1.

(** The last iterate, the last residual and the iteration count. *)
Definition solve (this : props) : value * value * nat :=
  let E := initial_guess this in
  let F := initial_residual this E in
  newton this (maxIter - 0) E F 0.

(** Calculate eccentric anomaly from mean anomaly.  [currentTick] is the
    global [Game.currentTick]. *)
Definition eccAnom (currentTick : option value) (m : machine) : outcome :=
  let K : value := π / int 180 in
  let this' := mean_anomaly currentTick (this m) in
  let '(E, F, i) := solve this' in
  Done (Machine (<["E" := E / K]> this') (invoked m)).

(** Calculate true anomaly from eccentric anomaly *)
Definition TrueAnom (m : machine) : outcome :=
  let S : value := Math_sin (this m !! "E") in
  let C : value := Math_cos (this m !! "E") in
  let fak : value := lib_sqrt (dec 10 1 - this m !! "ε" * this m !! "ε") in
  Done (Machine (<["φ" := Math_atan2 (fak * S) (C - this m !! "ε") / π]> (this m)) (invoked m)).

(** Calculate position from true anomaly: two locals, nothing stored. *)
Definition position (m : machine) : outcome :=
  let C : value := Math_cos (this m !! "E") in
  let S : value := Math_sin (this m !! "E") in
  Done m.

End Kepler.

(** * Part II: exact arithmetic *)

(** ** Numbers: the reals, and [NaN] *)

(** A JavaScript number read as the real number it stands for.  This is
    an idealisation, not the arithmetic of the program: no operation rounds,
    overflows or underflows, there are no infinities and no negative zero,
    and whatever is not a finite real ([NaN], a division by zero, the square
    root of a negative number) is [Nan].  What is proved over these numbers
    is a property of the formulas the program evaluates; the numbers of the
    program itself are those of Part III. *)
Inductive exact : Type :=
  | Nan
  | Fin (x : R).

Definition lift2 (f : R → R → R) (a b : exact) : exact :=
  match a, b with
  | Fin x, Fin y => Fin (f x y)
  | _, _ => Nan
  end.

Definition lift1 (f : R → R) (a : exact) : exact :=
  match a with
  | Fin x => Fin (f x)
  | Nan => Nan
  end.

(** The quotient; by zero it is [Nan], where binary64 has an infinity or
    [NaN]. *)
Definition exact_div (a b : exact) : exact :=
  match a, b with
  | Fin x, Fin y => if Req_dec_T y 0 then Nan else Fin (x / y)
  | _, _ => Nan
  end.

Definition exact_gt (a b : exact) : bool :=
  match a, b with
  | Fin x, Fin y => if Rlt_dec y x then true else false
  | _, _ => false
  end.

Definition exact_sqrt (a : exact) : exact :=
  match a with
  | Fin x => if Rlt_dec x 0 then Nan else Fin (sqrt x)
  | Nan => Nan
  end.

Definition exact_acos (a : exact) : exact :=
  match a with
  | Fin x => if Rle_dec (-1) x then if Rle_dec x 1 then Fin (acos x) else Nan else Nan
  | Nan => Nan
  end.

(** [Math.atan2(y, x)], the angle of the point [(x, y)] in [(-π, π]]; the
    zero here has no sign, and the angle of [(x, 0)] with [x < 0] is [π]. *)
Definition exact_atan2 (b a : exact) : exact :=
  match b, a with
  | Fin y, Fin x =>
      if Rlt_dec 0 x then Fin (atan (y / x))
      else if Rlt_dec x 0 then
             if Rle_dec 0 y then Fin (atan (y / x) + PI) else Fin (atan (y / x) - PI)
      else if Rlt_dec 0 y then Fin (PI / 2)
      else if Rlt_dec y 0 then Fin (- PI / 2)
      else Fin 0
  | _, _ => Nan
  end.

#[export] Instance exact_number : JSNumber exact := {|
  dec m d := Fin (IZR m / 10 ^ d);
  NaN := Nan;
  n_add := lift2 Rplus;
  n_sub := lift2 Rminus;
  n_mul := lift2 Rmult;
  n_div := exact_div;
  n_neg := lift1 Ropp;
  n_gt := exact_gt;
  n_lt a b := exact_gt b a;
  n_floor := lift1 (λ x, IZR (Zfloor x));
  n_sin := lift1 Rtrigo_def.sin;
  n_cos := lift1 Rtrigo_def.cos;
  n_acos := exact_acos;
  n_atan2 := exact_atan2;
  π := Fin PI
|}.

(** ** Vectors in the plane *)

Definition vec2 : Type := exact * exact.

(** Modelled from the spec: the vector-math library ([length], [cross],
    [divide], [subtract] on vectors; [square], [cube], [sqrt], [abs] on
    numbers), which is external to the repository; the spec names the
    primitives and takes them to be exact.  Vectors are planar: the cross
    product of two vectors is a number, that of a vector and a number a
    vector.  A method applied to a receiver or an argument of the wrong
    kind yields [Nan]. *)
#[export] Instance plane : VectorLib exact vec2 := {|
  lib_length v :=
    match v with
    | Obj (x, y) => Num (exact_sqrt (lift2 Rplus (lift2 Rmult x x) (lift2 Rmult y y)))
    | Num _ => Num Nan
    end;
  lib_cross v w :=
    match v, w with
    | Obj (x1, y1), Some (Obj (x2, y2)) =>
        Num (lift2 Rminus (lift2 Rmult x1 y2) (lift2 Rmult y1 x2))
    | Obj (x, y), Some (Num s) => Obj (lift2 Rmult s y, lift1 Ropp (lift2 Rmult s x))
    | _, _ => Num Nan
    end;
  lib_divide v s :=
    match v, s with
    | Obj (x, y), Some (Num s) => Obj (exact_div x s, exact_div y s)
    | Obj (x, y), _ => Obj (Nan, Nan)
    | Num a, Some (Num s) => Num (exact_div a s)
    | Num a, _ => Num Nan
    end;
  lib_subtract v w :=
    match v, w with
    | Obj (x1, y1), Some (Obj (x2, y2)) => Obj (lift2 Rminus x1 x2, lift2 Rminus y1 y2)
    | Num a, Some (Num b) => Num (lift2 Rminus a b)
    | Obj _, _ => Obj (Nan, Nan)
    | Num _, _ => Num Nan
    end;
  lib_square v := match v with Num a => Num (lift2 Rmult a a) | Obj _ => Num Nan end;
  lib_cube v :=
    match v with Num a => Num (lift2 Rmult (lift2 Rmult a a) a) | Obj _ => Num Nan end;
  lib_sqrt v := match v with Num a => Num (exact_sqrt a) | Obj _ => Num Nan end;
  lib_abs v := match v with Num a => Num (lift1 Rabs a) | Obj _ => Num Nan end;
  field_x v := match v with Obj (x, _) => Some (Num x) | Num _ => None end;
  field_y v := match v with Obj (_, y) => Some (Num y) | Num _ => None end;
  valueOf _ := Nan
|}.

(** Unfolds the operators of the program at the exact numbers. *)
Ltac exact_eval :=
  cbv [js_add js_sub js_mul js_div js_neg js_gt js_lt Math_floor Math_sin Math_cos
       int to_number option_to_number value_to_number num_to_number
       dec NaN n_add n_sub n_mul n_div n_neg n_gt n_lt n_floor n_sin n_cos π
       exact_number lift2 lift1 lib_abs lib_square lib_sqrt lib_cube plane].

(** * Part III: binary64 arithmetic *)

(** JavaScript numbers as they are: IEEE 754 binary64.  The operators are
    those of the primitive floating-point numbers, which the standard
    library specifies by [SpecFloat]: they round to nearest, ties to even,
    with infinities, [NaN] and signed zeros. *)

Section Rounding.
#[local] Open Scope Z_scope.

(** ** The significand: digits and shifts *)

Lemma digits2_pos_bounds (p : positive) :
  2 ^ (Zpos (digits2_pos p) - 1) <= Zpos p < 2 ^ Zpos (digits2_pos p).
Proof.
  induction p as [p IH|p IH|]; simpl digits2_pos.
  - rewrite Pos2Z.inj_succ, (Pos2Z.inj_xI p).
    replace (Z.succ (Zpos (digits2_pos p)) - 1) with (Z.succ (Zpos (digits2_pos p) - 1)) by lia.
    rewrite !Z.pow_succ_r by lia.
    set (a := 2 ^ (Zpos (digits2_pos p) - 1)) in *. set (b := 2 ^ Zpos (digits2_pos p)) in *.
    clearbody a b. lia.
  - rewrite Pos2Z.inj_succ, (Pos2Z.inj_xO p).
    replace (Z.succ (Zpos (digits2_pos p)) - 1) with (Z.succ (Zpos (digits2_pos p) - 1)) by lia.
    rewrite !Z.pow_succ_r by lia.
    set (a := 2 ^ (Zpos (digits2_pos p) - 1)) in *. set (b := 2 ^ Zpos (digits2_pos p)) in *.
    clearbody a b. lia.
  - simpl. lia.
Qed.

(** A significand with [d] digits is at least [2^(d-1)]: a smaller number
    has fewer digits. *)
Lemma digits2_pos_le (p q : positive) (j : Z) :
  0 <= j → Zpos p <= Zpos q * 2 ^ j → Zpos (digits2_pos p) <= Zpos (digits2_pos q) + j.
Proof.
  intros Hj Hpq.
  pose proof (digits2_pos_bounds p) as [Hp _]. pose proof (digits2_pos_bounds q) as [_ Hq].
  assert (2 ^ (Zpos (digits2_pos p) - 1) < 2 ^ (Zpos (digits2_pos q) + j)) as Hlt.
  { rewrite Z.pow_add_r by lia. nia. }
  apply Z.pow_lt_mono_r_iff in Hlt; lia.
Qed.

Lemma iter_xO (p d : positive) : Zpos (Pos.iter xO p d) = Zpos p * 2 ^ Zpos d.
Proof.
  induction d as [|d IH] using Pos.peano_ind.
  - simpl. lia.
  - rewrite Pos.iter_succ, Pos2Z.inj_xO, IH, Pos2Z.inj_succ, Z.pow_succ_r by lia. lia.
Qed.

Lemma digits2_pos_iter_xO (p d : positive) :
  digits2_pos (Pos.iter xO p d) = (digits2_pos p + d)%positive.
Proof.
  induction d as [|d IH] using Pos.peano_ind.
  - simpl. lia.
  - rewrite Pos.iter_succ. simpl. rewrite IH. lia.
Qed.

(** ** [shr]: dropping the low bits *)

Lemma iter_pos_nat {A} (f : A → A) (p : positive) (x : A) :
  SpecFloat.iter_pos f p x = Nat.iter (Pos.to_nat p) f x.
Proof.
  revert x. induction p as [p IH|p IH|]; intros x; cbn [SpecFloat.iter_pos].
  - rewrite !IH, Pos2Nat.inj_xI.
    rewrite <- Nat.iter_add, <- Nat.iter_succ_r. f_equal. lia.
  - rewrite !IH, Pos2Nat.inj_xO. rewrite <- Nat.iter_add. f_equal. lia.
  - done.
Qed.

Lemma shr_1_nonneg m r s :
  0 <= m → shr_1 (Build_shr_record m r s) = Build_shr_record (m / 2) (Z.odd m) (r || s).
Proof.
  intros Hm. destruct m as [|[p|p|]|p]; try lia; simpl; f_equal.
  - rewrite Pos2Z.inj_xI. apply Z.div_unique with 1; lia.
  - rewrite Pos2Z.inj_xO. apply Z.div_unique with 0; lia.
Qed.

(** After [n] steps the significand is the quotient by [2^n], and the two
    bits kept aside are clear when the division is exact. *)
Lemma shr_iter (n : nat) (m : Z) :
  0 <= m →
  let r := Nat.iter n shr_1 (Build_shr_record m false false) in
  shr_m r = m / 2 ^ Z.of_nat n ∧
  (m mod 2 ^ Z.of_nat n = 0 → shr_r r = false ∧ shr_s r = false).
Proof.
  intros Hm. induction n as [|n IH]; [simpl; rewrite Z.div_1_r, Z.mod_1_r; done|].
  cbv zeta in *. rewrite Nat.iter_succ.
  destruct (Nat.iter n shr_1 _) as [q r s]. simpl in IH. destruct IH as [-> IH].
  assert (0 <= m / 2 ^ Z.of_nat n) as Hq by (apply Z.div_pos; lia).
  rewrite shr_1_nonneg by done. simpl shr_m. simpl shr_r. simpl shr_s.
  rewrite Nat2Z.inj_succ, Z.pow_succ_r by lia. split.
  - rewrite Z.div_div by lia. f_equal. lia.
  - intros Hmod.
    assert (m = 2 * 2 ^ Z.of_nat n * (m / (2 * 2 ^ Z.of_nat n))) as Heq.
    { pose proof (Z.div_mod m (2 * 2 ^ Z.of_nat n) ltac:(lia)). lia. }
    set (k := m / (2 * 2 ^ Z.of_nat n)) in *.
    assert (m mod 2 ^ Z.of_nat n = 0) as Hmod'.
    { rewrite Heq. replace (2 * 2 ^ Z.of_nat n * k) with ((2 * k) * 2 ^ Z.of_nat n) by lia.
      apply Z.mod_mul. lia. }
    destruct (IH Hmod') as [-> ->]. split; [|done].
    assert (m / 2 ^ Z.of_nat n = 2 * k) as ->.
    { rewrite Heq at 1. replace (2 * 2 ^ Z.of_nat n * k) with ((2 * k) * 2 ^ Z.of_nat n) by lia.
      apply Z.div_mul. lia. }
    rewrite Z.odd_mul. done.
Qed.

(** ** Rounding does not cross a representable bound *)

(** [m·2^e] is at most [mb·2^eb], the exponent [e] being at most [eb]. *)
Definition below (mb : positive) (eb : Z) (m e : Z) : Prop :=
  e <= eb ∧ m <= Zpos mb * 2 ^ (eb - e).

(** [mb·2^eb] is a number of the format: its exponent is not below the one
    the format gives to its magnitude. *)
Definition representable (mb : positive) (eb : Z) : Prop :=
  fexp prec emax (Zpos (digits2_pos mb) + eb) <= eb ∧ eb <= emax - prec.

Lemma below_mono mb eb m m' e : m' <= m → below mb eb m e → below mb eb m' e.
Proof. intros Hm [He Hb]. split; lia. Qed.

Lemma fexp_below mb eb (m : positive) e :
  representable mb eb → below mb eb (Zpos m) e →
  fexp prec emax (Zpos (digits2_pos m) + e) <= eb.
Proof.
  intros [Hrep _] [He Hb].
  pose proof (digits2_pos_le m mb (eb - e) ltac:(lia) Hb).
  unfold fexp in *. lia.
Qed.

Lemma round_nearest_even_bounds m l :
  m <= round_nearest_even m l <= m + 1 ∧
  (l = loc_Exact → round_nearest_even m l = m).
Proof.
  destruct l as [|[]]; simpl; (split; [|done]); try lia. destruct (Z.even m); lia.
Qed.

Lemma shr_record_exact r :
  shr_r r = false → shr_s r = false → loc_of_shr_record r = loc_Exact.
Proof. destruct r as [m [] []]; simpl; done. Qed.

Lemma shr_below mb eb (m : Z) e k :
  0 <= m → 0 <= k → e + k <= eb → below mb eb m e →
  let '(r, e') := shr (Build_shr_record m false false) e k in
  let m' := round_nearest_even (shr_m r) (loc_of_shr_record r) in
  e' = e + k ∧ 0 <= shr_m r <= m' ∧ below mb eb m' e'.
Proof.
  intros Hm Hk Hek [He Hb]. unfold shr. destruct k as [|p|p]; [| |lia].
  - simpl. repeat split; lia.
  - rewrite iter_pos_nat.
    destruct (shr_iter (Pos.to_nat p) m Hm) as [Hq Hexact]. rewrite positive_nat_Z in *.
    destruct (Nat.iter _ _ _) as [q r s]. simpl in Hq, Hexact. simpl shr_m.
    pose proof (round_nearest_even_bounds q (loc_of_shr_record (Build_shr_record q r s)))
      as [Hrne Hrne0].
    assert (0 <= q) as Hq0 by (subst q; apply Z.div_pos; lia).
    split; [done|]. split; [lia|]. split; [done|].
    replace (eb - e) with ((eb - (e + Zpos p)) + Zpos p) in Hb by lia.
    rewrite Z.pow_add_r in Hb by lia.
    set (B := Zpos mb * 2 ^ (eb - (e + Zpos p))) in *.
    assert (0 < 2 ^ Zpos p) as Hpow by (apply Z.pow_pos_nonneg; lia).
    destruct (Z.eq_dec (m mod 2 ^ Zpos p) 0) as [Hmod|Hmod].
    + destruct (Hexact Hmod) as [-> ->]. rewrite Hrne0 by done. subst q.
      apply Z.div_le_upper_bound; lia.
    + assert (m < B * 2 ^ Zpos p) as Hlt.
      { destruct (Z.eq_dec m (B * 2 ^ Zpos p)) as [->|Hne]; [|lia].
        rewrite Z.mod_mul in Hmod by lia. done. }
      assert (q < B) by (subst q; apply Z.div_lt_upper_bound; lia). lia.
Qed.

Lemma shr_fexp_below mb eb (m : positive) e :
  representable mb eb → below mb eb (Zpos m) e →
  let '(r, e') := shr_fexp prec emax (Zpos m) e loc_Exact in
  let m' := round_nearest_even (shr_m r) (loc_of_shr_record r) in
  0 <= shr_m r <= m' ∧ below mb eb m' e'.
Proof.
  intros Hrep Hb. unfold shr_fexp. cbn [shr_record_of_loc Zdigits2].
  pose proof (fexp_below mb eb m e Hrep Hb) as Hfexp.
  set (k := fexp prec emax (Zpos (digits2_pos m) + e) - e) in *.
  destruct (Z_lt_le_dec k 0) as [Hneg|Hpos].
  - destruct k as [|p|p]; [lia|lia|]. simpl. split; [lia | done].
  - pose proof (shr_below mb eb (Zpos m) e k ltac:(lia) Hpos ltac:(lia) Hb) as Hshr.
    destruct (shr _ e k) as [r e']. by destruct Hshr as (_ & ? & ?).
Qed.

Lemma shr_fexp_zero e :
  shr_m (shr_fexp prec emax 0 e loc_Exact).1 = 0.
Proof.
  unfold shr_fexp, shr. cbn [shr_record_of_loc].
  destruct (_ - e) as [|p|p]; [done| |done]. cbn [fst]. rewrite iter_pos_nat.
  destruct (shr_iter (Pos.to_nat p) 0 ltac:(lia)) as [-> _]. apply Z.div_0_l.
  apply Z.pow_nonzero; lia.
Qed.

(** What [binary_round_aux] makes of a positive number below a
    representable bound: zero, or a finite number below the bound. *)
Definition rounded_below (mb : positive) (eb : Z) (sx : bool) (z : spec_float) : Prop :=
  z = S754_zero sx ∨
  ∃ m' e', z = S754_finite sx m' e' ∧ below mb eb (Zpos m') e'.

Lemma binary_round_aux_below mb eb sx (m : positive) e :
  representable mb eb → below mb eb (Zpos m) e →
  rounded_below mb eb sx (binary_round_aux prec emax sx (Zpos m) e loc_Exact).
Proof.
  intros Hrep Hb. unfold binary_round_aux.
  pose proof (shr_fexp_below mb eb m e Hrep Hb) as H1.
  destruct (shr_fexp prec emax (Zpos m) e loc_Exact) as [r1 e1].
  cbv zeta in H1. destruct H1 as [Hm1 Hb1].
  destruct (round_nearest_even (shr_m r1) (loc_of_shr_record r1)) as [|m1|m1]; [| |lia].
  - pose proof (shr_fexp_zero e1) as H0.
    destruct (shr_fexp prec emax 0 e1 loc_Exact) as [r2 e2]. simpl in H0. rewrite H0.
    by left.
  - pose proof (shr_fexp_below mb eb m1 e1 Hrep Hb1) as H2.
    destruct (shr_fexp prec emax (Zpos m1) e1 loc_Exact) as [r2 e2].
    cbv zeta in H2. destruct H2 as [[Hm2 Hle] Hb2].
    pose proof (below_mono mb eb _ (shr_m r2) e2 Hle Hb2) as Hb2'.
    destruct (shr_m r2) as [|m2|m2]; [by left | | lia].
    assert ((e2 <=? emax - prec) = true) as ->.
    { apply Z.leb_le. destruct Hrep as [_ ?], Hb2 as [? _]. lia. }
    right. by exists m2, e2.
Qed.

Lemma shl_align_spec mx ex ex' :
  let '(mz, ez) := shl_align mx ex ex' in
  ez <= ex ∧ Zpos mz = Zpos mx * 2 ^ (ex - ez).
Proof.
  unfold shl_align. destruct (ex' - ex) as [|d|d] eqn:Hd.
  - rewrite Z.sub_diag. simpl. lia.
  - rewrite Z.sub_diag. simpl. lia.
  - split; [lia|]. rewrite iter_xO. f_equal. f_equal. lia.
Qed.

Lemma binary_round_below mb eb sx (m : positive) e :
  representable mb eb → below mb eb (Zpos m) e →
  rounded_below mb eb sx (binary_round prec emax sx m e).
Proof.
  intros Hrep [He Hb]. unfold binary_round.
  pose proof (shl_align_spec m e (fexp prec emax (Zpos (digits2_pos m) + e))) as Hshl.
  destruct (shl_align _ _ _) as [mz ez]. destruct Hshl as [Hez Hmz].
  apply binary_round_aux_below; [done|]. split; [lia|]. rewrite Hmz.
  replace (eb - ez) with ((eb - e) + (e - ez)) by lia. rewrite Z.pow_add_r by lia.
  assert (0 < 2 ^ (e - ez)) by (apply Z.pow_pos_nonneg; lia). nia.
Qed.

End Rounding.

Section Floor.
#[local] Open Scope Z_scope.

(** ** [Math.floor] *)

(** The greatest integer that is not above [x]; [NaN], the infinities and
    the two zeros are their own floor.  A finite number with a nonnegative
    exponent is an integer.  Otherwise the floor of [±m·2^e] is the quotient,
    rounded down, of [±m] by [2^-e]: it has no more digits than [m], and
    converting it rounds nothing. *)
Definition SFfloor (x : spec_float) : spec_float :=
  match x with
  | S754_finite s m e =>
      if 0 <=? e then x
      else binary_normalize prec emax (Z.shiftr (cond_Zopp s (Zpos m)) (- e)) 0 false
  | _ => x
  end.

Definition floor (x : float) : float := SF2Prim (SFfloor (Prim2SF x)).

Lemma binary_round_aux_canonical s (m : positive) e :
  fexp prec emax (Zpos (digits2_pos m) + e) = e → e <= emax - prec →
  binary_round_aux prec emax s (Zpos m) e loc_Exact = S754_finite s m e.
Proof.
  intros Hc He. unfold binary_round_aux, shr_fexp. cbn [Zdigits2 shr_record_of_loc].
  rewrite Hc, Z.sub_diag. cbn [shr shr_m loc_of_shr_record round_nearest_even Zdigits2].
  rewrite Hc, Z.sub_diag. cbn [shr shr_m shr_record_of_loc].
  by rewrite (proj2 (Z.leb_le _ _) He).
Qed.

Lemma shl_align_low mx ex ex' :
  ex' <= ex → ∃ mz, shl_align mx ex ex' = (mz, ex') ∧ Zpos mz = Zpos mx * 2 ^ (ex - ex').
Proof.
  intros Hle. unfold shl_align. destruct (ex' - ex) as [|d|d] eqn:Hd; [|lia|].
  - assert (ex' = ex) as -> by lia. exists mx. rewrite Z.sub_diag. split; [done | simpl; lia].
  - exists (Pos.iter xO mx d). split; [done|]. rewrite iter_xO. f_equal. f_equal. lia.
Qed.

(** An integer of at most 53 bits converts to itself. *)
Lemma binary_round_integer s (q : positive) :
  Zpos q < 2 ^ 53 →
  ∃ mq eq0, binary_round prec emax s q 0 = S754_finite s mq eq0 ∧
           eq0 <= 0 ∧ Zpos mq = Zpos q * 2 ^ (- eq0) ∧
           SpecFloat.bounded prec emax mq eq0 = true.
Proof.
  intros Hq. pose proof (digits2_pos_bounds q) as [Hlo _].
  assert (Zpos (digits2_pos q) <= 53) as Hd.
  { assert (2 ^ (Zpos (digits2_pos q) - 1) < 2 ^ 53) as Hlt by lia.
    apply Z.pow_lt_mono_r_iff in Hlt; lia. }
  unfold binary_round.
  assert (fexp prec emax (Zpos (digits2_pos q) + 0) = Zpos (digits2_pos q) - 53) as Hf
    by (unfold fexp, SpecFloat.emin, prec, emax; lia).
  rewrite Hf.
  destruct (shl_align_low q 0 (Zpos (digits2_pos q) - 53) ltac:(lia)) as (mz & -> & Hmz).
  assert (Zpos (digits2_pos mz) = 53) as Hdz.
  { pose proof (digits2_pos_bounds mz) as [Hzlo Hzhi]. rewrite Hmz in Hzlo, Hzhi.
    pose proof (digits2_pos_bounds q) as [_ Hhi].
    set (d := Zpos (digits2_pos q)) in *. set (dz := Zpos (digits2_pos mz)) in *.
    assert (0 < 2 ^ (0 - (d - 53))) as Hp by (apply Z.pow_pos_nonneg; lia).
    assert (2 ^ (dz - 1) < 2 ^ 53) as H1.
    { apply Z.le_lt_trans with (Zpos q * 2 ^ (0 - (d - 53))); [done|].
      apply Z.lt_le_trans with (2 ^ d * 2 ^ (0 - (d - 53))); [nia|].
      rewrite <- Z.pow_add_r by lia. apply Z.pow_le_mono_r; lia. }
    assert (2 ^ 52 < 2 ^ dz) as H2.
    { apply Z.le_lt_trans with (Zpos q * 2 ^ (0 - (d - 53))); [|done].
      apply Z.le_trans with (2 ^ (d - 1) * 2 ^ (0 - (d - 53))); [|nia].
      rewrite <- Z.pow_add_r by lia. apply Z.pow_le_mono_r; lia. }
    apply Z.pow_lt_mono_r_iff in H1; [|lia..].
    apply Z.pow_lt_mono_r_iff in H2; lia. }
  assert (fexp prec emax (Zpos (digits2_pos mz) + (Zpos (digits2_pos q) - 53))
          = Zpos (digits2_pos q) - 53) as Hc
    by (rewrite Hdz; unfold fexp, SpecFloat.emin, prec, emax; lia).
  exists mz, (Zpos (digits2_pos q) - 53).
  rewrite binary_round_aux_canonical by (done || (unfold emax, prec; lia)).
  split; [done|]. split; [lia|]. split.
  - by rewrite Hmz, Z.sub_0_l.
  - unfold SpecFloat.bounded, canonical_mantissa. rewrite Hc, Z.eqb_refl. simpl.
    apply Z.leb_le. unfold emax, prec. lia.
Qed.

Lemma representable_one : representable 1 0.
Proof. split; vm_compute; done. Qed.

Lemma valid_finite s m e :
  valid_binary (S754_finite s m e) = true →
  fexp prec emax (Zpos (digits2_pos m) + e) = e ∧ e <= emax - prec ∧ Zpos m < 2 ^ 53.
Proof.
  simpl. unfold SpecFloat.bounded, canonical_mantissa.
  intros [Hc He]%andb_true_iff. apply Z.eqb_eq in Hc. apply Z.leb_le in He.
  split; [done|]. split; [done|].
  pose proof (digits2_pos_bounds m) as [_ Hhi].
  apply Z.lt_le_trans with (2 ^ Zpos (digits2_pos m)); [done|].
  apply Z.pow_le_mono_r; [lia|]. unfold fexp, prec in Hc. lia.
Qed.

Lemma cond_Zopp_mul s a b : cond_Zopp s (a * b) = cond_Zopp s a * b.
Proof. destruct s; simpl; lia. Qed.

(** The difference of two aligned finite numbers. *)
Lemma SFsub_finite s1 m1 e1 s2 m2 e2 :
  let ez := Z.min e1 e2 in
  SFsub prec emax (S754_finite s1 m1 e1) (S754_finite s2 m2 e2) =
    binary_normalize prec emax
      (cond_Zopp s1 (Zpos m1) * 2 ^ (e1 - ez) - cond_Zopp s2 (Zpos m2) * 2 ^ (e2 - ez))
      ez false.
Proof.
  intros ez. unfold SFsub. fold ez.
  destruct (shl_align_low m1 e1 ez ltac:(lia)) as (mz1 & -> & H1).
  destruct (shl_align_low m2 e2 ez ltac:(lia)) as (mz2 & -> & H2).
  cbn [fst]. by rewrite H1, H2, !cond_Zopp_mul.
Qed.

(** The fractional part [x − floor(x)] of a finite number is computed
    without leaving [[0, 1]]; that of [NaN] and of an infinity is [NaN]. *)
Lemma SFfloor_fraction (x : spec_float) :
  valid_binary x = true →
  valid_binary (SFfloor x) = true ∧
  match x with
  | S754_nan | S754_infinity _ => SFsub prec emax x (SFfloor x) = S754_nan
  | _ => rounded_below 1 0 false (SFsub prec emax x (SFfloor x))
  end.
Proof.
  intros Hvalid. destruct x as [s|s| |s m e]; [by split; [|left; destruct s]
                                               |by split; [|destruct s]|done|].
  destruct (valid_finite s m e Hvalid) as (Hc & He & Hm). unfold SFfloor.
  destruct (Z.leb_spec 0 e) as [Hpos|Hneg].
  - split; [done|]. rewrite SFsub_finite. rewrite Z.sub_diag. by left.
  - rewrite Z.shiftr_div_pow2 by lia.
    set (a := cond_Zopp s (Zpos m)). set (k := - e).
    assert (0 < 2 ^ k) as Hk by (apply Z.pow_pos_nonneg; lia).
    assert (2 <= 2 ^ k) as Hk2.
    { change 2 with (2 ^ 1) at 1. apply Z.pow_le_mono_r; lia. }
    pose proof (Z.div_mod a (2 ^ k) ltac:(lia)) as Hdiv.
    pose proof (Z.mod_pos_bound a (2 ^ k) Hk) as Hmod.
    set (n := a / 2 ^ k) in *.
    assert (- 2 ^ 53 < a < 2 ^ 53) as Ha by (unfold a; destruct s; simpl; lia).
    assert (- 2 ^ 53 < n < 2 ^ 53) as Hn by nia.
    assert (∀ sn q mq eq0, n = cond_Zopp sn (Zpos q) → eq0 <= 0 → Zpos mq = Zpos q * 2 ^ (- eq0) →
              rounded_below 1 0 false
                (SFsub prec emax (S754_finite s m e) (S754_finite sn mq eq0))) as Hsub.
    { intros sn q mq eq0 Hnq Heq Hmq. rewrite SFsub_finite. cbv zeta.
      set (ez := Z.min e eq0). fold a. rewrite Hmq, cond_Zopp_mul, <- Hnq.
      replace (n * 2 ^ (- eq0) * 2 ^ (eq0 - ez)) with (n * 2 ^ k * 2 ^ (e - ez)).
      2:{ rewrite <- !Z.mul_assoc, <- !Z.pow_add_r by lia. do 2 f_equal. lia. }
      replace (a * 2 ^ (e - ez) - n * 2 ^ k * 2 ^ (e - ez))
        with ((a mod 2 ^ k) * 2 ^ (e - ez)) by lia.
      assert (0 < 2 ^ (e - ez)) as Hp by (apply Z.pow_pos_nonneg; lia).
      assert ((a mod 2 ^ k) * 2 ^ (e - ez) < 2 ^ (0 - ez)) as Hlt.
      { replace (0 - ez) with (k + (e - ez)) by lia. rewrite Z.pow_add_r by lia. nia. }
      destruct (a mod 2 ^ k * 2 ^ (e - ez)) as [|d|d] eqn:Hd; [by left| |nia].
      apply binary_round_below; [apply representable_one|]. split; lia. }
    destruct n as [|q|q] eqn:Hnq.
    + split; [done|]. cbn [binary_normalize SFsub]. right. exists m, e.
      assert (s = false) as -> by (destruct s; [simpl in *; lia | done]).
      split; [done|]. split; [lia|]. unfold a in *. cbn [cond_Zopp] in *.
      replace (0 - e) with k by lia. lia.
    + destruct (binary_round_integer false q ltac:(lia)) as (mq & eq0 & Hr & Heq & Hmq & Hb).
      cbn [binary_normalize]. rewrite Hr. split; [done|].
      by apply (Hsub false q).
    + destruct (binary_round_integer true q ltac:(lia)) as (mq & eq0 & Hr & Heq & Hmq & Hb).
      cbn [binary_normalize]. rewrite Hr. split; [done|].
      by apply (Hsub true q).
Qed.

End Floor.

(** [Math.floor] at a few numbers: [2.5], [-2.5], [0.5], [-0.5], the
    number nearest to [-1e-20], [2^60], the two zeros, an infinity and
    [NaN]. *)
Lemma floor_values :
  floor 2.5 = 2%float ∧ floor (-2.5) = (-3)%float ∧
  floor 0.5 = 0%float ∧ floor (-0.5) = (-1)%float ∧
  floor (-0x1.79ca10c924223p-67) = (-1)%float ∧
  floor 0x1p+60 = 0x1p+60%float ∧
  floor 0 = 0%float ∧ floor (-0) = (-0)%float ∧
  floor neg_infinity = neg_infinity ∧ floor nan = nan.
Proof. vm_compute. by repeat split. Qed.

(** ** Binary64 numbers *)

(** The functions of [Math] that IEEE 754 leaves to the implementation. *)
Record libm : Type := Libm {
  libm_sin : float → float;
  libm_cos : float → float;
  libm_acos : float → float;
  libm_atan2 : float → float → float
}.

(** The integer [z] as a number; exact up to [2^53]. *)
Definition float_of_Z (z : Z) : float := SF2Prim (binary_normalize prec emax z 0 false).

(** [Math.PI]. *)
Definition Math_PI : float := 0x1.921fb54442d18p+1%float.

(** JavaScript numbers as they are: IEEE 754 binary64, with the operators
    rounding to nearest, ties to even.  A decimal literal [m·10^-d] with
    [m < 2^53] and [d ≤ 22] is the quotient of two numbers that are exact,
    correctly rounded; the literals of the file are of this kind.
    Modelled from the spec: the global [π], which the file reads and does
    not define, is [Math.PI]. *)
Definition binary64 (lm : libm) : JSNumber float := {|
  dec m d := (float_of_Z m / float_of_Z (10 ^ Z.of_nat d))%float;
  NaN := nan;
  n_add := PrimFloat.add;
  n_sub := PrimFloat.sub;
  n_mul := PrimFloat.mul;
  n_div := PrimFloat.div;
  n_neg := PrimFloat.opp;
  n_gt a b := (b <? a)%float;
  n_lt a b := (a <? b)%float;
  n_floor := floor;
  n_sin := libm_sin lm;
  n_cos := libm_cos lm;
  n_acos := libm_acos lm;
  n_atan2 := libm_atan2 lm;
  π := Math_PI
|}.

Section Binary64.
#[local] Open Scope Z_scope.

Lemma SFmul_below mc ec (d : spec_float) :
  representable mc ec → rounded_below 1 0 false d →
  rounded_below mc ec false (SFmul prec emax (S754_finite false mc ec) d).
Proof.
  intros Hrep [->|(m & e & -> & He & Hm)]; [by left|]. cbn [SFmul xorb].
  apply binary_round_aux_below; [done|]. split; [lia|].
  replace (ec - (ec + e)) with (0 - e) by lia. rewrite Pos2Z.inj_mul. nia.
Qed.

Lemma SFleb_below mc ec (z : spec_float) :
  rounded_below mc ec false z →
  SFleb (S754_zero false) z = true ∧ SFleb z (S754_finite false mc ec) = true.
Proof.
  intros [->|(m & e & -> & He & Hm)]; [done|]. split; [done|].
  unfold SFleb, SFcompare. destruct (Z.compare_spec e ec) as [->|Hlt|Hgt]; [|done|lia].
  rewrite Z.sub_diag in Hm. change (Pos.compare_cont Eq m mc) with (m ?= mc)%positive.
  destruct (Pos.compare_spec m mc); [done | done | lia].
Qed.

(** [2.0 * π], as the program computes it. *)
Definition two_PI : float := (float_of_Z 20 / float_of_Z (10 ^ 1) * Math_PI)%float.

(** [2π·(x − floor(x))] in binary64: [NaN] when [x] is [NaN] or infinite,
    and otherwise a number of [[0, 2π]]. *)
Lemma reduction_range (x : float) :
  let M := (two_PI * (x - floor x))%float in
  if is_nan x || is_infinity x then is_nan M = true
  else (0 <=? M)%float = true ∧ (M <=? two_PI)%float = true.
Proof.
  intros M.
  pose proof (SFfloor_fraction (Prim2SF x) (Prim2SF_valid x)) as [Hvalid Hfrac].
  assert (Prim2SF (x - floor x) = SFsub prec emax (Prim2SF x) (SFfloor (Prim2SF x))) as Hsub.
  { rewrite FloatAxioms.sub_spec. unfold floor. by rewrite Prim2SF_SF2Prim. }
  assert (Prim2SF two_PI = S754_finite false 7074237752028440 (-50)) as Hc
    by (vm_compute; reflexivity).
  assert (representable 7074237752028440 (-50)) as Hrep by (split; vm_compute; done).
  assert (Prim2SF M = SFmul prec emax (S754_finite false 7074237752028440 (-50))
                        (SFsub prec emax (Prim2SF x) (SFfloor (Prim2SF x)))) as HM.
  { unfold M. by rewrite FloatAxioms.mul_spec, Hc, Hsub. }
  unfold is_nan at 1, is_infinity. rewrite !FloatAxioms.eqb_spec, FloatAxioms.abs_spec.
  change (Prim2SF infinity) with (S754_infinity false).
  rewrite !FloatAxioms.leb_spec, Hc. change (Prim2SF 0) with (S754_zero false).
  unfold is_nan. rewrite FloatAxioms.eqb_spec, HM.
  destruct (Prim2SF x) as [s|s| |s m e] eqn:Hx.
  - cbn [SFeqb SFcompare SFabs negb orb].
    by apply SFleb_below, SFmul_below.
  - rewrite Hfrac. by destruct s.
  - by rewrite Hfrac.
  - assert (negb (SFeqb (S754_finite s m e) (S754_finite s m e)) = false) as ->.
    { unfold SFeqb, SFcompare. rewrite Z.compare_refl.
      change (Pos.compare_cont Eq m m) with (m ?= m)%positive. rewrite Pos.compare_refl.
      by destruct s. }
    cbn [SFabs SFeqb SFcompare orb].
    by apply SFleb_below, SFmul_below.
Qed.

End Binary64.

(** ** Vectors in the plane *)

Definition vec64 : Type := float * float.

(** Modelled from the spec: the vector-math library of Part II, over
    binary64 numbers. *)
Definition plane64 : VectorLib float vec64 := {|
  lib_length v :=
    match v with
    | Obj (x, y) => Num (PrimFloat.sqrt (x * x + y * y))%float
    | Num _ => Num nan
    end;
  lib_cross v w :=
    match v, w with
    | Obj (x1, y1), Some (Obj (x2, y2)) => Num (x1 * y2 - y1 * x2)%float
    | Obj (x, y), Some (Num s) => Obj ((s * y)%float, (- (s * x))%float)
    | _, _ => Num nan
    end;
  lib_divide v s :=
    match v, s with
    | Obj (x, y), Some (Num s) => Obj ((x / s)%float, (y / s)%float)
    | Obj (x, y), _ => Obj (nan, nan)
    | Num a, Some (Num s) => Num (a / s)%float
    | Num a, _ => Num nan
    end;
  lib_subtract v w :=
    match v, w with
    | Obj (x1, y1), Some (Obj (x2, y2)) => Obj ((x1 - x2)%float, (y1 - y2)%float)
    | Num a, Some (Num b) => Num (a - b)%float
    | Obj _, _ => Obj (nan, nan)
    | Num _, _ => Num nan
    end;
  lib_square v := match v with Num a => Num (a * a)%float | Obj _ => Num nan end;
  lib_cube v := match v with Num a => Num (a * a * a)%float | Obj _ => Num nan end;
  lib_sqrt v := match v with Num a => Num (PrimFloat.sqrt a) | Obj _ => Num nan end;
  lib_abs v := match v with Num a => Num (PrimFloat.abs a) | Obj _ => Num nan end;
  field_x v := match v with Obj (x, _) => Some (Num x) | Num _ => None end;
  field_y v := match v with Obj (_, y) => Some (Num y) | Num _ => None end;
  valueOf _ := nan
|}.

(** * Part IV: the resolver, for every number and vector implementation *)

Section Resolver.
Context {num obj : Type} `{!JSNumber num} `{!VectorLib num obj}.

#[local] Abbreviation value := (value num obj).
#[local] Abbreviation props := (gmap string value).
#[local] Abbreviation machine := (@machine num obj).
#[local] Abbreviation outcome := (@outcome num obj).
#[local] Abbreviation method := (@method num obj).

(** ** The dependency structure of the prototype *)

(** For each [set_x]: the list it passes to [this.require], and the height
    of [x] in the resulting call graph. *)
Definition dependency_table : list (string * (list string * nat)) :=
  [ ("r", ([], 0)); ("v", ([], 0)); ("μ", ([], 0)); ("ek", (["v"], 1));
    ("ep", (["μ"; "r"], 1)); ("ε", (["ek"; "ep"], 2)); ("I", (["r"], 1));
    ("Ω", (["r"], 1)); ("L", (["I"; "Ω"], 2)); ("h", (["L"; "μ"], 3));
    ("a", (["μ"; "ε"], 3)); ("b", (["a"; "ecc"], 5)); ("eccvec", ([], 0));
    ("ecc", (["ε"; "h"; "μ"], 4)); ("p", (["a"; "μ"], 4)); ("Et", (["a"], 4));
    ("ap", (["ecc"; "a"], 5)); ("pe", (["ecc"; "a"], 5)); ("ω", (["eccvec"], 1));
    ("vt", ([], 0)) ].

Definition attributes : list string := dependency_table.*1.

Fixpoint entry (x : string) (t : list (string * (list string * nat))) : option (list string * nat) :=
  match t with
  | [] => None
  | (k, e) :: t' => if decide (k = x) then Some e else entry x t'
  end.

Definition prerequisites (x : string) : list string :=
  match entry x dependency_table with Some e => e.1 | None => [] end.

Definition rank (x : string) : nat :=
  match entry x dependency_table with Some e => e.2 | None => 0 end.

(** A body the constructor could have made: both vectors are present. *)
Definition well_formed (this : props) : Prop :=
  is_Some (this !! "rvec") ∧ is_Some (this !! "vvec").

(** [f] is [this.require(pre); this.x = g(this)]. *)
Definition derives (f : method) (x : string) (pre : list string)
    (g : props → result value) : Prop :=
  ∀ d m, f (require_at d) m = and_then (require_at d pre) (assign x g) m.

(** What the formula of [x] reads: the primary attributes and the
    prerequisites of [x]; for [eccvec], which requires nothing, the three
    attributes it reads all the same. *)
Definition reads (x : string) : list string :=
  ["rvec"; "vvec"; "mass"] ++
  (if decide (x = "eccvec") then ["h"; "μ"; "r"] else prerequisites x).

Definition formula_local (x : string) (g : props → result value) : Prop :=
  ∀ t t' : props, (∀ k, k ∈ reads x → t !! k = t' !! k) → g t = g t'.

(** The formula of [x] raises nothing once the vectors and the
    prerequisites of [x] are present. *)
Definition formula_ok (x : string) (g : props → result value) : Prop :=
  ∀ this, well_formed this →
    (∀ p, p ∈ prerequisites x → is_Some (this !! p)) →
    ∃ v, g this = Ok v.

Lemma require_at_nil d (m : machine) : require_at d [] m = Done m.
Proof. by destruct d. Qed.

Lemma require_at_cons d p rest (m : machine) :
  require_at d (p :: rest) m =
    if typeof_undefined (this m) p then
      match this_set_ (this m) p with
      | Err e => Throw e m
      | Ok f =>
          match d with
          | O => Exhausted
          | S d' => match f (require_at d') m with
                    | Done m' => require_at d rest m'
                    | o => o
                    end
          end
      end
    else require_at d rest m.
Proof. by destruct d. Qed.

Lemma entry_Some x t e : entry x t = Some e → (x, e) ∈ t.
Proof.
  induction t as [|[k e'] t IH]; simpl; [done|].
  case_decide; [intros [= ->]; subst; left | right; auto].
Qed.

Lemma entry_attributes x : is_Some (entry x dependency_table) ↔ x ∈ attributes.
Proof.
  unfold attributes. generalize dependency_table. intros t.
  induction t as [|[k e] t IH]; simpl.
  - split; [by intros [? ?] | by intros ?%elem_of_nil].
  - rewrite elem_of_cons, <- IH. case_decide; subst.
    + split; [by left | by eexists].
    + split; [by right | by intros [?|?]].
Qed.

Lemma dependency_table_closed :
  Forall (λ e, Forall (λ p, p ∈ attributes ∧ rank p < e.2.2) e.2.1) dependency_table.
Proof. by apply (bool_decide_unpack _). Qed.

Lemma prerequisites_rank x p :
  p ∈ prerequisites x → rank p < rank x.
Proof.
  unfold prerequisites, rank at 2.
  destruct (entry x dependency_table) as [e|] eqn:He; [|by intros ?%elem_of_nil].
  apply entry_Some in He. intros Hp.
  pose proof (proj1 (Forall_forall _ _) dependency_table_closed _ He) as Hx.
  by apply (proj1 (Forall_forall _ _) Hx _ Hp).
Qed.

Lemma prerequisites_attributes x p :
  p ∈ prerequisites x → p ∈ attributes.
Proof.
  unfold prerequisites.
  destruct (entry x dependency_table) as [e|] eqn:He; [|by intros ?%elem_of_nil].
  apply entry_Some in He. intros Hp.
  pose proof (proj1 (Forall_forall _ _) dependency_table_closed _ He) as Hx.
  by apply (proj1 (Forall_forall _ _) Hx _ Hp).
Qed.

Lemma rank_bound x : rank x < call_depth.
Proof.
  unfold rank. destruct (entry x dependency_table) as [e|] eqn:He; [|vm_compute; lia].
  apply entry_Some in He. revert He.
  assert (Forall (λ e, e.2.2 < call_depth) dependency_table) as Hall
    by by apply (bool_decide_unpack _).
  intros He. by apply (proj1 (Forall_forall _ _) Hall _ He).
Qed.

(** ** Every [set_x] has the shape of a rule *)

Lemma receiver_Some (v : value) name : receiver (Some v) name = Ok v.
Proof. done. Qed.

#[local] Ltac present this p :=
  let v := fresh "v" in
  let Hv := fresh "Hv" in
  match goal with
  | Hpre : ∀ q, q ∈ prerequisites _ → is_Some (this !! q) |- _ =>
      destruct (Hpre p) as [v Hv]; [by apply (bool_decide_unpack _) | rewrite ?Hv]
  end.

#[local] Ltac formula_ok_tac :=
  let this := fresh "this" in
  let Hr := fresh "Hr" in
  let Hv := fresh "Hv" in
  let rv := fresh "rv" in
  let vv := fresh "vv" in
  intros this [[rv Hr] [vv Hv]] Hpre; rewrite ?Hr, ?Hv;
  repeat match goal with
         | |- context [receiver (this !! ?p) _] => present this p
         end;
  simpl; repeat case_match; eauto.

#[local] Ltac formula_local_tac :=
  let t := fresh "t" in
  let t' := fresh "t" in
  let Hagree := fresh "Hagree" in
  intros t t' Hagree; cbv beta;
  repeat match goal with
         | |- context [t !! ?k] => rewrite (Hagree k) by by apply (bool_decide_unpack _)
         end;
  reflexivity.

#[local] Ltac rule_tac :=
  split; [by apply (bool_decide_unpack _)|];
  eexists; split;
  [ intros d m; unfold and_then; simpl; rewrite ?require_at_nil; reflexivity
  | split; [formula_ok_tac | formula_local_tac] ].

Lemma set_methods_rules x (f : method) :
  member ("set_" +:+ x) set_methods = Some f →
  x ∈ attributes ∧
  ∃ g, derives f x (prerequisites x) g ∧ formula_ok x g ∧ formula_local x g.
Proof.
  unfold set_methods, member.
  repeat (case_decide as Hname;
          [ injection Hname as Hx; change ("" +:+ x) with x in Hx; subst x;
            intros [= <-]; rule_tac
          | clear Hname ]).
  done.
Qed.

(** [g] is the formula of the method [f], and [f] is [set_x]. *)
Definition rule (x : string) (f : method) (g : props → result value) : Prop :=
  x ∈ attributes ∧ formula_ok x g ∧ formula_local x g ∧
  derives f x (prerequisites x) g.

Lemma rule_derives x f g : rule x f g → derives f x (prerequisites x) g.
Proof. by intros (_ & _ & _ & ?). Qed.

(** The body after [this.x = v], the formula having seen [this m]. *)
Definition stored (x : string) (v : value) (m : machine) : machine :=
  Machine (<[x := v]> (this m)) (invoked m ++ [(x, this m)]).

(** The body after the formula of [x] raised. *)
Definition raised (x : string) (m : machine) : machine :=
  Machine (this m) (invoked m ++ [(x, this m)]).

(** [require(l)] on [m] ends in [o] at some sufficient depth. *)
Definition runs (l : list string) (m : machine) (o : outcome) : Prop :=
  ∃ d, (∀ p, p ∈ l → rank p < d) ∧ require_at d l m = o.

Lemma this_set_Ok (t : props) x f :
  this_set_ t x = Ok f → ∃ g, rule x f g.
Proof.
  unfold this_set_. destruct (t !! ("set_" +:+ x)); [done|].
  destruct (member _ _) as [f'|] eqn:Hf; [|done]. intros [= ->].
  destruct (set_methods_rules _ _ Hf) as (Hx & g & Hd & Hok & Hlocal).
  by exists g.
Qed.

Lemma runs_require l m : runs l m (require l m).
Proof. exists call_depth. split; [|done]. intros p _. apply rank_bound. Qed.

(** ** An induction principle for [require]

    Whatever holds of the empty request, is kept by a skipped name, by a
    name without a rule, and by each of the three ways a rule can end,
    holds of every [require] call that is given enough depth; and such a
    call never exhausts its depth. *)
Section Induction.
Variable P : list string → machine → outcome → Prop.
Hypothesis P_nil : ∀ m, P [] m (Done m).
Hypothesis P_skip : ∀ p rest m o,
  typeof_undefined (this m) p = false →
  runs rest m o → P rest m o → P (p :: rest) m o.
Hypothesis P_no_rule : ∀ p rest m e,
  typeof_undefined (this m) p = true → this_set_ (this m) p = Err e →
  P (p :: rest) m (Throw e m).
Hypothesis P_prerequisite_throws : ∀ x f g rest m e m1,
  typeof_undefined (this m) x = true → this_set_ (this m) x = Ok f → rule x f g →
  runs (prerequisites x) m (Throw e m1) → P (prerequisites x) m (Throw e m1) →
  P (x :: rest) m (Throw e m1).
Hypothesis P_formula_throws : ∀ x f g rest m m1 e,
  typeof_undefined (this m) x = true → this_set_ (this m) x = Ok f → rule x f g →
  runs (prerequisites x) m (Done m1) → P (prerequisites x) m (Done m1) →
  g (this m1) = Err e →
  P (x :: rest) m (Throw e (raised x m1)).
Hypothesis P_stored : ∀ x f g rest m m1 v o,
  typeof_undefined (this m) x = true → this_set_ (this m) x = Ok f → rule x f g →
  runs (prerequisites x) m (Done m1) → P (prerequisites x) m (Done m1) →
  g (this m1) = Ok v →
  runs rest (stored x v m1) o → P rest (stored x v m1) o →
  P (x :: rest) m o.

Lemma require_at_ind d : ∀ l m,
  (∀ p, p ∈ l → rank p < d) →
  require_at d l m ≠ Exhausted ∧ P l m (require_at d l m).
Proof.
  induction d as [|d IHd]; intros l.
  - destruct l as [|p rest]; intros m Hd.
    + rewrite require_at_nil. split; [done | apply P_nil].
    + assert (rank p < 0) by (apply Hd; by left). lia.
  - induction l as [|p rest IHl]; intros m Hd.
    + rewrite require_at_nil. split; [done | apply P_nil].
    + assert (∀ q, q ∈ rest → rank q < S d) as Hrest
        by (intros q Hq; apply Hd; by right).
      rewrite require_at_cons.
      destruct (typeof_undefined (this m) p) eqn:Hu.
      2: { destruct (IHl m Hrest) as [Hne HP].
           split; [done | apply P_skip; [done | by exists (S d) | done]]. }
      destruct (this_set_ (this m) p) as [f|e] eqn:Hf.
      2: { split; [done | by apply P_no_rule]. }
      destruct (this_set_Ok _ _ _ Hf) as (g & Hrule).
      rewrite (rule_derives _ _ _ Hrule). unfold and_then.
      assert (∀ q, q ∈ prerequisites p → rank q < d) as Hpd.
      { intros q Hq%prerequisites_rank.
        assert (rank p < S d) by (apply Hd; by left). lia. }
      destruct (IHd (prerequisites p) m Hpd) as [Hne HP].
      assert (runs (prerequisites p) m (require_at d (prerequisites p) m)) as Hruns
        by by exists d.
      destruct (require_at d (prerequisites p) m) as [m1|e m1|] eqn:Hpre; [| |done].
      * unfold assign. destruct (g (this m1)) as [v|e] eqn:Hg.
        -- destruct (IHl (stored p v m1) Hrest) as [Hne' HP'].
           split; [done|].
           eapply P_stored; eauto. by exists (S d).
        -- split; [done | by eapply P_formula_throws].
      * split; [done | by eapply P_prerequisite_throws].
Qed.

Lemma runs_ind l m o : runs l m o → o ≠ Exhausted ∧ P l m o.
Proof. intros (d & Hd & <-). by apply require_at_ind. Qed.

End Induction.

(** ** What a [require] call can change *)

Definition final (o : outcome) : option machine :=
  match o with
  | Done m | Throw _ m => Some m
  | Exhausted => None
  end.

(** [m'] keeps every value of [m]; what it adds are attributes no higher
    than a requested name, and it only adds to the invocation record. *)
Definition extends (l : list string) (m m' : machine) : Prop :=
  this m ⊆ this m' ∧
  (∀ k, this m !! k = None → is_Some (this m' !! k) →
        k ∈ attributes ∧ ∃ p, p ∈ l ∧ rank k ≤ rank p) ∧
  invoked m `prefix_of` invoked m'.

Lemma typeof_undefined_None (t : props) p :
  typeof_undefined t p = true → t !! p = None.
Proof. unfold typeof_undefined. by destruct (t !! p). Qed.

Lemma typeof_undefined_attribute (t : props) p :
  p ∈ attributes → typeof_undefined t p = negb (bool_decide (is_Some (t !! p))).
Proof.
  intros Hp. unfold typeof_undefined. destruct (t !! p) eqn:Ht.
  - rewrite bool_decide_eq_true_2; [done | by eexists].
  - rewrite (bool_decide_eq_false_2 (is_Some None)); [|by intros [? ?]].
    rewrite bool_decide_eq_false_2; [done|]. intros Hin. revert Hp Hin.
    assert (Forall (λ q, q ∉ Kepler_prototype ++ Object_prototype) attributes) as Hall
      by by apply (bool_decide_unpack _).
    intros Hp. by apply (proj1 (Forall_forall _ _) Hall).
Qed.

Lemma typeof_defined_mono (t t' : props) p :
  t ⊆ t' → typeof_undefined t p = false → typeof_undefined t' p = false.
Proof.
  intros Hsub. unfold typeof_undefined.
  destruct (t !! p) as [v|] eqn:Ht.
  - by rewrite (lookup_weaken _ _ _ _ Ht Hsub).
  - intros ->. by destruct (t' !! p).
Qed.

Lemma extends_refl l m : extends l m m.
Proof.
  split; [done|]. split; [|done].
  intros k Hk Hk'. rewrite Hk in Hk'. by destruct Hk'.
Qed.

Lemma extends_weaken l l' m m' :
  (∀ p, p ∈ l → ∃ q, q ∈ l' ∧ rank p ≤ rank q) →
  extends l m m' → extends l' m m'.
Proof.
  intros Hl (Hsub & Hnew & Hpre). split; [done|]. split; [|done].
  intros k Hk Hk'. destruct (Hnew k Hk Hk') as (Ha & p & Hp & Hle).
  split; [done|]. destruct (Hl p Hp) as (q & Hq & Hpq).
  exists q. split; [done | lia].
Qed.

Lemma extends_trans l m1 m2 m3 :
  extends l m1 m2 → extends l m2 m3 → extends l m1 m3.
Proof.
  intros (Hsub & Hnew & Hpre) (Hsub' & Hnew' & Hpre').
  split; [by etrans|]. split; [|by etrans].
  intros k Hk1 Hk3. destruct (this m2 !! k) eqn:Hk2.
  - apply Hnew; [done | by eexists].
  - by apply Hnew'.
Qed.

Lemma extends_absent l m m' x :
  extends l m m' → this m !! x = None →
  (∀ p, p ∈ l → rank p < rank x) → this m' !! x = None.
Proof.
  intros (_ & Hnew & _) Hx Hl.
  destruct (this m' !! x) eqn:Hx'; [|done].
  destruct (Hnew x Hx) as (_ & p & Hp & Hle); [by eexists|].
  specialize (Hl p Hp). lia.
Qed.

Lemma extends_stored l x v m :
  x ∈ attributes → this m !! x = None → x ∈ l → extends l m (stored x v m).
Proof.
  intros Hx Hm Hl. split; [by apply insert_subseteq|]. split.
  - intros k Hk. simpl. rewrite lookup_insert. case_decide; subst.
    + intros _. split; [done|]. by exists k.
    + rewrite Hk. by intros [? ?].
  - by apply prefix_app_r.
Qed.

Lemma extends_raised l x m : extends l m (raised x m).
Proof.
  split; [done|]. split; [|by apply prefix_app_r].
  intros k Hk. simpl. rewrite Hk. by intros [? ?].
Qed.

(** The outcome of a call extends the body, and a call that returns
    leaves every requested name defined. *)
Definition extends_outcome (l : list string) (m : machine) (o : outcome) : Prop :=
  ∀ m', final o = Some m' →
    extends l m m' ∧
    (o = Done m' → ∀ p, p ∈ l → typeof_undefined (this m') p = false).

Lemma extends_rule_step l x (f : method) g m m1 :
  typeof_undefined (this m) x = true → rule x f g →
  extends (prerequisites x) m m1 → x ∈ l →
  extends l m m1 ∧ this m1 !! x = None.
Proof.
  intros Hu%typeof_undefined_None (Hx & _) Hext Hl. split.
  - eapply extends_weaken; [|done].
    intros p Hp%prerequisites_rank. exists x. split; [done | lia].
  - eapply extends_absent; [done..|]. intros p. apply prerequisites_rank.
Qed.

Lemma runs_extends l m o : runs l m o → o ≠ Exhausted ∧ extends_outcome l m o.
Proof.
  apply runs_ind; clear l m o; unfold extends_outcome.
  - intros m m' [= <-]. split; [apply extends_refl|]. by intros _ p ?%elem_of_nil.
  - intros p rest m o Hu _ IH m' Ho. destruct (IH m' Ho) as [Hext Hdone].
    split.
    + eapply extends_weaken; [|done]. intros q Hq. exists q. split; [by right | done].
    + intros -> q [->|Hq]%elem_of_cons; [|by apply Hdone].
      eapply typeof_defined_mono; [apply Hext | done].
  - intros p rest m e _ _ m' [= <-]. split; [apply extends_refl | done].
  - intros x f g rest m e m1 Hu _ Hrule _ IH m' [= <-].
    destruct (IH m1 eq_refl) as [Hext _]. split; [|done].
    eapply extends_rule_step; [done..|by left].
  - intros x f g rest m m1 e Hu _ Hrule _ IH _ m' [= <-].
    destruct (IH m1 eq_refl) as [Hext _]. split; [|done].
    eapply extends_trans; [|apply extends_raised].
    eapply extends_rule_step; [done..|by left].
  - intros x f g rest m m1 v o Hu _ Hrule _ IH1 _ _ IH2 m' Ho.
    destruct (IH1 m1 eq_refl) as [Hext1 _].
    destruct (IH2 m' Ho) as [Hext2 Hdone].
    destruct (extends_rule_step (x :: rest) _ _ _ _ _ Hu Hrule Hext1) as [Hext Hx];
      [by left|].
    split.
    + eapply extends_trans; [done|]. eapply extends_trans.
      * apply extends_stored; [apply Hrule | done | by left].
      * eapply extends_weaken; [|done]. intros q Hq. exists q. split; [by right | done].
    + intros -> q [->|Hq]%elem_of_cons; [|by apply Hdone].
      eapply typeof_defined_mono; [apply Hext2|].
      rewrite typeof_undefined_attribute; [|apply Hrule].
      simpl. rewrite lookup_insert_eq. rewrite bool_decide_eq_true_2; [done | by eexists].
Qed.

(** ** Bodies on which every rule succeeds *)

(** The vectors are present and no own property hides a [set_x]. *)
Definition body_ok (t : props) : Prop :=
  well_formed t ∧ ∀ x, x ∈ attributes → t !! ("set_" +:+ x) = None.

(** The invocation record names each attribute once, and only attributes
    that are stored. *)
Definition consistent (m : machine) : Prop :=
  NoDup (invoked m).*1 ∧ ∀ k, k ∈ (invoked m).*1 → is_Some (this m !! k).

Lemma body_ok_extends l m m' : extends l m m' → body_ok (this m) → body_ok (this m').
Proof.
  intros (Hsub & Hnew & _) [[[rv Hr] [vv Hv]] Hset]. split.
  - split; eexists; eapply lookup_weaken; eauto.
  - intros x Hx. destruct (this m' !! ("set_" +:+ x)) eqn:Hx'; [|done].
    destruct (Hnew ("set_" +:+ x)) as [Hin _]; [by apply Hset | by eexists |].
    exfalso. revert Hin.
    assert (Forall (λ q, "set_" +:+ q ∉ attributes) attributes) as Hall
      by by apply (bool_decide_unpack _).
    by apply (proj1 (Forall_forall _ _) Hall).
Qed.

Lemma this_set_attribute (t : props) x :
  x ∈ attributes → t !! ("set_" +:+ x) = None → ∃ f, this_set_ t x = Ok f.
Proof.
  intros Hx Ht. unfold this_set_. rewrite Ht.
  assert (Forall (λ q, is_Some (member ("set_" +:+ q) set_methods)) attributes) as Hall.
  { unfold attributes, dependency_table. simpl.
    repeat (constructor; [eexists; reflexivity|]). constructor. }
  destruct (proj1 (Forall_forall _ _) Hall x Hx) as [f ->]. by exists f.
Qed.

Lemma defined_attribute (t : props) p :
  p ∈ attributes → typeof_undefined t p = false → is_Some (t !! p).
Proof.
  intros Hp. rewrite typeof_undefined_attribute; [|done].
  intros Hb%negb_false_iff. by apply bool_decide_eq_true in Hb.
Qed.

Lemma consistent_stored x v m :
  consistent m → this m !! x = None → consistent (stored x v m).
Proof.
  intros [Hnd Hdef] Hx. split; simpl; rewrite fmap_app; simpl.
  - apply NoDup_app. split; [done|]. split; [|apply NoDup_singleton].
    intros k Hk ->%list_elem_of_singleton.
    specialize (Hdef _ Hk). rewrite Hx in Hdef. by destruct Hdef.
  - intros k [Hk| ->%list_elem_of_singleton]%elem_of_app.
    + rewrite lookup_insert. case_decide; [by eexists | by apply Hdef].
    + rewrite lookup_insert_eq. by eexists.
Qed.

(** On such a body a call keeps the record consistent, and it returns
    whenever every undefined name it was asked for has a rule. *)
Definition succeeds (l : list string) (m : machine) (o : outcome) : Prop :=
  body_ok (this m) → consistent m →
  ∀ m', final o = Some m' →
    consistent m' ∧
    ((∀ p, p ∈ l → typeof_undefined (this m) p = true → p ∈ attributes) → o = Done m').

Lemma runs_succeeds l m o : runs l m o → succeeds l m o.
Proof.
  intros Hruns. apply (runs_ind succeeds); [..|done]; clear l m o Hruns; unfold succeeds.
  - intros m _ Hc m' [= <-]. done.
  - intros p rest m o Hu _ IH Hok Hc m' Ho.
    destruct (IH Hok Hc m' Ho) as [Hc' Hdone]. split; [done|].
    intros Hl. apply Hdone. intros q Hq. apply Hl. by right.
  - intros p rest m e Hu He Hok Hc m' [= <-]. split; [done|].
    intros Hl. destruct (this_set_attribute (this m) p) as [f Hf].
    + apply Hl; [by left | done].
    + by apply Hok, Hl; [left|].
    + congruence.
  - intros x f g rest m e m1 Hu _ Hrule _ IH Hok Hc m' [= <-].
    destruct (IH Hok Hc m1 eq_refl) as [_ Hdone]. exfalso.
    discriminate Hdone. intros p Hp%prerequisites_attributes _. done.
  - intros x f g rest m m1 e Hu _ Hrule Hruns IH Hg Hok Hc m' [= <-]. exfalso.
    destruct (runs_extends _ _ _ Hruns) as [_ Hext].
    destruct (Hext m1 eq_refl) as [Hext1 Hdef].
    destruct Hrule as (Hx & Hformula & _).
    destruct (Hformula (this m1)) as [v Hv].
    + eapply body_ok_extends; done.
    + intros p Hp. apply defined_attribute; [by eapply prerequisites_attributes|].
      by apply Hdef.
    + congruence.
  - intros x f g rest m m1 v o Hu _ Hrule Hruns IH1 Hg Hruns2 IH2 Hok Hc m' Ho.
    destruct (runs_extends _ _ _ Hruns) as [_ Hext].
    destruct (Hext m1 eq_refl) as [Hext1 _].
    destruct (extends_rule_step [x] _ _ _ _ _ Hu Hrule Hext1) as [Hextx Hx]; [by left|].
    destruct (IH1 Hok Hc m1 eq_refl) as [Hc1 _].
    assert (extends [x] m (stored x v m1)) as Hext2.
    { eapply extends_trans; [done|].
      apply extends_stored; [apply Hrule | done | by left]. }
    destruct (IH2 (body_ok_extends _ _ _ Hext2 Hok) (consistent_stored _ _ _ Hc1 Hx) m' Ho)
      as [Hc' Hdone].
    split; [done|]. intros Hl. apply Hdone. intros q Hq Hu2.
    apply Hl; [by right|].
    destruct (typeof_undefined (this m) q) eqn:Huq; [done|].
    by rewrite (typeof_defined_mono _ _ _ (proj1 Hext2) Huq) in Hu2.
Qed.

End Resolver.

(** ** The anomaly pipeline, for every implementation *)

Section Pipeline.
Context {num obj : Type} `{!JSNumber num} `{!VectorLib num obj}.

#[local] Abbreviation value := (value num obj).
#[local] Abbreviation props := (gmap string value).
#[local] Abbreviation machine := (@machine num obj).
#[local] Abbreviation outcome := (@outcome num obj).

Lemma newton_count (t : props) left (E F : value) i :
  i ≤ (newton t left E F i).2 ≤ i + left.
Proof.
  revert E F i. induction left as [|left IH]; intros E F i; simpl; [lia|].
  destruct (js_gt _ _); simpl; [|lia].
  match goal with |- context [newton t left ?E' ?F' (S i)] =>
    specialize (IH E' F' (S i)) end.
  lia.
Qed.

(** The loop stops for one of two reasons. *)
Lemma newton_stop (t : props) left (E F : value) i :
  let '(_, F', i') := newton t left E F i in
  i' = i + left ∨ js_gt (lib_abs F') (dec 1 3) = false.
Proof.
  revert E F i. induction left as [|left IH]; intros E F i; simpl; [left; lia|].
  destruct (js_gt (lib_abs F) _) eqn:Hgt; [|by right].
  match goal with |- context [newton t left ?E' ?F' (S i)] =>
    specialize (IH E' F' (S i)); destruct (newton t left E' F' (S i)) as [[E1 F1] i1] end.
  destruct IH as [->|?]; [left; lia | by right].
Qed.

Lemma mean_anomaly_frame (tick : option value) (t : props) k :
  k ≠ "M" → mean_anomaly tick t !! k = t !! k.
Proof. intros Hk. unfold mean_anomaly. by rewrite !lookup_insert_ne. Qed.

(** [eccAnom] returns; it assigns [M] and [E] and nothing else. *)
Lemma eccAnom_frame (tick : option value) (m : machine) :
  ∃ m', eccAnom tick m = Done m' ∧ invoked m' = invoked m ∧
        this m' !! "M" = mean_anomaly tick (this m) !! "M" ∧
        ∀ k, k ≠ "M" → k ≠ "E" → this m' !! k = this m !! k.
Proof.
  unfold eccAnom. destruct (solve _) as [[E F] i]. eexists. split; [done|].
  split; [done|]. simpl. split.
  - by rewrite lookup_insert_ne.
  - intros k HM HE. by rewrite lookup_insert_ne, mean_anomaly_frame.
Qed.

Lemma TrueAnom_frame (m : machine) :
  ∃ m', TrueAnom m = Done m' ∧ invoked m' = invoked m ∧
        ∀ k, k ≠ "φ" → this m' !! k = this m !! k.
Proof.
  unfold TrueAnom. eexists. split; [done|]. split; [done|].
  intros k Hk. simpl. by rewrite lookup_insert_ne.
Qed.

End Pipeline.

(** * Part V: the Kepler-equation solver in exact arithmetic *)

Section Solver.
#[local] Open Scope R_scope.

#[local] Abbreviation value := (value exact vec2).
#[local] Abbreviation props := (gmap string value).
#[local] Abbreviation machine := (@machine exact vec2).

(** The residual of Kepler's equation as the spec states it,
    [F(E) = E − ε·sin(E) − M]. *)
Definition kepler_residual (ε M E : R) : R := E - ε * sin E - M.

(** The body's [ε] and [M] are the reals [e] and [M]. *)
Definition holds (this : props) (e M : R) : Prop :=
  this !! "ε" = Some (Num (Fin e)) ∧ this !! "M" = Some (Num (Fin M)).

Lemma tolerance_exact F :
  (lib_abs (Num (Fin F) : value) > dec 1 3)%js = if Rlt_dec 0.001 (Rabs F) then true else false.
Proof. unfold js_gt. simpl. repeat destruct (Rlt_dec _ _); try done; lra. Qed.

Lemma initial_guess_exact this e M :
  holds this e M →
  initial_guess this = Num (Fin (if Rlt_dec e 0.8 then M else PI)).
Proof.
  intros [He HM]. unfold initial_guess, js_lt. rewrite He, HM. simpl.
  repeat destruct (Rlt_dec _ _); try done; lra.
Qed.

Lemma initial_residual_exact this e M E :
  holds this e M →
  initial_residual this (Num (Fin E)) = Num (Fin (E - e * sin M - M)).
Proof. intros [He HM]. unfold initial_residual. by rewrite He, HM. Qed.

Lemma denominator_nonzero e E : 0 <= e < 1 → 1 - e * cos E ≠ 0.
Proof. intros He. pose proof (COS_bound E). nra. Qed.

Lemma newton_step_exact this e M E F :
  holds this e M → 0 <= e < 1 →
  let E' := E - F / (1 - e * cos E) in
  (Num (Fin E) - Num (Fin F) / (dec 10 1 - this !! "ε" * Math_cos (Num (Fin E) : value)))%js
    = (Num (Fin E') : value) ∧
  (Num (Fin E') - this !! "ε" * Math_sin (Num (Fin E') : value) - this !! "M")%js
    = (Num (Fin (kepler_residual e M E')) : value).
Proof.
  intros [He HM] Hrange E'. rewrite He, HM. split; [|done].
  unfold js_sub, js_div, js_mul, Math_cos. simpl.
  replace (10 / (10 * 1)) with 1 by lra.
  destruct (Req_dec_T _ _) as [Hz|_]; [by apply denominator_nonzero in Hz | done].
Qed.

Lemma newton_S (this : props) left (E F : value) i :
  newton this (S left) E F i =
    if (lib_abs F > dec 1 3)%js then
      let E' : value := (E - F / (dec 10 1 - this !! "ε" * Math_cos E))%js in
      let F' : value := (E' - this !! "ε" * Math_sin E' - this !! "M")%js in
      newton this left E' F' (S i)
    else (E, F, i).
Proof. done. Qed.

(** The loop in exact arithmetic: the iterates stay finite; once an
    iteration has run, the residual held is the residual of the iterate
    held; and a loop that stops short of its cap stops within tolerance. *)
Lemma newton_exact this e M :
  holds this e M → 0 <= e < 1 →
  ∀ left E F i,
    ∃ E' F' i',
      newton this left (Num (Fin E)) (Num (Fin F)) i = (Num (Fin E'), Num (Fin F'), i') ∧
      (i <= i' <= i + left)%nat ∧
      (i' = i → E' = E ∧ F' = F) ∧
      ((i < i')%nat → F' = kepler_residual e M E') ∧
      ((i' < i + left)%nat → Rabs F' <= 0.001).
Proof.
  intros Hthis Hrange. induction left as [|left IH]; intros E F i.
  - exists E, F, i. simpl. repeat split; lia || done.
  - rewrite newton_S, tolerance_exact. destruct (Rlt_dec _ _) as [Hgt|Hle].
    + cbv zeta. destruct (newton_step_exact this e M E F Hthis Hrange) as [-> ->].
      destruct (IH (E - F / (1 - e * cos E))
                   (kepler_residual e M (E - F / (1 - e * cos E))) (S i))
        as (E' & F' & i' & -> & Hi & Hsame & Hres & Htol).
      exists E', F', i'. repeat split; try lia.
      * intros _. destruct (decide (i' = S i)) as [Heq|Hne].
        -- by destruct (Hsame Heq) as [-> ->].
        -- apply Hres. lia.
      * intros Hlt. apply Htol. lia.
    + exists E, F, i. repeat split; try lia; try done. intros _. lra.
Qed.

(** The bound of [solve], for an eccentricity below one. *)
Lemma solve_exact this e M :
  holds this e M → 0 <= e < 1 →
  ∃ E' F' i,
    solve this = (Num (Fin E'), Num (Fin F'), i) ∧ (i <= 30)%nat ∧
    (i = 0%nat → E' = (if Rlt_dec e 0.8 then M else PI) ∧ F' = E' - e * sin M - M) ∧
    ((0 < i)%nat → F' = kepler_residual e M E') ∧
    ((i < 30)%nat → Rabs F' <= 0.001).
Proof.
  intros Hthis Hrange. unfold solve.
  rewrite (initial_guess_exact _ _ _ Hthis), (initial_residual_exact _ _ _ _ Hthis).
  destruct (newton_exact this e M Hthis Hrange (maxIter - 0)
              (if Rlt_dec e 0.8 then M else PI)
              ((if Rlt_dec e 0.8 then M else PI) - e * sin M - M) 0%nat)
    as (E' & F' & i & -> & Hi & Hsame & Hres & Htol).
  exists E', F', i. simpl in Hi.
  split; [done|]. split; [lia|]. split; [|split].
  - intros Hi0. by destruct (Hsame Hi0) as [-> ->].
  - intros Hpos. by apply Hres.
  - intros Hlt. apply Htol. simpl. lia.
Qed.

(** [x - ε·sin x] grows at least as fast as [(1 - ε)·x]. *)
Lemma Rabs_sin_le x : Rabs (sin x) <= Rabs x.
Proof.
  pose proof PI2_1 as Hpi.
  destruct (Rle_dec 1 (Rabs x)) as [Hbig|Hsmall].
  - pose proof (SIN_bound x). assert (Rabs (sin x) <= 1) by (apply Rabs_le; lra). lra.
  - apply Rnot_le_lt in Hsmall. apply Rabs_def2 in Hsmall.
    destruct (Rle_dec 0 x) as [Hpos|Hneg].
    + assert (0 <= sin x) by (apply sin_ge_0; lra).
      rewrite (Rabs_pos_eq x), (Rabs_pos_eq (sin x)) by lra.
      destruct (Req_dec x 0) as [->|Hx]; [rewrite sin_0; lra|].
      apply Rlt_le, sin_lt_x. lra.
    + apply Rnot_le_lt in Hneg.
      assert (0 <= sin (- x)) as Hs by (apply sin_ge_0; lra).
      rewrite sin_neg in Hs.
      rewrite (Rabs_left x), (Rabs_left1 (sin x)) by lra.
      pose proof (sin_gt_x x Hneg). lra.
Qed.

Lemma sin_lipschitz a b : Rabs (sin a - sin b) <= Rabs (a - b).
Proof.
  rewrite form4, !Rabs_mult.
  assert (Rabs (cos ((a + b) / 2)) <= 1) as Hc.
  { apply Rabs_le. pose proof (COS_bound ((a + b) / 2)). lra. }
  pose proof (Rabs_sin_le ((a - b) / 2)) as Hs.
  pose proof (Rabs_pos (sin ((a - b) / 2))) as Hs0.
  pose proof (Rabs_pos (cos ((a + b) / 2))) as Hc0.
  replace (Rabs ((a - b) / 2)) with (Rabs (a - b) / 2) in Hs.
  2:{ unfold Rdiv. rewrite Rabs_mult. rewrite (Rabs_pos_eq (/ 2)); lra. }
  rewrite (Rabs_pos_eq 2) by lra. nra.
Qed.

Lemma residual_bounds_error e M E E' :
  0 <= e < 1 → M = E - e * sin E →
  (1 - e) * Rabs (E' - E) <= Rabs (kepler_residual e M E').
Proof.
  intros He ->. unfold kepler_residual.
  replace (E' - e * sin E' - (E - e * sin E)) with ((E' - E) - e * (sin E' - sin E)) by lra.
  pose proof (sin_lipschitz E' E) as Hl.
  pose proof (Rabs_triang_inv (E' - E) (e * (sin E' - sin E))) as Ht.
  rewrite Rabs_mult, (Rabs_pos_eq e) in Ht by lra.
  pose proof (Rabs_pos (sin E' - sin E)). nra.
Qed.

(** The two assignments to [this.M]. *)
Lemma mean_anomaly_exact (this : props) Mt n epoch tick :
  this !! "Mt" = Some (Num (Fin Mt)) → this !! "n" = Some (Num (Fin n)) →
  this !! "epoch" = Some (Num (Fin epoch)) →
  let raw := Mt + n * (tick - epoch) in
  mean_anomaly (Some (Num (Fin tick))) this =
    <["M" := Num (Fin (2 * PI * (raw - IZR (Zfloor raw))))]> (<["M" := Num (Fin raw)]> this).
Proof.
  intros HMt Hn Hepoch raw. unfold mean_anomaly. rewrite HMt, Hn, Hepoch.
  rewrite lookup_insert_eq. exact_eval. subst raw. do 3 f_equal; lra.
Qed.

Lemma degrees_exact E :
  (Num (Fin E) / (π / int 180 : value))%js = (Num (Fin (E / (PI / 180))) : value).
Proof.
  exact_eval. unfold exact_div. pose proof PI_RGT_0.
  replace (180 / 10 ^ 0) with 180 by lra.
  destruct (Req_dec_T 180 0) as [Hz|_]; [lra|].
  destruct (Req_dec_T _ _) as [Hz|_]; [lra | done].
Qed.

End Solver.

(** ** Newton's iteration on Kepler's equation converges from every start
       the solver uses *)

Section Convexity.
#[local] Open Scope R_scope.


















End Convexity.

Section GlobalConvergence.
#[local] Open Scope R_scope.

#[local] Abbreviation value := (value exact vec2).
#[local] Abbreviation props := (gmap string value).
#[local] Abbreviation machine := (@machine exact vec2).






End GlobalConvergence.

(** * Part VI: the claims about the solver *)

Section SolverClaims.
#[local] Open Scope R_scope.

#[local] Abbreviation value := (value exact vec2).
#[local] Abbreviation props := (gmap string value).
#[local] Abbreviation machine := (@machine exact vec2).

(** A body in low orbit, with the inputs of the anomaly pipeline set. *)
Definition orbiting (ε Mt n epoch : R) : machine :=
  let body : machine := Kepler (Obj (Fin 7000, Fin 0)) (Obj (Fin 0, Fin 7.5)) (Num (Fin 1000)) in
  Machine (<["ε" := Num (Fin ε)]> (<["Mt" := Num (Fin Mt)]> (<["n" := Num (Fin n)]>
             (<["epoch" := Num (Fin epoch)]> (this body))))) [].

Definition at_tick (t : R) : option value := Some (Num (Fin t)).

Lemma reduce_fraction x : 0 <= x < 1 → 2 * PI * (x - IZR (Zfloor x)) = 2 * PI * x.
Proof. intros Hx. rewrite (Zfloor_eq 0 x); simpl; lra. Qed.

Lemma orbiting_mean_anomaly ε Mt n epoch tick :
  let raw := Mt + n * (tick - epoch) in
  0 <= raw < 1 →
  holds (mean_anomaly (at_tick tick) (this (orbiting ε Mt n epoch))) ε (2 * PI * raw).
Proof.
  intros raw Hraw. unfold at_tick.
  rewrite (mean_anomaly_exact _ Mt n epoch tick) by done.
  fold raw. rewrite (reduce_fraction raw Hraw). by split.
Qed.

(** C1.  The first residual is taken at [sin(M)], not at [sin(E₀)]: for
    [ε = 0.9] and [M = π/2] the guess is [E₀ = π] and the code's first
    residual is [π − 0.9·sin(π/2) − π/2 = π/2 − 0.9], where the residual of
    the spec at [E₀] is [π − 0.9·sin(π) − π/2 = π/2]. *)
Theorem first_residual_reads_sin_M :
  let t := mean_anomaly (at_tick 0) (this (orbiting 0.9 (1 / 4) 0 0)) in
  holds t 0.9 (2 * PI * (1 / 4 + 0 * (0 - 0))) ∧
  initial_guess t = Num (Fin PI) ∧
  ∃ F0, initial_residual t (initial_guess t) = Num (Fin F0) ∧
        F0 = PI / 2 - 0.9 ∧
        kepler_residual 0.9 (PI / 2) PI = PI / 2 ∧
        F0 ≠ kepler_residual 0.9 (PI / 2) PI.
Proof.
  intros t.
  assert (holds t 0.9 (2 * PI * (1 / 4 + 0 * (0 - 0)))) as Ht
    by (apply orbiting_mean_anomaly; lra).
  split; [done|].
  rewrite (initial_guess_exact _ _ _ Ht).
  destruct (Rlt_dec 0.9 0.8) as [Hlt|_]; [lra|]. split; [done|].
  rewrite (initial_residual_exact _ _ _ _ Ht). eexists. split; [done|].
  replace (2 * PI * (1 / 4 + 0 * (0 - 0))) with (PI / 2) by lra.
  unfold kepler_residual. rewrite sin_PI2, sin_PI. repeat split; lra.
Qed.

(** The solver on a body whose reduced mean anomaly and eccentricity are
    the reals [M] and [e < 1]. *)
Lemma eccAnom_exact (m : machine) (tick : option value) e M :
  holds (mean_anomaly tick (this m)) e M → 0 <= e < 1 →
  ∃ E' F' i m',
    solve (mean_anomaly tick (this m)) = (Num (Fin E'), Num (Fin F'), i) ∧
    eccAnom tick m = Done m' ∧
    this m' !! "M" = Some (Num (Fin M)) ∧
    this m' !! "E" = Some (Num (Fin (E' / (PI / 180)))) ∧
    (i <= 30)%nat ∧
    (i = 0%nat → E' = (if Rlt_dec e 0.8 then M else PI) ∧ F' = E' - e * sin M - M) ∧
    ((0 < i)%nat → F' = kepler_residual e M E') ∧
    ((i < 30)%nat → Rabs F' <= 0.001).
Proof.
  intros Hholds He.
  destruct (solve_exact _ _ _ Hholds He) as (E' & F' & i & Hsolve & Hi & H0 & Hpos & Htol).
  exists E', F', i. unfold eccAnom. rewrite Hsolve. eexists.
  split; [done|]. split; [done|]. simpl.
  split; [rewrite lookup_insert_ne by done; apply Hholds|].
  split; [by rewrite lookup_insert_eq, degrees_exact|]. done.
Qed.



(** A loop whose first test already passes returns its initial guess. *)
Lemma solve_immediate (t : props) e M :
  holds t e M →
  let E0 := if Rlt_dec e 0.8 then M else PI in
  Rabs (E0 - e * sin M - M) <= 0.001 →
  solve t = (Num (Fin E0), Num (Fin (E0 - e * sin M - M)), 0%nat).
Proof.
  intros Ht E0 Hsmall. unfold solve.
  rewrite (initial_guess_exact _ _ _ Ht), (initial_residual_exact _ _ _ _ Ht).
  change (maxIter - 0)%nat with (S 29). rewrite newton_S, tolerance_exact.
  fold E0. destruct (Rlt_dec 0.001 _) as [Hgt|_]; [lra | done].
Qed.



End SolverClaims.

(** * Part VII: the mean anomaly in binary64 *)

Section MeanAnomaly.
Context {obj : Type} `{!VectorLib float obj}.
Variable lm : libm.

#[local] Hint Extern 0 (JSNumber float) => exact (binary64 lm) : typeclass_instances.

#[local] Abbreviation value := (value float obj).
#[local] Abbreviation machine := (@machine float obj).

(** C4, as the code has it.  On every [eccAnom] call, whatever the body
    holds in [Mt], [n] and [epoch] and whatever the tick, [this.M] is first
    set to [Mt + n·(currentTick − epoch)] and then replaced by
    [2π·(M − floor(M))], and this is the value [eccAnom] leaves in [this.M],
    the one its solver reads.  In binary64 it is [NaN] when the first [M]
    is [NaN] or infinite, and otherwise lies in the closed interval
    [[0, 2π]], where [2π] is the number [2.0 * π] of the program. *)
Theorem mean_anomaly_reduced (m : machine) (tick : option value) :
  ∃ (raw M : float) (m' : machine),
    (this m !! "Mt" + this m !! "n" * (tick - this m !! "epoch") : value)%js = Num raw ∧
    M = (two_PI * (raw - floor raw))%float ∧
    mean_anomaly tick (this m) = <["M" := Num M]> (<["M" := Num raw]> (this m)) ∧
    eccAnom tick m = Done m' ∧
    this m' !! "M" = Some (Num M) ∧
    if is_nan raw || is_infinity raw then is_nan M = true
    else (0 <=? M)%float = true ∧ (M <=? two_PI)%float = true.
Proof.
  destruct (eccAnom_frame tick m) as (m' & Hm' & _ & HM & _).
  assert (∃ raw, (this m !! "Mt" + this m !! "n" * (tick - this m !! "epoch") : value)%js
                 = Num raw) as [raw Hraw] by (by eexists).
  assert (mean_anomaly tick (this m) =
            <["M" := Num (two_PI * (raw - floor raw))%float]> (<["M" := Num raw]> (this m)))
    as Hmean.
  { unfold mean_anomaly. cbv zeta. by rewrite lookup_insert_eq, Hraw. }
  exists raw, (two_PI * (raw - floor raw))%float, m'.
  split; [done|]. split; [done|]. split; [done|]. split; [done|]. split.
  - by rewrite HM, Hmean, lookup_insert_eq.
  - apply reduction_range.
Qed.

End MeanAnomaly.

(** A body in low orbit with its epoch data, in binary64. *)
Definition adrift (Mt n epoch : float) : @machine float vec64 :=
  Machine (<["Mt" := Num Mt]> (<["n" := Num n]> (<["epoch" := Num epoch]>
             (this (Kepler (Obj (7000, 0)%float) (Obj (0, 7.5)%float) (Num 1000%float)))))) [].

(** C4, as the spec has it, fails in binary64: the reduced mean anomaly is
    not always below [2π], and not always a number.  With [n = 0] and [Mt]
    the number nearest to [-1e-20], [floor(M)] is [-1], [M − floor(M)] rounds
    to [1] and the reduced [M] is [2π] itself.  With [n] the number nearest
    to [1e308], ten ticks after the epoch, the first [M] overflows to
    infinity and the reduced [M] is [NaN]. *)
Lemma mean_anomaly_not_below_2PI :
  (∀ lm : libm, ∃ m' M,
     @eccAnom float vec64 (binary64 lm) plane64 (Some (Num 0%float))
       (adrift (-0x1.79ca10c924223p-67) 0 0) = Done m' ∧
     this m' !! "M" = Some (Num M) ∧
     M = two_PI ∧ (M <? two_PI)%float = false) ∧
  (∀ lm : libm, ∃ m' M,
     @eccAnom float vec64 (binary64 lm) plane64 (Some (Num 10%float))
       (adrift 0 0x1.1ccf385ebc8ap+1023 0) = Done m' ∧
     this m' !! "M" = Some (Num M) ∧
     is_nan M = true).
Proof.
  split; intros lm.
  - destruct (@eccAnom_frame float vec64 (binary64 lm) plane64 (Some (Num 0%float))
                (adrift (-0x1.79ca10c924223p-67) 0 0)) as (m' & Hm' & _ & HM & _).
    exists m', two_PI. split; [done|]. split; [|by vm_compute].
    rewrite HM. vm_compute. reflexivity.
  - destruct (@eccAnom_frame float vec64 (binary64 lm) plane64 (Some (Num 10%float))
                (adrift 0 0x1.1ccf385ebc8ap+1023 0)) as (m' & Hm' & _ & HM & _).
    exists m', nan. split; [done|]. split; [|by vm_compute].
    rewrite HM. vm_compute. reflexivity.
Qed.

(** * Part VIII: the claims about the resolver *)

Section ResolverClaims.
Context {num obj : Type} `{!JSNumber num} `{!VectorLib num obj}.

#[local] Abbreviation value := (value num obj).
#[local] Abbreviation props := (gmap string value).
#[local] Abbreviation machine := (@machine num obj).
#[local] Abbreviation outcome := (@outcome num obj).

(** C2.  Whatever the body and the tick, [eccAnom] returns after at most 30
    iterations of its loop; the loop stops because the cap is reached or
    because the residual is within the tolerance, and in both cases all the
    call does is store the last iterate [E], as [E / (π/180)], in [this.E]:
    what it returns does not tell the two apart. *)
Theorem eccAnom_iteration_cap (tick : option value) (m : machine) :
  ∃ E F i,
    solve (mean_anomaly tick (this m)) = (E, F, i) ∧
    i ≤ 30 ∧
    (i = 30 ∨ js_gt (lib_abs F) (dec 1 3) = false) ∧
    eccAnom tick m =
      Done (Machine (<["E" := js_div E (js_div π (int 180) : value)]>
                       (mean_anomaly tick (this m)))
                    (invoked m)).
Proof.
  unfold eccAnom, solve.
  pose proof (newton_count (mean_anomaly tick (this m)) (maxIter - 0)
                (initial_guess (mean_anomaly tick (this m)))
                (initial_residual (mean_anomaly tick (this m))
                   (initial_guess (mean_anomaly tick (this m)))) 0) as Hcount.
  pose proof (newton_stop (mean_anomaly tick (this m)) (maxIter - 0)
                (initial_guess (mean_anomaly tick (this m)))
                (initial_residual (mean_anomaly tick (this m))
                   (initial_guess (mean_anomaly tick (this m)))) 0) as Hstop.
  destruct (newton _ _ _ _ _) as [[E F] i]. simpl in Hcount.
  exists E, F, i. split; [done|]. split; [lia|]. split; [|done].
  destruct Hstop as [->|?]; [by left | by right].
Qed.

(** The body after a request, returned or raised. *)
Definition after (l : list string) (m : machine) : machine :=
  match require l m with
  | Done m' | Throw _ m' => m'
  | Exhausted => m
  end.

(** The prerequisites of [eccvec] in the spec's Derivation Rule Table. *)
Definition spec_prerequisites_eccvec : list string := ["h"; "μ"; "rvec"; "r"].

(** C5.  On a freshly constructed body, [require(['eccvec'])] evaluates the
    formula of [eccvec] at once: the properties the formula sees are the
    constructor's, in which [h], [μ] and [r], three of the four prerequisites
    the table lists, are undefined, and they are still undefined when the
    call has returned. *)
Theorem eccvec_formula_runs_without_prerequisites (rvec vvec mass : value) :
  let m := Kepler rvec vvec mass in
  let m' := after ["eccvec"] m in
  require ["eccvec"] m = Done m' ∧
  invoked m' = [("eccvec", this m)] ∧
  this m' !! "eccvec" =
    Some (lib_subtract (lib_divide (lib_cross vvec None) None)
                       (Some (lib_divide rvec None))) ∧
  Forall (λ p, p ∈ spec_prerequisites_eccvec ∧ this m !! p = None ∧ this m' !! p = None)
         ["h"; "μ"; "r"].
Proof.
  intros m m'. split; [vm_compute; reflexivity|]. split; [vm_compute; reflexivity|].
  split; [vm_compute; reflexivity|].
  repeat constructor; solve [by apply (bool_decide_unpack _) | vm_compute; reflexivity].
Qed.

(** C10.  Two bodies built from the same [rvec], [vvec] and [mass] end with
    different formulas behind [eccvec]: asked for [eccvec] first, the body
    stores the formula taken at undefined [h], [μ] and [r]; asked for [h] and
    [r] before, it stores the formula taken at the values it then holds. *)
Theorem eccvec_depends_on_request_order (rvec vvec mass : value) :
  let m := Kepler rvec vvec mass in
  let m1 := after ["eccvec"] m in
  let m2 := after ["eccvec"] (after ["h"; "r"] m) in
  require ["eccvec"] m = Done m1 ∧
  and_then (require ["h"; "r"]) (require ["eccvec"]) m = Done m2 ∧
  this m1 !! "eccvec" =
    Some (lib_subtract (lib_divide (lib_cross vvec None) None)
                       (Some (lib_divide rvec None))) ∧
  is_Some (this m2 !! "h") ∧ is_Some (this m2 !! "μ") ∧ is_Some (this m2 !! "r") ∧
  this m2 !! "eccvec" =
    Some (lib_subtract (lib_divide (lib_cross vvec (this m2 !! "h")) (this m2 !! "μ"))
                       (Some (lib_divide rvec (this m2 !! "r")))).
Proof.
  intros m m1 m2.
  repeat split; vm_compute; solve [reflexivity | by eexists].
Qed.

Lemma require_at_defined d l (m : machine) :
  (∀ p, p ∈ l → typeof_undefined (this m) p = false) → require_at d l m = Done m.
Proof.
  induction l as [|p rest IH]; intros Hl; [apply require_at_nil|].
  rewrite require_at_cons, Hl by (by left). apply IH. intros q Hq. apply Hl. by right.
Qed.

Lemma attributes_have_rules x :
  x ∈ attributes → is_Some (member ("set_" +:+ x) (@set_methods num obj _ _)).
Proof.
  intros Hx.
  destruct (this_set_attribute (∅ : props) x Hx) as [f Hf]; [done|].
  unfold this_set_ in Hf. rewrite lookup_empty in Hf.
  destruct (member _ _); [by eexists | done].
Qed.

Lemma typeof_undefined_preserved (t t' : props) p :
  typeof_undefined t p = true → t' !! p = None → typeof_undefined t' p = true.
Proof. unfold typeof_undefined. destruct (t !! p); [done|]. by intros -> ->. Qed.

(** A name without a rule stays undefined through whatever a call stores. *)
Lemma no_rule_stays_undefined l (m m' : machine) p :
  extends l m m' → typeof_undefined (this m) p = true →
  member ("set_" +:+ p) (@set_methods num obj _ _) = None →
  typeof_undefined (this m') p = true.
Proof.
  intros (_ & Hnew & _) Hu Hrule. eapply typeof_undefined_preserved; [done|].
  destruct (this m' !! p) eqn:Hp; [|done].
  destruct (Hnew p) as [Hin _]; [by apply typeof_undefined_None | by eexists |].
  apply attributes_have_rules in Hin. rewrite Hrule in Hin. by destruct Hin.
Qed.

Lemma this_set_no_rule (t : props) p :
  member ("set_" +:+ p) (@set_methods num obj _ _) = None →
  this_set_ t p = Err (NotAFunction ("set_" +:+ p)).
Proof. intros Hrule. unfold this_set_. rewrite Hrule. by destruct (t !! _). Qed.

Lemma runs_no_rule p l (m : machine) o :
  member ("set_" +:+ p) (@set_methods num obj _ _) = None →
  runs l m o → p ∈ l → typeof_undefined (this m) p = true →
  ∃ e m', o = Throw e m'.
Proof.
  intros Hrule Hruns.
  apply (runs_ind
    (λ l m o, p ∈ l → typeof_undefined (this m) p = true → ∃ e m', o = Throw e m'));
    [..|done]; clear l m o Hruns.
  - by intros m ?%elem_of_nil.
  - intros q rest m o Hq _ IH [->|Hrest]%elem_of_cons Hp; [congruence | by apply IH].
  - intros q rest m e _ _ _ _. by eexists _, _.
  - intros. by eexists _, _.
  - intros. by eexists _, _.
  - intros x f g rest m m1 v o Hx Hf Hrl Hruns1 _ Hg _ IH [->|Hrest]%elem_of_cons Hp.
    { rewrite this_set_no_rule in Hf by done. discriminate. }
    apply IH; [done|].
    destruct (runs_extends _ _ _ Hruns1) as [_ Hext].
    destruct (Hext m1 eq_refl) as [Hext1 _].
    destruct (extends_rule_step [x] _ _ _ _ _ Hx Hrl Hext1) as [Hextx Hx1]; [by left|].
    eapply (no_rule_stays_undefined [x] m); [|done..].
    eapply extends_trans; [done|].
    apply extends_stored; [apply Hrl | done | by left].
Qed.

(** C8, as the code has it.  When [this[p]] is undefined, which is the
    test [require] itself makes (the body has no value under [p], and no
    member of that name is inherited from a prototype), and the prototype has
    no [set_p], a [require] call whose list names [p] does not return: it
    raises, and the error reaches the caller.  Asked for [p] alone it raises
    the [TypeError] of calling the missing [this.set_p], the body
    unchanged. *)
Theorem require_without_rule_throws (m : machine) (l : list string) (p : string) :
  p ∈ l → typeof_undefined (this m) p = true →
  member ("set_" +:+ p) (@set_methods num obj _ _) = None →
  (∃ e m', require l m = Throw e m') ∧
  require [p] m = Throw (NotAFunction ("set_" +:+ p)) m.
Proof.
  intros Hin Hu Hrule. split.
  - by apply (runs_no_rule p l m (require l m) Hrule (runs_require l m)).
  - unfold require. rewrite require_at_cons, Hu. by rewrite this_set_no_rule.
Qed.

(** ** The life of a body *)

(** A body is constructed; its owner may store data on it (a primary
    attribute changes, an attribute is supplied precomputed); it is asked for
    attributes and moved along its orbit.  A call that raises leaves the body
    as it was when it raised. *)
Inductive lifetime : machine → Prop :=
  | born rvec vvec mass : lifetime (Kepler rvec vvec mass)
  | after_assignment k v m :
      lifetime m → k ∉ @Kepler_prototype num obj _ _ →
      lifetime (Machine (<[k := v]> (this m)) (invoked m))
  | after_require l m m' :
      lifetime m → final (require l m) = Some m' → lifetime m'
  | after_eccAnom tick m m' :
      lifetime m → eccAnom tick m = Done m' → lifetime m'
  | after_TrueAnom m m' :
      lifetime m → TrueAnom m = Done m' → lifetime m'
  | after_position m m' :
      lifetime m → position m = Done m' → lifetime m'.

Definition invocations (x : string) (m : machine) : nat :=
  length (filter (λ e, e.1 = x) (invoked m)).

Lemma filter_absent x (l : list (string * props)) :
  x ∉ l.*1 → filter (λ e, e.1 = x) l = [].
Proof.
  induction l as [|[k s] l IH]; [done|]. simpl.
  intros [Hk Hl]%not_elem_of_cons. rewrite filter_cons. simpl.
  case_decide; [congruence | by apply IH].
Qed.

Lemma invocations_NoDup x (m : machine) : NoDup (invoked m).*1 → invocations x m ≤ 1.
Proof.
  unfold invocations. induction (invoked m) as [|[k s] l IH]; simpl; [lia|].
  intros [Hk Hl]%NoDup_cons. rewrite filter_cons. simpl. case_decide; [|by apply IH].
  subst. by rewrite filter_absent.
Qed.

Lemma eccAnom_keeps tick (m m' : machine) :
  eccAnom tick m = Done m' →
  invoked m' = invoked m ∧
  (∀ k, k ≠ "M" → k ≠ "E" → this m' !! k = this m !! k) ∧
  (∀ k, is_Some (this m !! k) → is_Some (this m' !! k)).
Proof.
  destruct (eccAnom_frame tick m) as (m'' & Hm'' & Hinv & _ & Hframe).
  rewrite Hm''. intros [= <-]. split; [done|]. split; [done|]. intros k Hk.
  destruct (decide (k = "E")) as [->|HE]; [|destruct (decide (k = "M")) as [->|HM]].
  - revert Hm''. unfold eccAnom. destruct (solve _) as [[E F] i]. intros [= <-].
    simpl. rewrite lookup_insert_eq. by eexists.
  - revert Hm''. unfold eccAnom. destruct (solve _) as [[E F] i]. intros [= <-].
    simpl. rewrite lookup_insert_ne by done. unfold mean_anomaly.
    rewrite lookup_insert_eq. by eexists.
  - by rewrite Hframe.
Qed.

Lemma TrueAnom_keeps (m m' : machine) :
  TrueAnom m = Done m' →
  invoked m' = invoked m ∧
  (∀ k, k ≠ "φ" → this m' !! k = this m !! k) ∧
  (∀ k, is_Some (this m !! k) → is_Some (this m' !! k)).
Proof.
  unfold TrueAnom. intros [= <-]. simpl. split; [done|]. split.
  - intros k Hk. by rewrite lookup_insert_ne.
  - intros k Hk. rewrite lookup_insert. case_decide; [by eexists | done].
Qed.

(** Storing under names that are no [set_x] keeps a body one on which
    every rule succeeds. *)
Lemma invariant_kept (m m' : machine) (written : list string) :
  Forall (λ k, ∀ x, x ∈ attributes → k ≠ "set_" +:+ x) written →
  invoked m' = invoked m →
  (∀ k, k ∉ written → this m' !! k = this m !! k) →
  (∀ k, is_Some (this m !! k) → is_Some (this m' !! k)) →
  body_ok (this m) ∧ consistent m → body_ok (this m') ∧ consistent m'.
Proof.
  intros Hw Hinv Hframe Hdom [[[Hr Hv] Hset] [Hnd Hdef]].
  split; [split; [split|]|split].
  - by apply Hdom.
  - by apply Hdom.
  - intros x Hx. rewrite Hframe; [by apply Hset|].
    intros Hin. by destruct (proj1 (Forall_forall _ _) Hw _ Hin x Hx).
  - by rewrite Hinv.
  - rewrite Hinv. intros k Hk. by apply Hdom, Hdef.
Qed.

Lemma set_names_in_prototype x :
  x ∈ attributes → "set_" +:+ x ∈ @Kepler_prototype num obj _ _.
Proof.
  assert (Forall (λ q, "set_" +:+ q ∈ @Kepler_prototype num obj _ _) attributes) as Hall
    by by apply (bool_decide_unpack _).
  apply (proj1 (Forall_forall _ _) Hall).
Qed.

Lemma lifetime_invariant (m : machine) : lifetime m → body_ok (this m) ∧ consistent m.
Proof.
  induction 1 as [rvec vvec mass | k v m _ IH Hk | l m m' _ IH Hfinal
                 | tick m m' _ IH Hcall | m m' _ IH Hcall | m m' _ IH Hcall].
  - split; [split; [split|]|split]; simpl.
    + by eexists.
    + by eexists.
    + intros x _. by rewrite !lookup_insert_ne.
    + apply NoDup_nil_2.
    + by intros k ?%elem_of_nil.
  - apply (invariant_kept m _ [k]); [|done| |  |done].
    + constructor; [|constructor]. intros x Hx ->. by apply Hk, set_names_in_prototype.
    + intros k' Hk'. simpl. rewrite lookup_insert_ne; [done|].
      intros ->. apply Hk'. by left.
    + intros k' Hk'. simpl. rewrite lookup_insert. case_decide; [by eexists | done].
  - destruct IH as [Hok Hc].
    destruct (runs_extends _ _ _ (runs_require l m)) as [_ Hext].
    destruct (Hext m' Hfinal) as [Hext' _].
    split; [by eapply body_ok_extends|].
    by apply (runs_succeeds _ _ _ (runs_require l m) Hok Hc m' Hfinal).
  - destruct (eccAnom_keeps _ _ _ Hcall) as (Hinv & Hframe & Hdom).
    apply (invariant_kept m m' ["M"; "E"]); [|done| |done..].
    + repeat constructor; intros x _; simpl; discriminate.
    + intros k Hk. apply Hframe; intros ->; apply Hk; by apply (bool_decide_unpack _).
  - destruct (TrueAnom_keeps _ _ Hcall) as (Hinv & Hframe & Hdom).
    apply (invariant_kept m m' ["φ"]); [|done| |done..].
    + repeat constructor; intros x _; simpl; discriminate.
    + intros k Hk. apply Hframe; intros ->; apply Hk; by apply (bool_decide_unpack _).
  - by injection Hcall as <-.
Qed.

(** C6.  On a body at any point of its life, a request for a derivable
    attribute [x] returns with [x] stored, and the same request made again
    returns the very same body: the same value, and no formula invoked.  No
    sequence of requests ever invokes the formula of [x] twice. *)
Theorem require_idempotent (m : machine) (x : string) :
  lifetime m → x ∈ attributes →
  invocations x m ≤ 1 ∧
  ∃ m1, require [x] m = Done m1 ∧ is_Some (this m1 !! x) ∧
        require [x] m1 = Done m1 ∧ lifetime m1.
Proof.
  intros Hlife Hx. destruct (lifetime_invariant m Hlife) as [Hok Hc].
  split; [apply invocations_NoDup, Hc|].
  pose proof (runs_require [x] m) as Hruns.
  destruct (runs_extends _ _ _ Hruns) as [Hne Hext].
  destruct (require [x] m) as [m1|e m1|] eqn:Hcall; [| |done].
  - exists m1. split; [done|].
    destruct (Hext m1 eq_refl) as [_ Hdef].
    assert (typeof_undefined (this m1) x = false) as Hx1 by (apply Hdef; [done | by left]).
    split; [by apply defined_attribute|]. split.
    + apply require_at_defined. by intros p ->%list_elem_of_singleton.
    + eapply after_require; [done|]. by rewrite Hcall.
  - destruct (runs_succeeds _ _ _ Hruns Hok Hc m1 eq_refl) as [_ Hdone].
    discriminate Hdone. by intros p ->%list_elem_of_singleton _.
Qed.

(** ** The depth granted to [require] is immaterial *)

Lemma runs_deterministic l (m : machine) o :
  runs l m o → ∀ d, (∀ p, p ∈ l → rank p < d) → require_at d l m = o.
Proof.
  intros Hruns.
  apply (runs_ind (λ l m o, ∀ d, (∀ p, p ∈ l → rank p < d) → require_at d l m = o));
    [..|done]; clear l m o Hruns.
  - intros m d _. apply require_at_nil.
  - intros p rest m o Hp _ IH d Hd. rewrite require_at_cons, Hp.
    apply IH. intros q Hq. apply Hd. by right.
  - intros p rest m e Hp He d _. by rewrite require_at_cons, Hp, He.
  - intros x f g rest m e m1 Hx Hf Hrl _ IH d Hd.
    rewrite require_at_cons, Hx, Hf.
    destruct d as [|d]; [assert (rank x < 0) by (apply Hd; by left); lia|].
    rewrite (rule_derives _ _ _ Hrl). unfold and_then. rewrite IH; [done|].
    intros q Hq%prerequisites_rank.
    assert (rank x < S d) by (apply Hd; by left). lia.
  - intros x f g rest m m1 e Hx Hf Hrl _ IH Hg d Hd.
    rewrite require_at_cons, Hx, Hf.
    destruct d as [|d]; [assert (rank x < 0) by (apply Hd; by left); lia|].
    rewrite (rule_derives _ _ _ Hrl). unfold and_then. rewrite IH.
    + unfold assign. by rewrite Hg.
    + intros q Hq%prerequisites_rank.
      assert (rank x < S d) by (apply Hd; by left). lia.
  - intros x f g rest m m1 v o Hx Hf Hrl _ IH1 Hg _ IH2 d Hd.
    rewrite require_at_cons, Hx, Hf.
    destruct d as [|d]; [assert (rank x < 0) by (apply Hd; by left); lia|].
    rewrite (rule_derives _ _ _ Hrl). unfold and_then. rewrite IH1.
    + unfold assign. rewrite Hg. apply IH2. intros q Hq. apply Hd. by right.
    + intros q Hq%prerequisites_rank.
      assert (rank x < S d) by (apply Hd; by left). lia.
Qed.

Lemma rank_at_most_5 x : rank x ≤ 5.
Proof.
  unfold rank. destruct (entry x dependency_table) as [e|] eqn:He; [|lia].
  apply entry_Some in He.
  assert (Forall (λ e, e.2.2 ≤ 5) dependency_table) as Hall
    by by apply (bool_decide_unpack _).
  by apply (proj1 (Forall_forall _ _) Hall _ He).
Qed.

(** [require] never runs out of the call depth the model grants it, and
    any depth of six or more gives the same outcome: nested [require] calls
    are at most six deep, whatever the body and the request. *)
Theorem require_depth_irrelevant (d : nat) (l : list string) (m : machine) :
  require l m ≠ Exhausted ∧ require_at (6 + d) l m = require l m.
Proof.
  split; [apply (runs_extends _ _ _ (runs_require l m))|].
  apply (runs_deterministic _ _ _ (runs_require l m)).
  intros p _. pose proof (rank_at_most_5 p). lia.
Qed.

(** ** The resolver's guarantee, where it holds *)

(** The prerequisites column of the spec's Derivation Rule Table. *)
Definition spec_rule_table : list (string * list string) :=
  [ ("r", []); ("v", []); ("μ", []); ("ek", ["v"]); ("ep", ["μ"; "r"]);
    ("ε", ["ek"; "ep"]); ("I", ["r"]); ("Ω", ["r"]); ("L", ["I"; "Ω"]);
    ("h", ["L"; "μ"]); ("a", ["μ"; "ε"]); ("b", ["a"; "ecc"]);
    ("eccvec", spec_prerequisites_eccvec); ("ecc", ["ε"; "h"; "μ"]);
    ("p", ["a"; "μ"]); ("Et", ["a"]); ("ap", ["ecc"; "a"]); ("pe", ["ecc"; "a"]);
    ("ω", ["eccvec"]); ("vt", []) ].

Definition spec_prerequisites (x : string) : list string :=
  match list_find (λ e, e.1 = x) spec_rule_table with
  | Some (_, e) => e.2
  | None => []
  end.

Lemma spec_prerequisites_code x :
  x ∈ attributes → x ≠ "eccvec" → spec_prerequisites x = prerequisites x.
Proof.
  assert (Forall (λ q, q ≠ "eccvec" → spec_prerequisites q = prerequisites q) attributes)
    as Hall by by apply (bool_decide_unpack _).
  apply (proj1 (Forall_forall _ _) Hall).
Qed.

(** What a call adds to the invocation record: attributes, each with its
    prerequisites defined in the properties its formula saw. *)
Definition guarded (l : list string) (m : machine) (o : outcome) : Prop :=
  ∀ m', final o = Some m' →
    ∃ new, invoked m' = invoked m ++ new ∧
           ∀ x seen, (x, seen) ∈ new →
             x ∈ attributes ∧ ∀ p, p ∈ prerequisites x → is_Some (seen !! p).

Lemma runs_guarded l (m : machine) o : runs l m o → guarded l m o.
Proof.
  intros Hruns. apply (runs_ind guarded); [..|done]; clear l m o Hruns; unfold guarded.
  - intros m m' [= <-]. exists []. split; [by rewrite app_nil_r|]. by intros ?? ?%elem_of_nil.
  - intros p rest m o _ _ IH. done.
  - intros p rest m e _ _ m' [= <-]. exists []. split; [by rewrite app_nil_r|].
    by intros ?? ?%elem_of_nil.
  - intros x f g rest m e m1 _ _ _ _ IH m' [= <-]. by apply IH.
  - intros x f g rest m m1 e _ _ Hrl Hruns1 IH _ m' [= <-].
    destruct (IH m1 eq_refl) as (new & Hnew & Hall).
    destruct (runs_extends _ _ _ Hruns1) as [_ Hext].
    destruct (Hext m1 eq_refl) as [_ Hdef].
    exists (new ++ [(x, this m1)]). simpl. split; [by rewrite Hnew, app_assoc|].
    intros y seen [Hy|[= -> ->]%list_elem_of_singleton]%elem_of_app; [by apply Hall|].
    split; [apply Hrl|]. intros p Hp.
    apply defined_attribute; [by eapply prerequisites_attributes | by apply Hdef].
  - intros x f g rest m m1 v o _ _ Hrl Hruns1 IH1 _ _ IH2 m' Ho.
    destruct (IH1 m1 eq_refl) as (new1 & Hnew1 & Hall1).
    destruct (IH2 m' Ho) as (new2 & Hnew2 & Hall2).
    destruct (runs_extends _ _ _ Hruns1) as [_ Hext].
    destruct (Hext m1 eq_refl) as [_ Hdef].
    exists (new1 ++ [(x, this m1)] ++ new2). split.
    { rewrite Hnew2. simpl. rewrite Hnew1. by rewrite <- !app_assoc. }
    intros y seen [Hy|[[= -> ->]%list_elem_of_singleton|Hy]%elem_of_app]%elem_of_app;
      [by apply Hall1| |by apply Hall2].
    split; [apply Hrl|]. intros p Hp.
    apply defined_attribute; [by eapply prerequisites_attributes | by apply Hdef].
Qed.

(** Whenever a [require] call, on any body, evaluates the formula of an
    attribute other than [eccvec], every prerequisite the Derivation Rule
    Table lists for that attribute is defined in the properties the formula
    sees. *)
Theorem prerequisites_present (l : list string) (m : machine) :
  ∃ m' new,
    final (require l m) = Some m' ∧ invoked m' = invoked m ++ new ∧
    ∀ x seen p, (x, seen) ∈ new → x ≠ "eccvec" → p ∈ spec_prerequisites x →
                is_Some (seen !! p).
Proof.
  destruct (runs_extends _ _ _ (runs_require l m)) as [Hne _].
  pose proof (runs_guarded _ _ _ (runs_require l m)) as Hg. unfold guarded in Hg.
  destruct (require l m) as [m'|e m'|]; [| |done];
    destruct (Hg m' eq_refl) as (new & Hnew & Hall); exists m', new;
    (split; [done|]); (split; [done|]);
    intros x seen p Hin Hx Hp; destruct (Hall x seen Hin) as [Hattr Hpre];
    apply Hpre; by rewrite <- spec_prerequisites_code.
Qed.

(** ** The order of requests *)

(** The attributes whose formula reads nothing that [set_eccvec] wrote:
    all but [eccvec] itself and [ω]. *)
Definition order_independent : list string :=
  filter (λ x, x ≠ "eccvec" ∧ x ≠ "ω") attributes.

Definition primary : list string := ["rvec"; "vvec"; "mass"].

Lemma order_independent_reads x k :
  x ∈ order_independent → k ∈ reads x →
  k ∈ primary ∨ (k ∈ prerequisites x ∧ k ∈ order_independent).
Proof.
  intros Hx Hk.
  assert (Forall (λ x, Forall (λ k, k ∈ primary ∨
                                     (k ∈ prerequisites x ∧ k ∈ order_independent))
                               (reads x)) order_independent) as Hall
    by by apply (bool_decide_unpack _).
  pose proof (proj1 (Forall_forall _ _) Hall x Hx) as Hreads.
  apply (proj1 (Forall_forall _ _) Hreads k Hk).
Qed.

Lemma order_independent_prerequisite x p :
  x ∈ order_independent → p ∈ prerequisites x → p ∈ order_independent.
Proof.
  intros Hx Hp.
  assert (Forall (λ x, Forall (λ p, p ∈ order_independent) (prerequisites x))
                 order_independent) as Hall
    by by apply (bool_decide_unpack _).
  pose proof (proj1 (Forall_forall _ _) Hall x Hx) as Hpre.
  apply (proj1 (Forall_forall _ _) Hpre p Hp).
Qed.

Lemma order_independent_attribute x :
  x ∈ order_independent → x ∈ attributes ∧ x ∉ primary.
Proof.
  assert (Forall (λ q, q ∈ attributes ∧ q ∉ primary) order_independent)
    as Hall by by apply (bool_decide_unpack _).
  apply (proj1 (Forall_forall _ _) Hall).
Qed.

Lemma this_set_member (t : props) x f :
  this_set_ t x = Ok f → member ("set_" +:+ x) set_methods = Some f.
Proof.
  unfold this_set_. destruct (t !! _); [done|].
  destruct (member _ _); [by intros [= ->] | done].
Qed.

(** Two formulas of one method agree wherever its prerequisites are
    defined. *)
Lemma rule_unique x f g g' (t : props) :
  rule x f g → rule x f g' →
  (∀ p, p ∈ prerequisites x → typeof_undefined t p = false) →
  g t = g' t.
Proof.
  intros Hg Hg' Hdef.
  pose proof (rule_derives _ _ _ Hg 0 (Machine t [])) as H1.
  rewrite (rule_derives _ _ _ Hg' 0 (Machine t [])) in H1.
  unfold and_then in H1. rewrite require_at_defined in H1 by done.
  unfold assign in H1. simpl in H1.
  destruct (g t) as [v|e], (g' t) as [v'|e']; try done.
  - injection H1 as H1. f_equal.
    assert (<[x:=v']> t !! x = <[x:=v]> t !! x) as Hx by by rewrite H1.
    rewrite !lookup_insert_eq in Hx. congruence.
  - by injection H1 as <-.
Qed.

(** Each such attribute the body holds comes with its prerequisites and is
    the value of its formula on the body as it is now. *)
Definition settled (t : props) : Prop :=
  ∀ x v, x ∈ order_independent → t !! x = Some v →
    (∀ p, p ∈ prerequisites x → is_Some (t !! p)) ∧
    ∃ f g, member ("set_" +:+ x) set_methods = Some f ∧ rule x f g ∧ g t = Ok v.

(** Storing under names no such attribute reads keeps a body settled. *)
Lemma settled_elsewhere (t t' : props) :
  (∀ k, k ∈ primary ++ order_independent → t' !! k = t !! k) →
  settled t → settled t'.
Proof.
  intros Hframe Hattr x v Hx. rewrite Hframe by (apply elem_of_app; by right).
  intros Hv. destruct (Hattr x v Hx Hv) as (Hpre & f & g & Hf & Hrl & Hg).
  split.
  - intros q Hq. rewrite Hframe; [by apply Hpre|].
    apply elem_of_app. right. by eapply order_independent_prerequisite.
  - exists f, g. split; [done|]. split; [done|].
    rewrite <- Hg. apply Hrl. intros k Hk. apply Hframe, elem_of_app.
    destruct (order_independent_reads x k Hx Hk) as [?|[_ ?]]; [by left | by right].
Qed.

(** Storing the value of a formula keeps a body settled. *)
Lemma settled_stored x f g v (m : machine) :
  this_set_ (this m) x = Ok f → rule x f g → g (this m) = Ok v →
  this m !! x = None →
  (∀ p, p ∈ prerequisites x → typeof_undefined (this m) p = false) →
  settled (this m) → settled (this (stored x v m)).
Proof.
  intros Hf Hrl Hg Hnone Hdef Hattr y w Hy. simpl.
  destruct (decide (y = x)) as [->|Hne].
  - rewrite lookup_insert_eq. intros [= <-]. split.
    + intros p Hp. rewrite lookup_insert_ne.
      * apply defined_attribute; [by eapply prerequisites_attributes | by apply Hdef].
      * intros <-. apply prerequisites_rank in Hp. lia.
    + exists f, g. split; [by eapply this_set_member|]. split; [done|].
      rewrite <- Hg. apply Hrl. intros k Hk. apply lookup_insert_ne. intros <-.
      destruct (order_independent_reads x x Hy Hk) as [Hp|[Hp _]].
      * by apply order_independent_attribute in Hy as [_ ?].
      * apply prerequisites_rank in Hp. lia.
  - rewrite lookup_insert_ne by done. intros Hw.
    destruct (Hattr y w Hy Hw) as (Hpre & f' & g' & Hf' & Hrl' & Hg').
    assert (∀ p, p ∈ prerequisites y → p ≠ x) as Hfresh.
    { intros p Hp ->. destruct (Hpre x Hp) as [? Hx]. congruence. }
    split.
    + intros p Hp. rewrite lookup_insert_ne; [by apply Hpre|].
      intros <-. by apply (Hfresh x).
    + exists f', g'. split; [done|]. split; [done|].
      rewrite <- Hg'. apply Hrl'. intros k Hk. apply lookup_insert_ne. intros <-.
      destruct (order_independent_reads y x Hy Hk) as [Hp|[Hp _]].
      * destruct Hrl as (Hx & _). revert Hx Hp.
        assert (Forall (λ q, q ∉ primary) attributes) as Hall
          by by apply (bool_decide_unpack _).
        apply (proj1 (Forall_forall _ _) Hall).
      * by apply (Hfresh x).
Qed.

Lemma runs_settled l (m : machine) o :
  runs l m o → settled (this m) → ∀ m', final o = Some m' → settled (this m').
Proof.
  intros Hruns.
  refine (proj2 (runs_ind
    (λ l m o, settled (this m) → ∀ m', final o = Some m' → settled (this m'))
    _ _ _ _ _ _ l m o Hruns)); clear l m o Hruns.
  - by intros m Ha m' [= <-].
  - intros p rest m o _ _ IH. done.
  - by intros p rest m e _ _ Ha m' [= <-].
  - intros x f g rest m e m1 _ _ _ _ IH Ha m' [= <-]. by apply IH.
  - intros x f g rest m m1 e _ _ _ _ IH _ Ha m' [= <-]. by apply (IH Ha m1).
  - intros x f g rest m m1 v o Hu Hf Hrl Hruns1 IH1 Hg _ IH2 Ha m' Ho.
    apply IH2; [|done].
    destruct (runs_extends _ _ _ Hruns1) as [_ Hext].
    destruct (Hext m1 eq_refl) as [Hext1 Hdef].
    destruct (extends_rule_step [x] _ _ _ _ _ Hu Hrl Hext1) as [_ Hx]; [by left|].
    apply (settled_stored x f g v m1);
      [|done|done|done|by intros p Hp; apply Hdef|by apply IH1].
    revert Hf. unfold this_set_.
    destruct (this m !! ("set_" +:+ x)) eqn:Hown; [done|].
    destruct (this m1 !! ("set_" +:+ x)) eqn:Hown1; [|done].
    destruct Hext1 as (_ & Hnew & _).
    destruct (Hnew ("set_" +:+ x) Hown) as [Hin _]; [by eexists|].
    exfalso. revert Hin.
    assert (Forall (λ q, "set_" +:+ q ∉ attributes) attributes) as Hall
      by by apply (bool_decide_unpack _).
    apply (proj1 (Forall_forall _ _) Hall), Hrl.
Qed.

(** Two settled bodies with the same primary attributes hold the same
    value for every such attribute they both hold. *)
Lemma settled_agree (t1 t2 : props) :
  settled t1 → settled t2 → (∀ k, k ∈ primary → t1 !! k = t2 !! k) →
  ∀ n x v1 v2, rank x < n → x ∈ order_independent →
    t1 !! x = Some v1 → t2 !! x = Some v2 → v1 = v2.
Proof.
  intros H1 H2 Hprimary. induction n as [|n IH]; intros x v1 v2 Hn Hx Hv1 Hv2; [lia|].
  destruct (H1 x v1 Hx Hv1) as (Hpre1 & f1 & g1 & Hf1 & Hrl1 & Hg1).
  destruct (H2 x v2 Hx Hv2) as (Hpre2 & f2 & g2 & Hf2 & Hrl2 & Hg2).
  assert (f2 = f1) as -> by congruence.
  assert (g1 t1 = g1 t2) as Hsame.
  { apply Hrl1. intros k Hk.
    destruct (order_independent_reads x k Hx Hk) as [Hp|[Hp Hk']]; [by apply Hprimary|].
    destruct (Hpre1 k Hp) as [w1 Hw1], (Hpre2 k Hp) as [w2 Hw2].
    rewrite Hw1, Hw2. f_equal. apply (IH k); [|done..].
    apply prerequisites_rank in Hp. lia. }
  assert (g1 t2 = g2 t2) as Hunique.
  { apply (rule_unique x f1); [done..|]. intros p Hp.
    unfold typeof_undefined. by destruct (Hpre2 p Hp) as [? ->]. }
  congruence.
Qed.

Section Order.
Variables rvec vvec mass : value.

(** A body that is constructed, asked for attributes and moved along its
    orbit, and on which nothing else is stored. *)
Inductive requested : machine → Prop :=
  | constructed : requested (Kepler rvec vvec mass)
  | asked l m m' : requested m → final (require l m) = Some m' → requested m'
  | moved tick m m' : requested m → eccAnom tick m = Done m' → requested m'
  | turned m m' : requested m → TrueAnom m = Done m' → requested m'.

Lemma requested_settled (m : machine) :
  requested m →
  settled (this m) ∧
  this m !! "rvec" = Some rvec ∧ this m !! "vvec" = Some vvec ∧
  this m !! "mass" = Some mass.
Proof.
  induction 1 as [| l m m' _ IH Hfinal | tick m m' _ IH Hcall | m m' _ IH Hcall].
  - split; [|done]. intros x v Hx.
    assert (Forall (λ q, this (Kepler rvec vvec mass) !! q = None) order_independent)
      as Hall by by apply (bool_decide_unpack _).
    by rewrite (proj1 (Forall_forall _ _) Hall x Hx).
  - destruct IH as (Hs & Hr & Hv & Hm).
    split; [by apply (runs_settled _ _ _ (runs_require l m) Hs)|].
    destruct (runs_extends _ _ _ (runs_require l m)) as [_ Hext].
    destruct (Hext m' Hfinal) as [(Hsub & _) _].
    repeat split; by eapply lookup_weaken.
  - destruct IH as (Hs & Hr & Hv & Hm).
    destruct (eccAnom_keeps _ _ _ Hcall) as (_ & Hframe & _).
    assert (Forall (λ k, k ∉ primary ++ order_independent) ["M"; "E"]) as Hout
      by by apply (bool_decide_unpack _).
    split.
    + apply (settled_elsewhere (this m)); [|done]. intros k Hk.
      apply Hframe; intros ->; apply (proj1 (Forall_forall _ _) Hout _) in Hk; try done;
        by apply (bool_decide_unpack _).
    + by rewrite !Hframe.
  - destruct IH as (Hs & Hr & Hv & Hm).
    destruct (TrueAnom_keeps _ _ Hcall) as (_ & Hframe & _).
    assert ("φ" ∉ primary ++ order_independent) as Hout
      by by apply (bool_decide_unpack _).
    split.
    + apply (settled_elsewhere (this m)); [|done]. intros k Hk.
      apply Hframe. by intros ->.
    + by rewrite !Hframe.
Qed.

End Order.

(** Two bodies constructed from the same [rvec], [vvec] and [mass], each
    asked for attributes in any order and moved along its orbit any number
    of times, hold the same value for every attribute they both hold, the
    two attributes [eccvec] and [ω] apart. *)
Theorem attributes_independent_of_request_order
    (rvec vvec mass : value) (m1 m2 : machine) (x : string) (v1 v2 : value) :
  requested rvec vvec mass m1 → requested rvec vvec mass m2 →
  x ∈ order_independent →
  this m1 !! x = Some v1 → this m2 !! x = Some v2 → v1 = v2.
Proof.
  intros (Hs1 & Hr1 & Hv1 & Hm1)%requested_settled
         (Hs2 & Hr2 & Hv2 & Hm2)%requested_settled Hx Hx1 Hx2.
  apply (settled_agree (this m1) (this m2) Hs1 Hs2) with (n := S (rank x)) (x := x);
    [|lia|done..].
  intros k Hk. repeat (apply elem_of_cons in Hk as [->|Hk]; [congruence|]).
  by apply elem_of_nil in Hk.
Qed.

End ResolverClaims.

(** ** Witnesses and examples in exact arithmetic *)

Section ResolverExamples.
#[local] Open Scope R_scope.

#[local] Abbreviation value := (value exact vec2).
#[local] Abbreviation props := (gmap string value).
#[local] Abbreviation machine := (@machine exact vec2).

(** The spec's concrete scenario: [rvec = (7000, 0)], [vvec = (0, 7.5)]. *)
Definition low_orbit : machine :=
  Kepler (Obj (Fin 7000, Fin 0)) (Obj (Fin 0, Fin 7.5)) (Num (Fin 1000)).

Lemma require_idempotent_witness :
  (invocations "a" low_orbit ≤ 1)%nat ∧
  ∃ m1, require ["a"] low_orbit = Done m1 ∧ is_Some (this m1 !! "a") ∧
        require ["a"] m1 = Done m1 ∧ lifetime m1.
Proof.
  apply (require_idempotent low_orbit "a").
  - apply born.
  - by apply (bool_decide_unpack _).
Defined.

Lemma require_without_rule_throws_witness :
  (∃ e m', require ["r"; "M"] low_orbit = Throw e m') ∧
  require ["M"] low_orbit = Throw (NotAFunction ("set_" +:+ "M")) low_orbit.
Proof.
  apply (require_without_rule_throws low_orbit ["r"; "M"] "M").
  - by apply (bool_decide_unpack _).
  - reflexivity.
  - reflexivity.
Defined.

Lemma attributes_independent_of_request_order_witness :
  default (Num Nan) (this (after ["a"] low_orbit) !! "a")
    = default (Num Nan) (this (after ["ecc"; "a"] low_orbit) !! "a").
Proof.
  apply (attributes_independent_of_request_order
           (Obj (Fin 7000, Fin 0)) (Obj (Fin 0, Fin 7.5)) (Num (Fin 1000))
           (after ["a"] low_orbit) (after ["ecc"; "a"] low_orbit) "a").
  - apply (asked _ _ _ ["a"] low_orbit); [apply constructed | vm_compute; reflexivity].
  - apply (asked _ _ _ ["ecc"; "a"] low_orbit); [apply constructed | vm_compute; reflexivity].
  - by apply (bool_decide_unpack _).
  - vm_compute. reflexivity.
  - vm_compute. reflexivity.
Defined.

(** C8, as the spec has it, fails for the names of the prototype's own
    members: the body holds no value under ["require"] and there is no
    [set_require], yet [typeof this['require']] is ['function'] and the
    request is skipped without an error. *)
Lemma require_skips_member_names :
  this low_orbit !! "require" = None ∧
  member ("set_" +:+ "require") (@set_methods exact vec2 _ _) = None ∧
  require ["require"] low_orbit = Done low_orbit.
Proof. repeat split; vm_compute; reflexivity. Qed.

(** In the plane, the two values of [eccvec] of C10 are not the same: the
    formula taken at undefined operands is [NaN], the other one a vector. *)
Lemma eccvec_values_differ :
  let m1 := after ["eccvec"] low_orbit in
  let m2 := after ["eccvec"] (after ["h"; "r"] low_orbit) in
  require ["eccvec"] low_orbit = Done m1 ∧
  and_then (require ["h"; "r"]) (require ["eccvec"]) low_orbit = Done m2 ∧
  this m1 !! "eccvec" = Some (Num Nan) ∧
  (∃ x y, this m2 !! "eccvec" = Some (Obj (x, y))) ∧
  this m1 !! "eccvec" ≠ this m2 !! "eccvec".
Proof.
  intros m1 m2.
  assert (this m1 !! "eccvec" = Some (Num Nan)) as H1 by (vm_compute; reflexivity).
  assert (∃ x y, this m2 !! "eccvec" = Some (Obj (x, y))) as (x & y & H2)
    by (vm_compute; by eexists _, _).
  split; [vm_compute; reflexivity|]. split; [vm_compute; reflexivity|].
  split; [done|]. split; [by exists x, y|]. intros Heq.
  assert (Some (Num Nan : value) = Some (Obj (x, y))) as Habsurd
    by (etrans; [symmetry; exact H1 | etrans; [exact Heq | exact H2]]).
  discriminate Habsurd.
Qed.

(** [set_b] on a body that holds [a] and [ecc]. *)
Lemma set_b_exact (m : machine) (a e : R) :
  this m !! "a" = Some (Num (Fin a)) → this m !! "ecc" = Some (Num (Fin e)) →
  set_b require m =
    Done (stored "b"
            (Num (if Rlt_dec 1 e
                  then lift2 Rmult (Fin a) (exact_sqrt (Fin (e * e - 1)))
                  else lift2 Rmult (Fin a) (exact_sqrt (Fin (1 - e * e)))))
            m).
Proof.
  intros Ha He. unfold set_b, and_then, require.
  rewrite require_at_defined.
  2:{ intros p Hp. unfold typeof_undefined.
      apply elem_of_cons in Hp as [->|Hp]; [by rewrite Ha|].
      apply list_elem_of_singleton in Hp as ->. by rewrite He. }
  unfold assign, stored. rewrite Ha, He. exact_eval. unfold exact_gt. simpl.
  replace (1 / 1) with 1 by lra.
  destruct (Rlt_dec 1 e); simpl; done.
Qed.

(** C9, as the code has it.  [set_b] takes the branch [a·√(ecc²−1)] exactly
    when [ecc > 1] and the branch [a·√(1−ecc²)] when [ecc ≤ 1]; for
    [ecc = 1.5] and [a = −10000] it takes the first and stores
    [b = −10000·√1.25], a real number, and a negative one. *)
Theorem semi_minor_axis_branch (m : machine) (a e : R) :
  this m !! "a" = Some (Num (Fin a)) → this m !! "ecc" = Some (Num (Fin e)) →
  ∃ b, set_b require m = Done (stored "b" (Num b) m) ∧
       (1 < e → b = Fin (a * sqrt (e * e - 1))) ∧
       (e <= 1 → b = lift2 Rmult (Fin a) (exact_sqrt (Fin (1 - e * e)))) ∧
       (-1 <= e <= 1 → b = Fin (a * sqrt (1 - e * e))) ∧
       (e = 1.5 → a = -10000 → b = Fin (-10000 * sqrt 1.25) ∧ -10000 * sqrt 1.25 < 0).
Proof.
  intros Ha He. eexists. split; [by apply set_b_exact|].
  assert (∀ x, 0 <= x → exact_sqrt (Fin x) = Fin (sqrt x)) as Hsqrt.
  { intros x Hx. unfold exact_sqrt. destruct (Rlt_dec x 0); [lra | done]. }
  split; [|split; [|split]].
  - intros Hgt. destruct (Rlt_dec 1 e); [|lra]. rewrite Hsqrt; [done | nra].
  - intros Hle. destruct (Rlt_dec 1 e); [lra | done].
  - intros Hrange. destruct (Rlt_dec 1 e); [lra|]. rewrite Hsqrt; [done | nra].
  - intros -> ->. destruct (Rlt_dec 1 1.5); [|lra]. rewrite Hsqrt by lra.
    replace (1.5 * 1.5 - 1) with 1.25 by lra. split; [done|].
    assert (0 < sqrt 1.25) by (apply sqrt_lt_R0; lra). lra.
Qed.

(** A body with the semi-major axis and the eccentricity of C9. *)
Definition hyperbolic : machine :=
  Machine (<["ecc" := Num (Fin 1.5)]> (<["a" := Num (Fin (-10000))]> (this low_orbit))) [].

Lemma semi_minor_axis_branch_witness :
  ∃ b, set_b require hyperbolic = Done (stored "b" (Num b) hyperbolic) ∧
       (1 < 1.5 → b = Fin (-10000 * sqrt (1.5 * 1.5 - 1))) ∧
       (1.5 <= 1 → b = lift2 Rmult (Fin (-10000)) (exact_sqrt (Fin (1 - 1.5 * 1.5)))) ∧
       (-1 <= 1.5 <= 1 → b = Fin (-10000 * sqrt (1 - 1.5 * 1.5))) ∧
       (1.5 = 1.5 → -10000 = -10000 → b = Fin (-10000 * sqrt 1.25) ∧ -10000 * sqrt 1.25 < 0).
Proof.
  apply (semi_minor_axis_branch hyperbolic (-10000) 1.5); reflexivity.
Defined.

(** C9, as the spec has it, fails at its own example: the value stored for
    [ecc = 1.5], [a = −10000] is not positive. *)
Lemma semi_minor_axis_not_positive :
  ∃ b, set_b require hyperbolic = Done (stored "b" (Num (Fin b)) hyperbolic) ∧
       b = -10000 * sqrt (1.5 * 1.5 - 1) ∧ ¬ 0 < b.
Proof.
  exists (-10000 * sqrt (1.5 * 1.5 - 1)).
  rewrite (set_b_exact hyperbolic (-10000) 1.5) by reflexivity.
  destruct (Rlt_dec 1 1.5); [|lra]. unfold exact_sqrt.
  destruct (Rlt_dec (1.5 * 1.5 - 1) 0); [lra|]. simpl. split; [done|]. split; [done|].
  assert (0 < sqrt (1.5 * 1.5 - 1)) by (apply sqrt_lt_R0; lra). lra.
Qed.

End ResolverExamples.

(** * Part IX: laws of the resolver *)

Section ResolverLaws.
Context {num obj : Type} `{!JSNumber num} `{!VectorLib num obj}.

#[local] Abbreviation value := (value num obj).
#[local] Abbreviation props := (gmap string value).
#[local] Abbreviation machine := (@machine num obj).
#[local] Abbreviation outcome := (@outcome num obj).
#[local] Abbreviation method := (@method num obj).

(** ** Requests in sequence *)

(** The loop of [require] is the sequence of its single requests: asking
    for [l1 ++ l2] is asking for [l1] and then, if that returned, for [l2] on
    the body it left; an error in [l1] is the error of the whole call, and
    [l2] is not looked at. *)
Theorem require_append (l1 l2 : list string) (m : machine) :
  require (l1 ++ l2) m = and_then (require l1) (require l2) m.
Proof.
  unfold require. generalize call_depth. intros d.
  revert m. induction l1 as [|p rest IH]; intros m; unfold and_then in *.
  - by rewrite require_at_nil.
  - rewrite <- app_comm_cons, !require_at_cons.
    destruct (typeof_undefined (this m) p); [|apply IH].
    destruct (this_set_ (this m) p) as [f|e]; [|done].
    destruct d as [|d]; [done|].
    destruct (f (require_at d) m) as [m'|e m'|]; [apply IH | done | done].
Qed.

(** ** What holds when a call ends *)

(** A call that raises stops at a name that is still undefined. *)
Lemma runs_stuck l (m : machine) o :
  runs l m o → ∀ e m', o = Throw e m' → ∃ p, p ∈ l ∧ typeof_undefined (this m') p = true.
Proof.
  intros Hruns.
  refine (proj2 (runs_ind
    (λ l m o, ∀ e m', o = Throw e m' → ∃ p, p ∈ l ∧ typeof_undefined (this m') p = true)
    _ _ _ _ _ _ l m o Hruns)); clear l m o Hruns.
  - done.
  - intros p rest m o _ _ IH e m' Ho. destruct (IH e m' Ho) as (q & Hq & Hu).
    exists q. split; [by right | done].
  - intros p rest m e Hu _ e' m' [= _ <-]. exists p. split; [by left | done].
  - intros x f g rest m e m1 Hu _ Hrl Hruns1 _ e' m' [= _ <-].
    destruct (runs_extends _ _ _ Hruns1) as [_ Hext].
    destruct (Hext m1 eq_refl) as [Hext1 _].
    destruct (extends_rule_step [x] _ _ _ _ _ Hu Hrl Hext1) as [_ Hx]; [by left|].
    exists x. split; [by left | by eapply typeof_undefined_preserved].
  - intros x f g rest m m1 e Hu _ Hrl Hruns1 _ _ e' m' [= _ <-].
    destruct (runs_extends _ _ _ Hruns1) as [_ Hext].
    destruct (Hext m1 eq_refl) as [Hext1 _].
    destruct (extends_rule_step [x] _ _ _ _ _ Hu Hrl Hext1) as [_ Hx]; [by left|].
    exists x. split; [by left | by eapply typeof_undefined_preserved].
  - intros x f g rest m m1 v o _ _ _ _ _ _ _ IH e m' Ho.
    destruct (IH e m' Ho) as (q & Hq & Hu). exists q. split; [by right | done].
Qed.

(** On any body and for any list of names: when [require] returns, every
    name of the list is defined ([typeof this[p]] is not ['undefined']) and
    the same request made again returns the same body; when it raises, one of
    the names is still undefined on the body it leaves: a derivation that
    failed has stored nothing under its name. *)
Theorem require_postcondition (l : list string) (m : machine) :
  match require l m with
  | Done m' =>
      (∀ p, p ∈ l → typeof_undefined (this m') p = false) ∧ require l m' = Done m'
  | Throw e m' => ∃ p, p ∈ l ∧ typeof_undefined (this m') p = true
  | Exhausted => False
  end.
Proof.
  pose proof (runs_require l m) as Hruns.
  destruct (runs_extends _ _ _ Hruns) as [Hne Hext].
  pose proof (runs_stuck _ _ _ Hruns) as Hstuck.
  destruct (require l m) as [m'|e m'|]; [| |done].
  - destruct (Hext m' eq_refl) as [_ Hdef]. specialize (Hdef eq_refl).
    split; [done | by apply require_at_defined].
  - by apply (Hstuck e m').
Qed.

(** ** When a call returns *)

Lemma member_attribute x (f : method) :
  member ("set_" +:+ x) set_methods = Some f → x ∈ attributes.
Proof. by intros [? _]%set_methods_rules. Qed.

(** On a body at any point of its life, [require(l)] returns exactly when
    every name of [l] that is undefined on the body has a [set_] method; it
    raises otherwise. *)
Theorem require_returns_iff (l : list string) (m : machine) :
  lifetime m →
  (∃ m', require l m = Done m') ↔
  (∀ p, p ∈ l → typeof_undefined (this m) p = true → p ∈ attributes).
Proof.
  intros Hlife. pose proof (runs_require l m) as Hruns. split.
  - intros [m' Hdone] p Hp Hu.
    destruct (member ("set_" +:+ p) (@set_methods num obj _ _)) as [f|] eqn:Hf;
      [by eapply member_attribute|].
    destruct (runs_no_rule p l m _ Hf Hruns Hp Hu) as (e & m1 & Hthrow). congruence.
  - intros Hl. destruct (lifetime_invariant m Hlife) as [Hok Hc].
    destruct (runs_extends _ _ _ Hruns) as [Hne _].
    pose proof (runs_succeeds _ _ _ Hruns Hok Hc) as Hs.
    destruct (require l m) as [m'|e m'|]; [by exists m' | | done].
    destruct (Hs m' eq_refl) as [_ Hdone]. discriminate (Hdone Hl).
Qed.

(** ** What a call computes *)

(** The names a request for [l] can reach: those of [l] and, through the
    lists the [set_] methods pass to [require], their prerequisites. *)
Inductive needed (l : list string) : string → Prop :=
  | needed_asked p : p ∈ l → needed l p
  | needed_prerequisite x p : needed l x → p ∈ prerequisites x → needed l p.

Lemma needed_mono l l' k : (∀ p, p ∈ l → needed l' p) → needed l k → needed l' k.
Proof.
  intros Hl. induction 1 as [p Hp | x p _ IH Hp]; [by apply Hl|].
  by eapply needed_prerequisite.
Qed.

Lemma needed_tail p rest k : needed rest k → needed (p :: rest) k.
Proof. apply needed_mono. intros q Hq. apply needed_asked. by right. Qed.

Lemma needed_head x rest k : needed (prerequisites x) k → needed (x :: rest) k.
Proof.
  apply needed_mono. intros q Hq.
  apply (needed_prerequisite _ x); [apply needed_asked; by left | done].
Qed.

(** What a call adds to the body and to the invocation record is needed
    by the request. *)
Definition frugal (l : list string) (m : machine) (o : outcome) : Prop :=
  ∀ m', final o = Some m' →
    (∀ k, this m !! k = None → is_Some (this m' !! k) → needed l k) ∧
    ∃ new, invoked m' = invoked m ++ new ∧ ∀ x seen, (x, seen) ∈ new → needed l x.

Lemma runs_frugal l (m : machine) o : runs l m o → frugal l m o.
Proof.
  intros Hruns. apply (runs_ind frugal); [..|done]; clear l m o Hruns; unfold frugal.
  - intros m m' [= <-]. split.
    + intros k Hk. rewrite Hk. by intros [? ?].
    + exists []. split; [by rewrite app_nil_r|]. by intros ?? ?%elem_of_nil.
  - intros p rest m o _ _ IH m' Ho. destruct (IH m' Ho) as (Hkeys & new & Hnew & Hall).
    split; [intros k Hk Hk'; by apply needed_tail, Hkeys|].
    exists new. split; [done|]. intros x seen Hin. by eapply needed_tail, Hall.
  - intros p rest m e _ _ m' [= <-]. split.
    + intros k Hk. rewrite Hk. by intros [? ?].
    + exists []. split; [by rewrite app_nil_r|]. by intros ?? ?%elem_of_nil.
  - intros x f g rest m e m1 _ _ _ _ IH m' [= <-].
    destruct (IH m1 eq_refl) as (Hkeys & new & Hnew & Hall).
    split; [intros k Hk Hk'; by apply needed_head, Hkeys|].
    exists new. split; [done|]. intros y seen Hin. by eapply needed_head, Hall.
  - intros x f g rest m m1 e _ _ _ _ IH _ m' [= <-].
    destruct (IH m1 eq_refl) as (Hkeys & new & Hnew & Hall). simpl.
    split; [intros k Hk Hk'; by apply needed_head, Hkeys|].
    exists (new ++ [(x, this m1)]). split; [by rewrite Hnew, app_assoc|].
    intros y seen [Hy|[= -> ->]%list_elem_of_singleton]%elem_of_app.
    + by eapply needed_head, Hall.
    + apply needed_asked. by left.
  - intros x f g rest m m1 v o _ _ _ _ IH1 _ _ IH2 m' Ho.
    destruct (IH1 m1 eq_refl) as (Hkeys1 & new1 & Hnew1 & Hall1).
    destruct (IH2 m' Ho) as (Hkeys2 & new2 & Hnew2 & Hall2).
    split.
    + intros k Hk Hk'.
      destruct (decide (k = x)) as [->|Hne]; [apply needed_asked; by left|].
      destruct (this m1 !! k) as [w|] eqn:Hk1.
      * apply needed_head, Hkeys1; [done | by eexists].
      * apply needed_tail, Hkeys2; [|done]. simpl. by rewrite lookup_insert_ne.
    + exists (new1 ++ [(x, this m1)] ++ new2). split.
      { rewrite Hnew2. simpl. rewrite Hnew1. by rewrite <- !app_assoc. }
      intros y seen [Hy|[[= -> ->]%list_elem_of_singleton|Hy]%elem_of_app]%elem_of_app.
      * by eapply needed_head, Hall1.
      * apply needed_asked. by left.
      * by eapply needed_tail, Hall2.
Qed.

(** [require] is frugal: whether it returns or raises, every property it
    adds to the body, and every formula it evaluates, belongs to a name of
    the request or to one reached from it through the lists the [set_]
    methods pass to [require]. *)
Theorem require_computes_only_needed (l : list string) (m : machine) :
  match require l m with
  | Done m' | Throw _ m' =>
      (∀ k, this m !! k = None → is_Some (this m' !! k) → needed l k) ∧
      ∃ new, invoked m' = invoked m ++ new ∧ ∀ x seen, (x, seen) ∈ new → needed l x
  | Exhausted => False
  end.
Proof.
  pose proof (runs_require l m) as Hruns.
  destruct (runs_extends _ _ _ Hruns) as [Hne _].
  pose proof (runs_frugal _ _ _ Hruns) as Hfrugal. unfold frugal in Hfrugal.
  destruct (require l m) as [m'|e m'|]; [| |done]; by apply Hfrugal.
Qed.

(** ** The cache is coherent *)

(** On a body that was constructed, asked for attributes and moved along
    its orbit, and on which nothing else was stored: calling [set_x] for a
    stored attribute [x] other than [eccvec] and [ω] returns, evaluates the
    formula of [x] alone, and leaves every property as it was.  Each stored
    value is the value of its formula on the body as it is now. *)
Theorem recomputation_agrees
    (rvec vvec mass : value) (m : machine) (x : string) (f : method) :
  requested rvec vvec mass m →
  x ∈ order_independent → is_Some (this m !! x) →
  member ("set_" +:+ x) set_methods = Some f →
  f require m = Done (Machine (this m) (invoked m ++ [(x, this m)])).
Proof.
  intros [Hs _]%requested_settled Hx [v Hv] Hf.
  destruct (Hs x v Hx Hv) as (Hpre & f' & g & Hf' & Hrl & Hg).
  assert (f' = f) as -> by congruence.
  unfold require. rewrite (rule_derives _ _ _ Hrl). unfold and_then.
  rewrite require_at_defined.
  2:{ intros p Hp. unfold typeof_undefined. by destruct (Hpre p Hp) as [? ->]. }
  unfold assign. rewrite Hg. by rewrite insert_id.
Qed.

(** Two formulas of one method agree wherever its prerequisites are
    defined. *)
Lemma derives_unique x (f : method) pre g g' (t : props) :
  derives f x pre g → derives f x pre g' →
  (∀ p, p ∈ pre → typeof_undefined t p = false) →
  g t = g' t.
Proof.
  intros Hg Hg' Hdef.
  pose proof (Hg 0%nat (Machine t [])) as H1.
  rewrite (Hg' 0%nat (Machine t [])) in H1.
  unfold and_then in H1. rewrite require_at_defined in H1 by done.
  unfold assign in H1. simpl in H1.
  destruct (g t) as [v|e], (g' t) as [v'|e']; try done.
  - injection H1 as H1. f_equal.
    assert (<[x:=v']> t !! x = <[x:=v]> t !! x) as Hx by by rewrite H1.
    rewrite !lookup_insert_eq in Hx. congruence.
  - by injection H1 as <-.
Qed.

(** On a settled body, a stored attribute is the value of the formula of
    its [set_] method, and its prerequisites are stored. *)
Lemma settled_formula x (f : method) g (t : props) v :
  settled t → x ∈ order_independent → t !! x = Some v →
  member ("set_" +:+ x) set_methods = Some f →
  derives f x (prerequisites x) g →
  g t = Ok v ∧ ∀ p, p ∈ prerequisites x → is_Some (t !! p).
Proof.
  intros Hs Hx Hv Hf Hg.
  destruct (Hs x v Hx Hv) as (Hpre & f' & g' & Hf' & Hrl & Hg').
  assert (f' = f) as -> by congruence. split; [|done].
  rewrite <- Hg'. apply (derives_unique x f (prerequisites x)); [done | by apply rule_derives |].
  intros p Hp. unfold typeof_undefined. by destruct (Hpre p Hp) as [? ->].
Qed.

(** A body that was only asked and moved is a body in its life. *)
Lemma requested_lifetime (rvec vvec mass : value) (m : machine) :
  requested rvec vvec mass m → lifetime m.
Proof.
  induction 1 as [| l m m' _ IH Hfinal | tick m m' _ IH Hcall | m m' _ IH Hcall].
  - apply born.
  - by eapply after_require.
  - by eapply after_eccAnom.
  - by eapply after_TrueAnom.
Qed.

Lemma lifetime_this_set (m : machine) x (f : method) :
  lifetime m → member ("set_" +:+ x) set_methods = Some f → this_set_ (this m) x = Ok f.
Proof.
  intros Hlife Hf. destruct (lifetime_invariant m Hlife) as [[_ Hset] _].
  unfold this_set_. rewrite Hset by by eapply member_attribute. by rewrite Hf.
Qed.

(** A request for one undefined attribute of such a body is a call of its
    [set_] method. *)
Lemma require_at_call d (m : machine) x (f : method) :
  lifetime m → member ("set_" +:+ x) set_methods = Some f → this m !! x = None →
  require_at (S d) [x] m = f (require_at d) m.
Proof.
  intros Hlife Hf Hx.
  rewrite require_at_cons, (lifetime_this_set m x f Hlife Hf).
  rewrite typeof_undefined_attribute by by eapply member_attribute.
  rewrite Hx, bool_decide_eq_false_2 by by intros [? ?]. cbn [negb].
  destruct (f (require_at d) m); by rewrite ?require_at_nil.
Qed.

(** ** What a call can raise *)

Lemma this_set_Err (t : props) p e :
  this_set_ t p = Err e → e = NotAFunction ("set_" +:+ p).
Proof.
  unfold this_set_. destruct (t !! _); [by intros [= <-]|].
  destruct (member _ _); [done | by intros [= <-]].
Qed.

Lemma well_formed_extends l (m m' : machine) :
  extends l m m' → well_formed (this m) → well_formed (this m').
Proof.
  intros (Hsub & _) [[rv Hr] [vv Hv]]. split; eexists; eapply lookup_weaken; eauto.
Qed.

(** On a body that has its two vectors, no formula raises: what a call
    raises is the error of a missing method. *)
Definition raises_missing_method (l : list string) (m : machine) (o : outcome) : Prop :=
  well_formed (this m) →
  ∀ e m', o = Throw e m' → ∃ p, needed l p ∧ e = NotAFunction ("set_" +:+ p).

Lemma runs_raises l (m : machine) o : runs l m o → raises_missing_method l m o.
Proof.
  intros Hruns. apply (runs_ind raises_missing_method); [..|done]; clear l m o Hruns;
    unfold raises_missing_method.
  - done.
  - intros p rest m o _ _ IH Hwf e m' Ho. destruct (IH Hwf e m' Ho) as (q & Hq & He).
    exists q. split; [by apply needed_tail | done].
  - intros p rest m e _ He _ e' m' [= <- _]. exists p.
    split; [apply needed_asked; by left | by eapply this_set_Err].
  - intros x f g rest m e m1 _ _ _ _ IH Hwf e' m' [= <- <-].
    destruct (IH Hwf e m1 eq_refl) as (q & Hq & He).
    exists q. split; [by apply needed_head | done].
  - intros x f g rest m m1 e _ _ Hrl Hruns1 _ Hg Hwf e' m' _. exfalso.
    destruct (runs_extends _ _ _ Hruns1) as [_ Hext].
    destruct (Hext m1 eq_refl) as [Hext1 Hdef].
    destruct Hrl as (Hx & Hformula & _).
    destruct (Hformula (this m1)) as [v Hv].
    + by eapply well_formed_extends.
    + intros p Hp. apply defined_attribute; [by eapply prerequisites_attributes|].
      by apply Hdef.
    + congruence.
  - intros x f g rest m m1 v o Hu _ Hrl Hruns1 _ _ _ IH Hwf e m' Ho.
    destruct (runs_extends _ _ _ Hruns1) as [_ Hext].
    destruct (Hext m1 eq_refl) as [Hext1 _].
    destruct (extends_rule_step [x] _ _ _ _ _ Hu Hrl Hext1) as [Hextx Hx]; [by left|].
    destruct (IH) with (e := e) (m' := m') as (q & Hq & He); [|done|].
    + eapply well_formed_extends; [|done].
      eapply extends_trans; [done|].
      apply extends_stored; [apply Hrl | done | by left].
    + exists q. split; [by apply needed_tail | done].
Qed.

(** The errors of [require].  On a body that holds [rvec] and [vvec],
    whatever a [require] call raises is the [TypeError] of calling a missing
    method [set_p], for a name [p] of the request or one reached from it: no
    formula ever raises on such a body.  The [TypeError] of a member access on
    [undefined] can only come from a body that lacks one of the vectors. *)
Theorem require_raises_missing_method (l : list string) (m : machine) e m' :
  require l m = Throw e m' → well_formed (this m) →
  ∃ p, needed l p ∧ e = NotAFunction ("set_" +:+ p).
Proof.
  intros Hthrow Hwf.
  by apply (runs_raises l m (require l m) (runs_require l m) Hwf e m').
Qed.

End ResolverLaws.

(** ** Laws of the anomaly pipeline, for every implementation *)

Section PipelineLaws.
Context {num obj : Type} `{!JSNumber num} `{!VectorLib num obj}.

#[local] Abbreviation value := (value num obj).
#[local] Abbreviation props := (gmap string value).
#[local] Abbreviation machine := (@machine num obj).

Lemma newton_ext (t t' : props) :
  t !! "ε" = t' !! "ε" → t !! "M" = t' !! "M" →
  ∀ left E F i, newton t left E F i = newton t' left E F i.
Proof.
  intros Hε HM. induction left as [|left IH]; intros E F i; simpl; [done|].
  rewrite Hε, HM. by destruct (js_gt _ _).
Qed.

Lemma solve_ext (t t' : props) :
  t !! "ε" = t' !! "ε" → t !! "M" = t' !! "M" → solve t = solve t'.
Proof.
  intros Hε HM. unfold solve, initial_guess, initial_residual. rewrite Hε, HM.
  by apply newton_ext.
Qed.

Lemma mean_anomaly_again (tick : option value) (t : props) e :
  mean_anomaly tick (<["E" := e]> (mean_anomaly tick t)) = <["E" := e]> (mean_anomaly tick t).
Proof.
  unfold mean_anomaly. rewrite !lookup_insert_eq.
  rewrite !(lookup_insert_ne _ _ "Mt"), !(lookup_insert_ne _ _ "n"),
    !(lookup_insert_ne _ _ "epoch") by done.
  rewrite insert_insert_eq.
  rewrite (insert_insert_ne _ "M" "E") by done. rewrite insert_insert_eq.
  by rewrite insert_insert_eq.
Qed.

(** Each step of the anomaly pipeline is idempotent: [eccAnom] called
    again at the same tick, and [TrueAnom] called again, return the body they
    were given. *)
Theorem anomalies_idempotent (tick : option value) (m : machine) :
  (∀ m1, eccAnom tick m = Done m1 → eccAnom tick m1 = Done m1) ∧
  (∀ m1, TrueAnom m = Done m1 → TrueAnom m1 = Done m1).
Proof.
  split.
  - intros m1. unfold eccAnom.
    destruct (solve (mean_anomaly tick (this m))) as [[E F] i] eqn:Hsolve.
    intros [= <-]. cbn [this invoked]. rewrite mean_anomaly_again.
    rewrite (solve_ext _ (mean_anomaly tick (this m))), Hsolve
      by by rewrite lookup_insert_ne.
    by rewrite insert_insert_eq.
  - intros m1. unfold TrueAnom. intros [= <-]. cbn [this invoked].
    rewrite !(lookup_insert_ne _ _ "E"), !(lookup_insert_ne _ _ "ε") by done.
    by rewrite insert_insert_eq.
Qed.

End PipelineLaws.

(** * Part X: the operations of the system *)

Section Operations.
Context {num obj : Type} `{!JSNumber num} `{!VectorLib num obj}.

#[local] Abbreviation value := (value num obj).
#[local] Abbreviation props := (gmap string value).
#[local] Abbreviation machine := (@machine num obj).
#[local] Abbreviation outcome := (@outcome num obj).
#[local] Abbreviation method := (@method num obj).

(** The operations of the system on a body: a [require] call, a direct
    call of [this.set_x], [eccAnom], [TrueAnom] and [position]. *)
Inductive operation : Type :=
  | call_require (properties : list string)
  | call_set_ (x : string)
  | call_eccAnom (currentTick : option value)
  | call_TrueAnom
  | call_position.

Definition perform (op : operation) (m : machine) : outcome :=
  match op with
  | call_require l => require l m
  | call_set_ x => match this_set_ (this m) x with
                   | Ok f => f require m
                   | Err e => Throw e m
                   end
  | call_eccAnom tick => eccAnom tick m
  | call_TrueAnom => TrueAnom m
  | call_position => position m
  end.

(** The operations in sequence; one that raises leaves the body as it was
    when it raised, and the next one goes on from there. *)
Fixpoint perform_all (ops : list operation) (m : machine) : option machine :=
  match ops with
  | [] => Some m
  | op :: ops' => m' ← final (perform op m); perform_all ops' m'
  end.

(** The properties an operation assigns even when the body stores them
    already. *)
Definition writes (op : operation) (k : string) : Prop :=
  match op with
  | call_set_ x => k = x
  | call_eccAnom _ => k = "M" ∨ k = "E"
  | call_TrueAnom => k = "φ"
  | call_require _ | call_position => False
  end.

(** The stored properties an operation can change on a body that was only
    operated on. *)
Definition overwrites (op : operation) (k : string) : Prop :=
  match op with
  | call_set_ x => k = x ∧ (x = "eccvec" ∨ x = "ω")
  | call_eccAnom _ => k = "M" ∨ k = "E"
  | call_TrueAnom => k = "φ"
  | call_require _ | call_position => False
  end.

(** A body that was constructed and operated on; its owner may have stored
    data on it, such as the inputs of [eccAnom], under names that are
    neither a primary nor a derived attribute. *)
Inductive operated : machine → Prop :=
  | operated_new rvec vvec mass : operated (Kepler rvec vvec mass)
  | operated_data k v m :
      operated m → k ∉ primary ++ attributes →
      operated (Machine (<[k := v]> (this m)) (invoked m))
  | operated_call op m m' :
      operated m → final (perform op m) = Some m' → operated m'.

Lemma perform_eq (op : operation) (m : machine) :
  perform op m =
    match op with
    | call_require l => require l m
    | call_set_ x => match this_set_ (this m) x with
                     | Ok f => f require m
                     | Err e => Throw e m
                     end
    | call_eccAnom tick => eccAnom tick m
    | call_TrueAnom => TrueAnom m
    | call_position => Done m
    end.
Proof. by destruct op. Qed.

Lemma order_independent_cases x :
  x ∈ attributes → x ∈ order_independent ∨ x = "eccvec" ∨ x = "ω".
Proof.
  intros Hx. unfold order_independent.
  destruct (decide (x = "eccvec")) as [->|H1]; [by right; left|].
  destruct (decide (x = "ω")) as [->|H2]; [by right; right|].
  left. apply list_elem_of_filter. done.
Qed.

Lemma set_name_no_attribute x : x ∈ attributes → "set_" +:+ x ∉ attributes.
Proof.
  assert (Forall (λ q, "set_" +:+ q ∉ attributes) attributes) as Hall
    by by apply (bool_decide_unpack _).
  apply (proj1 (Forall_forall _ _) Hall).
Qed.

Lemma this_set_extends l (m m1 : machine) x f :
  extends l m m1 → this_set_ (this m) x = Ok f → this_set_ (this m1) x = Ok f.
Proof.
  intros (_ & Hnew & _) Hf.
  destruct (this_set_Ok _ _ _ Hf) as (g & Hx & _).
  revert Hf. unfold this_set_.
  destruct (this m !! ("set_" +:+ x)) eqn:Hown; [done|].
  destruct (this m1 !! ("set_" +:+ x)) eqn:Hown1; [|done].
  destruct (Hnew ("set_" +:+ x) Hown) as [Hin _]; [by eexists|].
  by destruct (set_name_no_attribute x Hx).
Qed.

(** A direct call of [set_x]: what it leaves, and what the body holds
    under [x] afterwards. *)
Lemma set_call (m : machine) x f g :
  this_set_ (this m) x = Ok f → rule x f g →
  ∃ m1, final (require (prerequisites x) m) = Some m1 ∧
        this m ⊆ this m1 ∧ (settled (this m) → settled (this m1)) ∧
        this_set_ (this m1) x = Ok f ∧
        ((∃ e, f require m = Throw e m1 ∧ ∃ e', require (prerequisites x) m = Throw e' m1) ∨
         (∃ e, f require m = Throw e (raised x m1)) ∨
         (∃ v, f require m = Done (stored x v m1) ∧ g (this m1) = Ok v ∧
               ∀ p, p ∈ prerequisites x → typeof_undefined (this m1) p = false)).
Proof.
  intros Hf Hrl. pose proof (runs_require (prerequisites x) m) as Hruns.
  destruct (runs_extends _ _ _ Hruns) as [Hne Hext].
  pose proof (runs_settled _ _ _ Hruns) as Hset.
  unfold require in *. rewrite (rule_derives _ _ _ Hrl). unfold and_then.
  destruct (require_at call_depth (prerequisites x) m) as [m1|e m1|] eqn:Hpre; [| |done].
  - destruct (Hext m1 eq_refl) as [Hext1 Hdef]. exists m1.
    split; [done|]. split; [apply Hext1|]. split; [intros Hs; by apply Hset|].
    split; [by eapply this_set_extends|]. right. unfold assign.
    destruct (g (this m1)) as [v|e] eqn:Hg.
    + right. exists v. split; [done|]. split; [done|]. by apply Hdef.
    + left. by exists e.
  - destruct (Hext m1 eq_refl) as [Hext1 _]. exists m1.
    split; [done|]. split; [apply Hext1|]. split; [intros Hs; by apply Hset|].
    split; [by eapply this_set_extends|]. left. exists e. split; [done|]. by exists e.
Qed.

(** On a settled body, the value [set_x] computes for a stored [x] is the
    stored one. *)
Lemma settled_recomputed (t : props) x f g v w :
  settled t → x ∈ order_independent → this_set_ t x = Ok f → rule x f g →
  t !! x = Some w → g t = Ok v → v = w.
Proof.
  intros Hs Hx Hf Hrl Hw Hv.
  destruct (Hs x w Hx Hw) as (Hpre & f' & g' & Hf' & Hrl' & Hg').
  apply this_set_member in Hf. assert (f' = f) as -> by congruence.
  assert (g t = g' t) as Heq.
  { apply (rule_unique x f); [done..|]. intros p Hp.
    unfold typeof_undefined. by destruct (Hpre p Hp) as [? ->]. }
  congruence.
Qed.

Lemma settled_after_set (m : machine) x f g m' :
  this_set_ (this m) x = Ok f → rule x f g → settled (this m) →
  final (f require m) = Some m' → settled (this m').
Proof.
  intros Hf Hrl Hs Hfinal.
  destruct (set_call m x f g Hf Hrl) as (m1 & _ & _ & Hs1 & Hf1 & Hcase).
  specialize (Hs1 Hs).
  destruct Hcase as [(e & Hcall & _) | [(e & Hcall) | (v & Hcall & Hg & Hdef)]];
    rewrite Hcall in Hfinal; injection Hfinal as <-; [done..|].
  destruct (order_independent_cases x) as [Hx|Hx]; [apply Hrl| |].
  - destruct (this m1 !! x) as [w|] eqn:Hw.
    + assert (v = w) as -> by by eapply settled_recomputed.
      simpl. by rewrite insert_id.
    + by apply (settled_stored x f g v m1).
  - apply (settled_elsewhere (this m1)); [|done]. intros k Hk. simpl.
    apply lookup_insert_ne. intros <-.
    assert (x ∉ primary ++ order_independent) as Hout
      by (destruct Hx as [->| ->]; by apply (bool_decide_unpack _)).
    done.
Qed.

Lemma operated_settled (m : machine) : operated m → settled (this m).
Proof.
  induction 1 as [rvec vvec mass | k v m _ IH Hk | op m m' _ IH Hfinal].
  - intros x v Hx.
    assert (Forall (λ q, this (Kepler rvec vvec mass) !! q = None) order_independent)
      as Hall by by apply (bool_decide_unpack _).
    by rewrite (proj1 (Forall_forall _ _) Hall x Hx).
  - apply (settled_elsewhere (this m)); [|done]. intros k' Hk'. simpl.
    apply lookup_insert_ne. intros <-. apply Hk.
    apply elem_of_app in Hk' as [?|Hk']; apply elem_of_app; [by left | right].
    by apply order_independent_attribute in Hk' as [? _].
  - rewrite perform_eq in Hfinal. destruct op as [l | x | tick | |].
    + by apply (runs_settled _ _ _ (runs_require l m) IH).
    + destruct (this_set_ (this m) x) as [f|e] eqn:Hf; [|by injection Hfinal as <-].
      destruct (this_set_Ok _ _ _ Hf) as (g & Hrl).
      by eapply settled_after_set.
    + destruct (eccAnom_frame tick m) as (m1 & Hm1 & _ & _ & Hframe).
      rewrite Hm1 in Hfinal. injection Hfinal as <-.
      apply (settled_elsewhere (this m)); [|done]. intros k Hk.
      assert (Forall (λ k, k ∉ primary ++ order_independent) ["M"; "E"]) as Hout
        by by apply (bool_decide_unpack _).
      apply Hframe; intros ->; apply (proj1 (Forall_forall _ _) Hout _) in Hk; try done;
        by apply (bool_decide_unpack _).
    + destruct (TrueAnom_frame m) as (m1 & Hm1 & _ & Hframe).
      rewrite Hm1 in Hfinal. injection Hfinal as <-.
      apply (settled_elsewhere (this m)); [|done]. intros k Hk.
      assert ("φ" ∉ primary ++ order_independent) as Hout
        by by apply (bool_decide_unpack _).
      apply Hframe. by intros ->.
    + by injection Hfinal as <-.
Qed.

(** One operation: it ends, and it keeps what it does not assign; on a
    body that was only operated on it keeps what it assigns, too, unless
    that is [M], [E], [φ], [eccvec] or [ω]. *)
Lemma perform_keeps (op : operation) (m : machine) :
  ∃ m', final (perform op m) = Some m' ∧
        (∀ k v, this m !! k = Some v → ¬ writes op k → this m' !! k = Some v) ∧
        (operated m → ∀ k v, this m !! k = Some v → ¬ overwrites op k →
                      this m' !! k = Some v).
Proof.
  rewrite perform_eq. destruct op as [l | x | tick | |]; cbn [writes overwrites].
  - destruct (runs_extends _ _ _ (runs_require l m)) as [Hne Hext].
    destruct (require l m) as [m'|e m'|] eqn:Hcall; [| |done];
      destruct (Hext m' eq_refl) as [[Hsub _] _]; exists m';
      (split; [done|]); split; intros; by eapply lookup_weaken.
  - destruct (this_set_ (this m) x) as [f|e] eqn:Hf; [|exists m; by repeat split].
    destruct (this_set_Ok _ _ _ Hf) as (g & Hrl).
    destruct (set_call m x f g Hf Hrl) as (m1 & _ & Hsub & Hs1 & Hf1 & Hcase).
    destruct Hcase as [(e & Hcall & _) | [(e & Hcall) | (v & Hcall & Hg & Hdef)]];
      rewrite Hcall; eexists; (split; [done|]).
    + split; intros; by eapply lookup_weaken.
    + split; intros; by eapply lookup_weaken.
    + split.
      * intros k w Hk Hne. simpl. rewrite lookup_insert_ne by (intros <-; by apply Hne).
        by eapply lookup_weaken.
      * intros Hop k w Hk Hne. simpl.
        destruct (decide (x = k)) as [<-|Hxk];
          [|rewrite lookup_insert_ne by done; by eapply lookup_weaken].
        rewrite lookup_insert_eq. f_equal.
        destruct (order_independent_cases x) as [Hx|Hx]; [apply Hrl| |by destruct Hne].
        eapply (settled_recomputed (this m1)); [|done..|by eapply lookup_weaken|done].
        by apply Hs1, operated_settled.
  - destruct (eccAnom_frame tick m) as (m' & Hm' & _ & _ & Hframe). exists m'.
    rewrite Hm'. split; [done|].
    split; [|intros _]; intros k v Hk Hne; (rewrite Hframe; [done| |]);
      intros ->; apply Hne; auto.
  - destruct (TrueAnom_frame m) as (m' & Hm' & _ & Hframe). exists m'.
    rewrite Hm'. split; [done|].
    split; [|intros _]; intros k v Hk Hne; (rewrite Hframe; [done|]);
      intros ->; by apply Hne.
  - exists m. by repeat split.
Qed.

(** C7, as the code has it.  Whatever the operations that follow, each
    ends, by returning or by raising, and a stored property keeps its value
    through all of them, as long as none of them assigns it: [set_x] assigns
    [x], [eccAnom] assigns [M] and [E], [TrueAnom] assigns [φ], and
    [require] and [position] assign nothing that is stored.  On a body that
    was constructed and then only operated on, a direct call of [set_x] for a
    stored [x] assigns the value [x] already has, so that there a stored
    property keeps its value through every sequence of operations but
    these: [eccAnom] for [M] and [E], [TrueAnom] for [φ], a direct call of
    [set_eccvec] for [eccvec] and of [set_ω] for [ω]. *)
Theorem stored_values_kept (ops : list operation) (m : machine) :
  ∃ m', perform_all ops m = Some m' ∧
        (∀ k v, this m !! k = Some v → Forall (λ op, ¬ writes op k) ops →
                this m' !! k = Some v) ∧
        (operated m → operated m' ∧
           ∀ k v, this m !! k = Some v → Forall (λ op, ¬ overwrites op k) ops →
                  this m' !! k = Some v).
Proof.
  revert m. induction ops as [|op ops IH]; intros m; simpl.
  - exists m. by repeat split.
  - destruct (perform_keeps op m) as (m1 & Hfinal & Hframe & Hkeep).
    rewrite Hfinal. simpl.
    destruct (IH m1) as (m' & Hrun & Hframe' & Hkeep'). exists m'.
    split; [done|]. split.
    + intros k v Hk [Hop Hops]%Forall_cons. apply Hframe'; [by apply Hframe | done].
    + intros Hm.
      assert (operated m1) as Hm1 by by eapply operated_call.
      destruct (Hkeep' Hm1) as [Hm' Hall]. split; [done|].
      intros k v Hk [Hop Hops]%Forall_cons. apply Hall; [by apply Hkeep | done].
Qed.

End Operations.

(** * Part XI: the anomaly pipeline in exact arithmetic *)

Section Anomalies.
#[local] Open Scope R_scope.

#[local] Abbreviation value := (value exact vec2).
#[local] Abbreviation props := (gmap string value).
#[local] Abbreviation machine := (@machine exact vec2).

(** ** The exact operators on finite operands *)

Lemma int_exact z : int z = Fin (IZR z).
Proof. unfold int. simpl. f_equal. lra. Qed.

Lemma exact_div_Fin x y : y ≠ 0 → exact_div (Fin x) (Fin y) = Fin (x / y).
Proof. intros Hy. unfold exact_div. by destruct (Req_dec_T y 0). Qed.

Lemma exact_sqrt_Fin x : 0 <= x → exact_sqrt (Fin x) = Fin (sqrt x).
Proof. intros Hx. unfold exact_sqrt. destruct (Rlt_dec x 0); [lra | done]. Qed.

(** [Math.atan2] of two numbers is a number. *)
Lemma exact_atan2_Fin x y : ∃ θ, exact_atan2 (Fin y) (Fin x) = Fin θ.
Proof.
  unfold exact_atan2. repeat destruct (Rlt_dec _ _); try destruct (Rle_dec _ _); by eexists.
Qed.

(** ** [eccAnom] *)

Lemma lift2_Nan_r f a : lift2 f a Nan = Nan.
Proof. by destruct a. Qed.

(** The mean anomaly of a body that lacks one of its inputs. *)
Lemma mean_anomaly_missing (tick : option value) (t : props) :
  t !! "Mt" = None ∨ t !! "n" = None ∨ t !! "epoch" = None ∨ tick = None →
  mean_anomaly tick t !! "M" = Some (Num Nan).
Proof.
  intros Hmissing. unfold mean_anomaly. rewrite !lookup_insert_eq.
  assert ((t !! "Mt" + t !! "n" * (tick - t !! "epoch"))%js = (Num Nan : value)) as ->; [|done].
  unfold js_add, js_mul, js_sub. f_equal.
  destruct Hmissing as [-> | [-> | [-> | ->]]]; simpl; by rewrite ?lift2_Nan_r.
Qed.

(** [eccAnom] on a body that lacks [Mt], [n] or [epoch] (or with no
    current tick): it raises nothing and its loop takes no iteration; it
    stores [NaN] under [M] and, under [E], [NaN] when [ε < 0.8] and [180]
    otherwise, which is the initial guess [π] in degrees. *)
Theorem eccAnom_missing_input (tick : option value) (m : machine) :
  this m !! "Mt" = None ∨ this m !! "n" = None ∨ this m !! "epoch" = None ∨ tick = None →
  ∃ E F m',
    solve (mean_anomaly tick (this m)) = (E, F, 0%nat) ∧
    eccAnom tick m = Done m' ∧
    this m' !! "M" = Some (Num Nan) ∧
    this m' !! "E" = Some (Num (if (this m !! "ε" < dec 8 1)%js then Nan else Fin 180)).
Proof.
  intros Hmissing. pose proof (mean_anomaly_missing tick (this m) Hmissing) as HM.
  pose proof (mean_anomaly_frame tick (this m) "ε" ltac:(done)) as Hε.
  assert (∀ E : value, initial_residual (mean_anomaly tick (this m)) E = Num Nan) as HF.
  { intros E. unfold initial_residual. rewrite HM. unfold js_sub at 1. f_equal.
    exact (lift2_Nan_r Rminus _). }
  unfold eccAnom, solve. rewrite HF.
  change (maxIter - 0)%nat with (S 29). rewrite newton_S.
  assert ((lib_abs (Num Nan : value) > dec 1 3)%js = false) as -> by done.
  eexists _, _, _. split; [done|]. split; [done|]. cbn [this].
  split; [by rewrite lookup_insert_ne|]. rewrite lookup_insert_eq.
  unfold initial_guess. rewrite Hε, HM.
  destruct (this m !! "ε" < dec 8 1)%js; [done|].
  change (Num π : value) with (Num (Fin PI) : value). rewrite degrees_exact.
  pose proof PI_RGT_0. do 3 f_equal. field. lra.
Qed.

End Anomalies.

(** ** Convergence of the solver at moderate eccentricity *)

Section Convergence.
#[local] Open Scope R_scope.

#[local] Abbreviation value := (value exact vec2).
#[local] Abbreviation props := (gmap string value).
#[local] Abbreviation machine := (@machine exact vec2).

Lemma cos_lipschitz a b : Rabs (cos a - cos b) <= Rabs (a - b).
Proof.
  rewrite form2, !Rabs_mult.
  assert (Rabs (sin ((a + b) / 2)) <= 1) as Hs.
  { apply Rabs_le. pose proof (SIN_bound ((a + b) / 2)). lra. }
  pose proof (Rabs_sin_le ((a - b) / 2)) as Hd.
  pose proof (Rabs_pos (sin ((a - b) / 2))) as Hd0.
  pose proof (Rabs_pos (sin ((a + b) / 2))) as Hs0.
  replace (Rabs ((a - b) / 2)) with (Rabs (a - b) / 2) in Hd.
  2:{ unfold Rdiv. rewrite Rabs_mult. rewrite (Rabs_pos_eq (/ 2)); lra. }
  replace (Rabs (-2)) with 2 by (rewrite Rabs_left; lra). nra.
Qed.

Lemma sin_cubic_nonneg y : 0 <= y <= 1 → y - y * y * y / 6 <= sin y <= y.
Proof.
  intros Hy. pose proof PI2_1 as Hpi. split.
  - pose proof (SIN y ltac:(lra) ltac:(lra)) as [Hlb _].
    unfold sin_lb, sin_approx, sin_term in Hlb. simpl in Hlb.
    assert (0 <= y * y * y * y * y * (42 - y * y)) as Htail.
    { apply Rmult_le_pos; [|nra]. repeat apply Rmult_le_pos; lra. }
    lra.
  - destruct (Req_dec y 0) as [->|Hne]; [rewrite sin_0; lra|].
    apply Rlt_le, sin_lt_x. lra.
Qed.

Lemma sin_cubic y : Rabs y <= 1 → Rabs (sin y - y) <= Rabs y * (y * y) / 6.
Proof.
  intros Hy. destruct (Rle_dec 0 y) as [Hpos|Hneg].
  - rewrite (Rabs_pos_eq y) in * by done.
    destruct (sin_cubic_nonneg y ltac:(lra)) as [Hlo Hhi].
    rewrite Rabs_left1 by lra. lra.
  - apply Rnot_le_lt in Hneg. rewrite (Rabs_left y) in * by done.
    destruct (sin_cubic_nonneg (- y) ltac:(lra)) as [Hlo Hhi].
    rewrite sin_neg in Hlo, Hhi. rewrite Rabs_pos_eq by lra. nra.
Qed.

(** The remainder of the first-order expansion of the sine. *)
Lemma sin_remainder E δ :
  Rabs δ <= 2 →
  Rabs (sin (E + δ) - sin E - δ * cos E) <= δ * δ / 2 + Rabs δ * (δ * δ) / 24.
Proof.
  intros Hδ.
  replace (sin (E + δ) - sin E - δ * cos E)
    with (2 * sin (δ / 2) * (cos (E + δ / 2) - cos E) + (2 * sin (δ / 2) - δ) * cos E).
  2:{ rewrite (form4 (E + δ) E).
      replace ((E + δ + E) / 2) with (E + δ / 2) by lra.
      replace ((E + δ - E) / 2) with (δ / 2) by lra. ring. }
  assert (Rabs (δ / 2) = Rabs δ / 2) as Hhalf.
  { unfold Rdiv. rewrite Rabs_mult, (Rabs_pos_eq (/ 2)); lra. }
  pose proof (Rabs_sin_le (δ / 2)) as Hsin. rewrite Hhalf in Hsin.
  pose proof (cos_lipschitz (E + δ / 2) E) as Hcos.
  replace (E + δ / 2 - E) with (δ / 2) in Hcos by lra. rewrite Hhalf in Hcos.
  pose proof (sin_cubic (δ / 2)) as Hcubic. rewrite Hhalf in Hcubic.
  specialize (Hcubic ltac:(lra)).
  assert (Rabs (cos E) <= 1) as Hc.
  { apply Rabs_le. pose proof (COS_bound E). lra. }
  assert (δ * δ = Rabs δ * Rabs δ) as Hsq.
  { unfold Rabs. destruct (Rcase_abs δ); ring. }
  pose proof (Rabs_pos δ) as Hδ0.
  pose proof (Rabs_pos (sin (δ / 2))) as Hs0.
  pose proof (Rabs_pos (cos (E + δ / 2) - cos E)) as Hc0.
  pose proof (Rabs_pos (cos E)) as Hc1.
  pose proof (Rabs_pos (sin (δ / 2) - δ / 2)) as Hd0.
  eapply Rle_trans; [apply Rabs_triang|].
  rewrite !Rabs_mult, (Rabs_pos_eq 2) by lra.
  replace (2 * sin (δ / 2) - δ) with (2 * (sin (δ / 2) - δ / 2)) by lra.
  rewrite Rabs_mult, (Rabs_pos_eq 2) by lra.
  assert (2 * Rabs (sin (δ / 2)) * Rabs (cos (E + δ / 2) - cos E) <= δ * δ / 2) as H1.
  { rewrite Hsq.
    apply Rle_trans with (Rabs δ * Rabs (cos (E + δ / 2) - cos E)); [nra|].
    apply Rle_trans with (Rabs δ * (Rabs δ / 2)); [|lra].
    apply Rmult_le_compat_l; lra. }
  assert (2 * Rabs (sin (δ / 2) - δ / 2) * Rabs (cos E) <= Rabs δ * (δ * δ) / 24) as H2.
  { apply Rle_trans with (2 * Rabs (sin (δ / 2) - δ / 2) * 1).
    - apply Rmult_le_compat_l; lra.
    - replace (Rabs δ / 2 * (δ / 2 * (δ / 2)) / 6) with (Rabs δ * (δ * δ) / 48) in Hcubic
        by field.
      lra. }
  lra.
Qed.

(** One Newton step squares the residual, up to the factor [13/12]. *)
Lemma newton_contracts e M E :
  0 <= e <= 1 / 2 →
  let F := kepler_residual e M E in
  Rabs F <= 1 / 2 →
  Rabs (kepler_residual e M (E - F / (1 - e * cos E))) <= 13 / 12 * (F * F).
Proof.
  intros He F HF.
  assert (1 / 2 <= 1 - e * cos E) as Hden by (pose proof (COS_bound E); nra).
  set (δ := - F / (1 - e * cos E)).
  assert (δ * (1 - e * cos E) = - F) as Hδ by (unfold δ; field; lra).
  assert (Rabs δ <= 2 * Rabs F) as Hsmall.
  { unfold δ, Rdiv. rewrite Rabs_mult, Rabs_Ropp.
    rewrite (Rabs_pos_eq (/ (1 - e * cos E))).
    - assert (/ (1 - e * cos E) <= 2).
      { replace 2 with (/ (1 / 2)) by field. apply Rinv_le_contravar; lra. }
      pose proof (Rabs_pos F). nra.
    - apply Rlt_le, Rinv_0_lt_compat. lra. }
  replace (E - F / (1 - e * cos E)) with (E + δ) by (unfold δ; field; lra).
  replace (kepler_residual e M (E + δ))
    with (- e * (sin (E + δ) - sin E - δ * cos E)).
  2:{ unfold F, kepler_residual in Hδ. unfold kepler_residual. lra. }
  pose proof (sin_remainder E δ ltac:(lra)) as Hrem.
  rewrite Rabs_mult, Rabs_Ropp, (Rabs_pos_eq e) by lra.
  assert (δ * δ = Rabs δ * Rabs δ) as Hsq.
  { unfold Rabs. destruct (Rcase_abs δ); ring. }
  assert (F * F = Rabs F * Rabs F) as HsqF.
  { unfold Rabs. destruct (Rcase_abs F); ring. }
  pose proof (Rabs_pos δ) as Hδ0. pose proof (Rabs_pos F) as HF0.
  pose proof (Rabs_pos (sin (E + δ) - sin E - δ * cos E)) as Hr0.
  assert (Rabs δ * (δ * δ) <= δ * δ) as Hcube.
  { rewrite Hsq. assert (Rabs δ <= 1) by lra.
    assert (0 <= Rabs δ * Rabs δ) by nra. nra. }
  assert (δ * δ <= 4 * (F * F)) as Hδ2.
  { rewrite Hsq, HsqF. nra. }
  assert (Rabs (sin (E + δ) - sin E - δ * cos E) <= 13 / 24 * (δ * δ)) as Hh by lra.
  assert (0 <= δ * δ) by nra.
  apply Rle_trans with (1 / 2 * (13 / 24 * (δ * δ))); [|lra].
  apply Rle_trans with (e * (13 / 24 * (δ * δ))).
  - apply Rmult_le_compat_l; lra.
  - apply Rmult_le_compat_r; lra.
Qed.

(** The residual after which [n] more iterations bring it within the
    tolerance. *)
Definition within (n : nat) : R :=
  match n with
  | 0%nat => 0.001
  | 1%nat => 0.03
  | 2%nat => 0.16
  | 3%nat => 0.38
  | _ => 0.5
  end.

Lemma within_step n F :
  (n < 4)%nat → Rabs F <= within (S n) → 13 / 12 * (F * F) <= within n.
Proof.
  intros Hn HF.
  assert (F * F = Rabs F * Rabs F) as ->.
  { unfold Rabs. destruct (Rcase_abs F); ring. }
  pose proof (Rabs_pos F).
  destruct n as [|[|[|[|n]]]]; simpl in *; try lia; nra.
Qed.

Lemma within_half n : within n <= 1 / 2.
Proof. destruct n as [|[|[|[|n]]]]; simpl; lra. Qed.

Lemma newton_within this e M :
  holds this e M → 0 <= e <= 1 / 2 →
  ∀ n left E i,
    (n <= 4)%nat → (n <= left)%nat → Rabs (kepler_residual e M E) <= within n →
    ∃ E' i',
      newton this left (Num (Fin E)) (Num (Fin (kepler_residual e M E))) i
        = (Num (Fin E'), Num (Fin (kepler_residual e M E')), i') ∧
      (i <= i' <= i + n)%nat ∧
      Rabs (kepler_residual e M E') <= 0.001.
Proof.
  intros Hthis He. induction n as [|n IH]; intros left E i Hn Hleft HF.
  - exists E, i. split; [|split; [lia | done]].
    destruct left as [|left]; [done|].
    rewrite newton_S, tolerance_exact. simpl in HF.
    destruct (Rlt_dec 0.001 _); [lra | done].
  - destruct left as [|left]; [lia|].
    rewrite newton_S, tolerance_exact.
    destruct (Rlt_dec 0.001 _) as [Hgt|Hle].
    + cbv zeta.
      destruct (newton_step_exact this e M E (kepler_residual e M E) Hthis ltac:(lra))
        as [-> ->].
      destruct (IH left (E - kepler_residual e M E / (1 - e * cos E)) (S i))
        as (E' & i' & Hrun & Hi & Htol); [lia | lia | |].
      * eapply Rle_trans; [apply newton_contracts; [done|]|].
        -- pose proof (within_half (S n)). lra.
        -- apply within_step; [lia | done].
      * exists E', i'. split; [done|]. split; [lia | done].
    + exists E, i. split; [done|]. split; [lia | lra].
Qed.

(** For an eccentricity of at most one half, in exact arithmetic, the
    solver converges, and fast: whatever the mean anomaly, the loop of
    [eccAnom] stops after at most four iterations with the residual of
    Kepler's equation within the tolerance, [|E' − ε·sin(E') − M| ≤ 0.001],
    so that the angle it stores, in degrees, is within [0.002] radians of
    every solution [E] of [M = E − ε·sin(E)]. *)
Theorem solver_converges (m : machine) (tick : option value) (e M : R) :
  holds (mean_anomaly tick (this m)) e M → 0 <= e <= 1 / 2 →
  ∃ E' i m',
    solve (mean_anomaly tick (this m))
      = (Num (Fin E'), Num (Fin (kepler_residual e M E')), i) ∧
    (i <= 4)%nat ∧
    eccAnom tick m = Done m' ∧
    this m' !! "E" = Some (Num (Fin (E' / (PI / 180)))) ∧
    Rabs (kepler_residual e M E') <= 0.001 ∧
    ∀ E, M = E - e * sin E → Rabs (E' - E) <= 0.002.
Proof.
  intros Hholds He.
  assert (solve (mean_anomaly tick (this m))
          = newton (mean_anomaly tick (this m)) 30 (Num (Fin M))
              (Num (Fin (kepler_residual e M M))) 0) as Hsolve.
  { unfold solve.
    rewrite (initial_guess_exact _ _ _ Hholds), (initial_residual_exact _ _ _ _ Hholds).
    destruct (Rlt_dec e 0.8); [done | lra]. }
  destruct (newton_within _ e M Hholds He 4%nat 30%nat M 0%nat) as (E' & i & Hrun & Hi & Htol);
    [lia | lia | |].
  { unfold kepler_residual. replace (M - e * sin M - M) with (- (e * sin M)) by lra.
    rewrite Rabs_Ropp, Rabs_mult, (Rabs_pos_eq e) by lra.
    assert (Rabs (sin M) <= 1) by (apply Rabs_le; pose proof (SIN_bound M); lra).
    pose proof (Rabs_pos (sin M)). simpl. nra. }
  rewrite Hrun in Hsolve. exists E', i. unfold eccAnom. rewrite Hsolve. eexists.
  split; [done|]. split; [lia|]. split; [done|].
  split; [simpl; by rewrite lookup_insert_eq, degrees_exact|]. split; [done|].
  intros E HE.
  pose proof (residual_bounds_error e M E E' ltac:(lra) HE) as Hbound.
  pose proof (Rabs_pos (E' - E)). nra.
Qed.

End Convergence.

(** * Part XII: bodies in the plane, in exact arithmetic *)

(** The formula of [set_x], read off the value a settled body stores. *)
Ltac formula_of x f Hs Hv Heq Hpre :=
  edestruct (settled_formula x f) as [Heq Hpre];
  [ exact Hs | by apply (bool_decide_unpack _) | exact Hv | reflexivity
  | let l := eval vm_compute in (prerequisites x) in
    change (prerequisites x) with l; intros ? ?;
    cbv beta delta [set_r set_v set_μ set_ek set_ep set_ε set_I set_Ω set_L set_h set_a
                    set_b set_ecc set_p set_Et set_ap set_pe set_vt and_then];
    rewrite ?require_at_nil; reflexivity
  | cbv beta in Heq ].

(** Unfolds the operators and the library at the exact numbers, in [H]. *)
Ltac exact_in H :=
  rewrite ?int_exact in H;
  cbv [js_add js_sub js_mul js_div js_neg js_gt js_lt Math_acos Math_atan2
       to_number option_to_number value_to_number num_to_number
       n_add n_sub n_mul n_div n_neg n_gt n_lt n_acos n_atan2 π exact_number
       lift2 lift1 lib_abs lib_square lib_sqrt lib_cube lib_length lib_cross
       field_x field_y plane mbind result_bind receiver] in H.

Ltac exact_goal :=
  rewrite ?int_exact;
  cbv [js_add js_sub js_mul js_div js_neg js_gt js_lt Math_acos Math_atan2
       to_number option_to_number value_to_number num_to_number
       n_add n_sub n_mul n_div n_neg n_gt n_lt n_acos n_atan2 π exact_number
       lift2 lift1 lib_abs lib_square lib_sqrt lib_cube lib_length lib_cross
       lib_divide lib_subtract field_x field_y plane mbind result_bind receiver].

(** The value stored under a prerequisite. *)
Ltac prerequisite Hpre p w Hw :=
  destruct (Hpre p) as [w Hw]; [by apply (bool_decide_unpack _)|].

Section Planar.
#[local] Open Scope R_scope.

#[local] Abbreviation value := (value exact vec2).
#[local] Abbreviation props := (gmap string value).
#[local] Abbreviation machine := (@machine exact vec2).
#[local] Abbreviation method := (@method exact vec2).

#[local] Arguments exact_div : simpl never.
#[local] Arguments exact_sqrt : simpl never.
#[local] Arguments exact_gt : simpl never.
#[local] Arguments exact_atan2 : simpl never.
#[local] Arguments exact_acos : simpl never.
#[local] Arguments int : simpl never.

(** A settled body with position [(x, y)] and velocity [(vx, vy)] in the
    plane of its orbit, and mass [k]. *)
Variables (x y vx vy k : R) (t : props).
Hypothesis settled_t : settled t.
Hypothesis planar_rvec : t !! "rvec" = Some (Obj (Fin x, Fin y) : value).
Hypothesis planar_vvec : t !! "vvec" = Some (Obj (Fin vx, Fin vy) : value).
Hypothesis planar_mass : t !! "mass" = Some (Num (Fin k) : value).
Hypothesis position_nonzero : 0 < x * x + y * y.
Hypothesis mass_nonzero : k ≠ 0.

Lemma planar_r v : t !! "r" = Some v → v = Num (Fin (sqrt (x * x + y * y))).
Proof.
  intros Hv. formula_of "r" set_r settled_t Hv Heq Hpre.
  rewrite planar_rvec in Heq. exact_in Heq. injection Heq as <-.
  by rewrite exact_sqrt_Fin by nra.
Qed.

Lemma planar_μ v : t !! "μ" = Some v → v = Num (Fin 398600).
Proof.
  intros Hv. formula_of "μ" (set_μ : method) settled_t Hv Heq Hpre.
  injection Heq as <-. by rewrite int_exact.
Qed.

Lemma planar_I v : t !! "I" = Some v → v = Num (Fin (k * (x * x + y * y))).
Proof.
  intros Hv. formula_of "I" (set_I : method) settled_t Hv Heq Hpre.
  prerequisite Hpre "r" w Hw.
  rewrite Hw, (planar_r w Hw), planar_mass in Heq. exact_in Heq.
  injection Heq as <-. by rewrite sqrt_sqrt by nra.
Qed.

Lemma planar_Ω v :
  t !! "Ω" = Some v → v = Num (Fin ((x * vy - y * vx) / (x * x + y * y))).
Proof.
  intros Hv. formula_of "Ω" (set_Ω : method) settled_t Hv Heq Hpre.
  prerequisite Hpre "r" w Hw.
  rewrite Hw, (planar_r w Hw), planar_rvec, planar_vvec in Heq. exact_in Heq.
  rewrite sqrt_sqrt, exact_div_Fin in Heq by lra. by injection Heq as <-.
Qed.

Lemma planar_L v : t !! "L" = Some v → v = Num (Fin (k * (x * vy - y * vx))).
Proof.
  intros Hv. formula_of "L" (set_L : method) settled_t Hv Heq Hpre.
  prerequisite Hpre "I" w Hw. prerequisite Hpre "Ω" w' Hw'.
  rewrite Hw, (planar_I w Hw), Hw', (planar_Ω w' Hw') in Heq. exact_in Heq.
  injection Heq as <-. do 2 f_equal. field. lra.
Qed.

Lemma planar_h v : t !! "h" = Some v → v = Num (Fin (x * vy - y * vx)).
Proof.
  intros Hv. formula_of "h" (set_h : method) settled_t Hv Heq Hpre.
  prerequisite Hpre "L" w Hw.
  rewrite Hw, (planar_L w Hw), planar_mass in Heq. exact_in Heq.
  rewrite exact_div_Fin in Heq by done.
  injection Heq as <-. do 2 f_equal. by field.
Qed.

(** What [set_eccvec] and [set_ω] store on such a body once it holds [h],
    [μ] and [r]: a vector, and a number. *)
Lemma planar_eccvec (m : machine) :
  this m = t → is_Some (t !! "h") → is_Some (t !! "μ") → is_Some (t !! "r") →
  ∃ ex ey, set_eccvec require m = Done (stored "eccvec" (Obj (Fin ex, Fin ey)) m).
Proof.
  intros Hm [h Hh] [μ Hμ] [r Hr].
  exists ((x * vy - y * vx) * vy / 398600 - x / sqrt (x * x + y * y)),
         (- ((x * vy - y * vx) * vx) / 398600 - y / sqrt (x * x + y * y)).
  unfold set_eccvec, assign, stored. rewrite !Hm.
  rewrite planar_rvec, planar_vvec, Hh, (planar_h h Hh), Hμ, (planar_μ μ Hμ),
    Hr, (planar_r r Hr).
  pose proof (sqrt_lt_R0 _ position_nonzero).
  exact_goal. rewrite !exact_div_Fin by lra. by repeat f_equal.
Qed.

Lemma planar_ω (m : machine) ex ey :
  this m !! "eccvec" = Some (Obj (Fin ex, Fin ey) : value) →
  ∃ θ, set_ω require m = Done (stored "ω" (Num (Fin θ)) m).
Proof.
  intros He. destruct (exact_atan2_Fin ex ey) as (θ & Hθ). exists θ.
  unfold set_ω, and_then, require. rewrite require_at_defined.
  2:{ intros p ->%list_elem_of_singleton. unfold typeof_undefined. by rewrite He. }
  unfold assign, stored. rewrite He. exact_goal. by rewrite Hθ.
Qed.

End Planar.

Section Overwritten.
#[local] Open Scope R_scope.

#[local] Abbreviation value := (value exact vec2).
#[local] Abbreviation props := (gmap string value).
#[local] Abbreviation machine := (@machine exact vec2).
#[local] Abbreviation method := (@method exact vec2).

#[local] Arguments exact_div : simpl never.
#[local] Arguments exact_sqrt : simpl never.
#[local] Arguments exact_atan2 : simpl never.

(** [eccAnom] and [TrueAnom] at eccentricity zero: the loop takes no
    iteration, and [E] is [M] in degrees. *)
Lemma eccAnom_circular (m : machine) (tick : option value) M :
  holds (mean_anomaly tick (this m)) 0 M →
  eccAnom tick m =
    Done (Machine (<["E" := Num (Fin (M / (PI / 180)))]> (mean_anomaly tick (this m)))
                  (invoked m)).
Proof.
  intros Hholds. pose proof (solve_immediate _ _ _ Hholds) as Hsolve. cbv zeta in Hsolve.
  destruct (Rlt_dec 0 0.8) as [_|Hn]; [|lra].
  assert (Rabs (M - 0 * sin M - M) <= 0.001) as Hsmall
    by (replace (M - 0 * sin M - M) with 0 by lra; rewrite Rabs_R0; lra).
  specialize (Hsolve Hsmall). unfold eccAnom. rewrite Hsolve. by rewrite degrees_exact.
Qed.

Lemma TrueAnom_circular (m : machine) E :
  this m !! "E" = Some (Num (Fin E)) → this m !! "ε" = Some (Num (Fin 0)) →
  TrueAnom m =
    Done (Machine (<["φ" := Num (exact_div (exact_atan2 (Fin (1 * sin E)) (Fin (cos E - 0)))
                                           (Fin PI))]> (this m))
                  (invoked m)).
Proof.
  intros HE Hε. unfold TrueAnom. rewrite HE, Hε.
  exact_eval. unfold Math_atan2.
  cbv [to_number value_to_number num_to_number n_atan2 n_div exact_number].
  replace (10 / 10 ^ 1 - 0 * 0) with 1 by (simpl; lra).
  by rewrite exact_sqrt_Fin, sqrt_1 by lra.
Qed.

Lemma holds_mean_anomaly (t : props) Mt n epoch tick :
  t !! "ε" = Some (Num (Fin 0)) →
  t !! "Mt" = Some (Num (Fin Mt)) → t !! "n" = Some (Num (Fin n)) →
  t !! "epoch" = Some (Num (Fin epoch)) →
  let raw := Mt + n * (tick - epoch) in
  0 <= raw < 1 → holds (mean_anomaly (at_tick tick) t) 0 (2 * PI * raw).
Proof.
  intros Hε HMt Hn Hepoch raw Hraw. split.
  - by rewrite mean_anomaly_frame.
  - unfold at_tick. rewrite (mean_anomaly_exact _ Mt n epoch tick) by done.
    fold raw. by rewrite (reduce_fraction raw Hraw), lookup_insert_eq.
Qed.

(** The anomaly pipeline at eccentricity zero, for a mean anomaly of
    [raw] revolutions. *)
Lemma pipeline_circular (b : machine) Mt n epoch tick :
  this b !! "ε" = Some (Num (Fin 0)) →
  this b !! "Mt" = Some (Num (Fin Mt)) → this b !! "n" = Some (Num (Fin n)) →
  this b !! "epoch" = Some (Num (Fin epoch)) →
  let raw := Mt + n * (tick - epoch) in
  let E := 2 * PI * raw / (PI / 180) in
  0 <= raw < 1 →
  ∃ m, perform_all [call_eccAnom (at_tick tick); call_TrueAnom] b = Some m ∧
       this m !! "M" = Some (Num (Fin (2 * PI * raw))) ∧
       this m !! "E" = Some (Num (Fin E)) ∧
       this m !! "φ" = Some (Num (exact_div (exact_atan2 (Fin (1 * sin E)) (Fin (cos E - 0)))
                                            (Fin PI))) ∧
       ∀ k, k ≠ "M" → k ≠ "E" → k ≠ "φ" → this m !! k = this b !! k.
Proof.
  intros Hε HMt Hn Hepoch raw E Hraw.
  pose proof (holds_mean_anomaly _ _ _ _ tick Hε HMt Hn Hepoch Hraw) as Hholds.
  fold raw in Hholds. destruct Hholds as [Hε' HM'].
  eexists. cbn [perform_all]. rewrite !perform_eq.
  rewrite (eccAnom_circular b _ (2 * PI * raw)) by done.
  cbn [final mbind option_bind perform_all]. rewrite perform_eq.
  rewrite (TrueAnom_circular _ E).
  2:{ cbn [this]. by rewrite lookup_insert_eq. }
  2:{ cbn [this]. by rewrite lookup_insert_ne. }
  cbn [final mbind option_bind perform_all]. split; [done|]. cbn [this].
  split; [by rewrite !lookup_insert_ne, HM'|].
  split; [by rewrite lookup_insert_ne, lookup_insert_eq|].
  split; [by rewrite lookup_insert_eq|].
  intros k HM HE Hφ. by rewrite !lookup_insert_ne, mean_anomaly_frame.
Qed.

Lemma turn_at_0 :
  exact_div (exact_atan2 (Fin (1 * sin 0)) (Fin (cos 0 - 0))) (Fin PI) = Fin 0.
Proof.
  pose proof PI_RGT_0. rewrite sin_0, cos_0. unfold exact_atan2.
  destruct (Rlt_dec 0 (1 - 0)) as [_|Hn]; [|lra].
  replace (1 * 0 / (1 - 0)) with 0 by lra. rewrite atan_0, exact_div_Fin by lra.
  f_equal. lra.
Qed.

Lemma turn_at_PI :
  exact_div (exact_atan2 (Fin (1 * sin PI)) (Fin (cos PI - 0))) (Fin PI) = Fin 1.
Proof.
  pose proof PI_RGT_0. rewrite sin_PI, cos_PI. unfold exact_atan2.
  destruct (Rlt_dec 0 (-1 - 0)) as [Hn|_]; [lra|].
  destruct (Rlt_dec (-1 - 0) 0) as [_|Hn]; [|lra].
  destruct (Rle_dec 0 (1 * 0)) as [_|Hn]; [|lra].
  replace (1 * 0 / (-1 - 0)) with 0 by lra. rewrite atan_0, exact_div_Fin by lra.
  f_equal. field. lra.
Qed.

(** C7, as the spec has it, fails for each of [M], [E], [φ], [eccvec] and
    [ω].  On a body at eccentricity zero, [eccAnom] and [TrueAnom] at the
    next tick store other values under [M], [E] and [φ] than they stored at
    the first.  On the body of the spec's scenario, asked for [ω] when it was
    constructed and for [h] and [r] afterwards, a direct call of
    [set_eccvec] replaces the [NaN] stored under [eccvec] by a vector, and a
    direct call of [set_ω] then replaces the [NaN] stored under [ω] by a
    number. *)
Lemma stored_values_overwritten :
  (∃ m m' : machine,
     perform_all [call_eccAnom (at_tick 0); call_TrueAnom] (orbiting 0 0 (PI / 360) 0)
       = Some m ∧
     perform_all [call_eccAnom (at_tick 1); call_TrueAnom] m = Some m' ∧
     Forall (λ k, is_Some (this m !! k) ∧ this m' !! k ≠ this m !! k) ["M"; "E"; "φ"]) ∧
  (∃ m m' : machine,
     perform_all [call_require ["ω"]] low_orbit = Some m ∧ operated m ∧
     perform_all [call_require ["h"; "r"]; call_set_ "eccvec"; call_set_ "ω"] m = Some m' ∧
     Forall (λ k, this m !! k = Some (Num Nan) ∧ this m' !! k ≠ this m !! k)
            ["eccvec"; "ω"]).
Proof.
  pose proof PI_RGT_0 as Hpi. pose proof PI_4 as Hpi4. split.
  - destruct (pipeline_circular (orbiting 0 0 (PI / 360) 0) 0 (PI / 360) 0 0)
      as (m & Hm & HM & HE & Hφ & Hframe); [done..|lra|].
    destruct (pipeline_circular m 0 (PI / 360) 0 1)
      as (m' & Hm' & HM' & HE' & Hφ' & _); [by rewrite Hframe..|lra|].
    exists m, m'. split; [done|]. split; [done|].
    replace (2 * PI * (0 + PI / 360 * (0 - 0)) / (PI / 180)) with 0 in * by (field; lra).
    replace (2 * PI * (0 + PI / 360 * (1 - 0)) / (PI / 180)) with PI in * by (field; lra).
    rewrite turn_at_0 in Hφ. rewrite turn_at_PI in Hφ'.
    repeat constructor; rewrite ?HM, ?HE, ?Hφ, ?HM', ?HE', ?Hφ';
      try (by eexists); intros [= Heq]; nra.
  - set (m := after ["ω"] low_orbit).
    assert (require ["ω"] low_orbit = Done m) as Hm by (vm_compute; reflexivity).
    assert (operated m) as Hop.
    { apply (operated_call (call_require ["ω"]) low_orbit); [apply operated_new|].
      by rewrite perform_eq, Hm. }
    set (m2 := after ["h"; "r"] m).
    assert (require ["h"; "r"] m = Done m2) as Hm2 by (vm_compute; reflexivity).
    assert (operated m2) as Hop2.
    { apply (operated_call (call_require ["h"; "r"]) m); [done|].
      by rewrite perform_eq, Hm2. }
    destruct (planar_eccvec 7000 0 0 7.5 1000 (this m2)) with (m := m2)
      as (ex & ey & Hecc);
      [ by apply operated_settled | vm_compute; reflexivity | vm_compute; reflexivity
      | vm_compute; reflexivity | lra | lra | done
      | vm_compute; by eexists | vm_compute; by eexists | vm_compute; by eexists |].
    destruct (planar_ω (stored "eccvec" (Obj (Fin ex, Fin ey)) m2) ex ey) as (θ & Hω);
      [apply lookup_insert_eq|].
    exists m, (stored "ω" (Num (Fin θ)) (stored "eccvec" (Obj (Fin ex, Fin ey)) m2)). split; [cbn [perform_all]; by rewrite perform_eq, Hm|].
    split; [done|]. split.
    + cbn [perform_all]. rewrite !perform_eq, Hm2. cbn [final mbind option_bind perform_all].
      rewrite perform_eq.
      assert (this_set_ (this m2) "eccvec" = Ok set_eccvec) as -> by (vm_compute; reflexivity).
      rewrite Hecc. cbn [final mbind option_bind perform_all]. rewrite perform_eq.
      match goal with |- context [this_set_ ?t "ω"] =>
        assert (this_set_ t "ω" = Ok set_ω) as -> end.
      { unfold this_set_. cbn [this stored]. rewrite lookup_insert_ne by done.
        vm_compute. reflexivity. }
      by rewrite Hω.
    + assert (this m !! "eccvec" = Some (Num Nan)) as He by (vm_compute; reflexivity).
      assert (this m !! "ω" = Some (Num Nan)) as Hw by (vm_compute; reflexivity).
      repeat constructor; by rewrite ?He, ?Hw.
Qed.

End Overwritten.

(** ** Witnesses of Parts IX and XI *)

Section Witnesses.
#[local] Open Scope R_scope.

#[local] Abbreviation value := (value exact vec2).
#[local] Abbreviation props := (gmap string value).
#[local] Abbreviation machine := (@machine exact vec2).

Lemma require_returns_iff_witness :
  (∃ m', require ["a"; "ecc"] low_orbit = Done m') ↔
  (∀ p, p ∈ ["a"; "ecc"] → typeof_undefined (this low_orbit) p = true → p ∈ attributes).
Proof. apply (require_returns_iff ["a"; "ecc"] low_orbit). apply born. Defined.

Lemma low_orbit_requested (l : list string) :
  requested (Obj (Fin 7000, Fin 0) : value) (Obj (Fin 0, Fin 7.5) : value) (Num (Fin 1000))
            (after l low_orbit).
Proof.
  apply (asked _ _ _ l low_orbit); [apply constructed|].
  unfold after. destruct (runs_extends _ _ _ (runs_require l low_orbit)) as [Hne _].
  by destruct (require l low_orbit).
Defined.

Lemma recomputation_agrees_witness :
  let m := after ["a"] low_orbit in
  set_ε require m = Done (Machine (this m) (invoked m ++ [("ε", this m)])).
Proof.
  intros m.
  apply (recomputation_agrees (Obj (Fin 7000, Fin 0)) (Obj (Fin 0, Fin 7.5)) (Num (Fin 1000))
           m "ε" set_ε).
  - apply low_orbit_requested.
  - by apply (bool_decide_unpack _).
  - vm_compute. by eexists.
  - reflexivity.
Defined.

Lemma eccAnom_missing_input_witness :
  ∃ E F m',
    solve (mean_anomaly (at_tick 0) (this low_orbit)) = (E, F, 0%nat) ∧
    eccAnom (at_tick 0) low_orbit = Done m' ∧
    this m' !! "M" = Some (Num Nan) ∧
    this m' !! "E" = Some (Num (if (this low_orbit !! "ε" < dec 8 1)%js then Nan else Fin 180)).
Proof. apply (eccAnom_missing_input (at_tick 0) low_orbit). left. reflexivity. Defined.

Lemma require_raises_missing_method_witness :
  ∃ p, needed ["r"; "M"] p ∧ NotAFunction "set_M" = NotAFunction ("set_" +:+ p).
Proof.
  apply (require_raises_missing_method ["r"; "M"] low_orbit (NotAFunction "set_M")
           (after ["r"; "M"] low_orbit)).
  - vm_compute. reflexivity.
  - split; by eexists.
Defined.

Lemma solver_converges_witness :
  ∃ E' i m',
    solve (mean_anomaly (at_tick 0) (this (orbiting (1 / 2) (1 / 4) 0 0)))
      = (Num (Fin E'),
         Num (Fin (kepler_residual (1 / 2) (2 * PI * (1 / 4 + 0 * (0 - 0))) E')), i) ∧
    (i <= 4)%nat ∧
    eccAnom (at_tick 0) (orbiting (1 / 2) (1 / 4) 0 0) = Done m' ∧
    this m' !! "E" = Some (Num (Fin (E' / (PI / 180)))) ∧
    Rabs (kepler_residual (1 / 2) (2 * PI * (1 / 4 + 0 * (0 - 0))) E') <= 0.001 ∧
    ∀ E, 2 * PI * (1 / 4 + 0 * (0 - 0)) = E - 1 / 2 * sin E → Rabs (E' - E) <= 0.002.
Proof.
  apply (solver_converges (orbiting (1 / 2) (1 / 4) 0 0) (at_tick 0) (1 / 2)
           (2 * PI * (1 / 4 + 0 * (0 - 0)))).
  - apply orbiting_mean_anomaly. lra.
  - lra.
Defined.

End Witnesses.
